(** * ELF boot loaders for the ZCU102 (Cortex-R5 and Cortex-A53)

    A shallow embedding of [rpu_bootloader_sd.c] and [apu_bootloader_sd.c].

    The two loaders [load_elf32] and [load_elf64] are the same text up to
    the width of the ELF fields and of the pointers; the common part is
    embedded once, indexed by the ELF class.  The collaborators that are not
    part of the sources (FatFs, malloc, the cache primitive, the physical
    memory and the memory-mapped registers) are an explicit [World] that the
    code threads through, together with the chronological list of the
    operations performed on them.  The loaders write where the image tells
    them to: the [World] also says where the loader itself lives, and keeps
    a record of a write that lands there or on a device register. *)

From Stdlib Require Import ZArith Lia.
From Stdlib.Strings Require Import Byte.
From stdpp Require Import base list gmap strings.

Local Open Scope Z_scope.

(** ** Fixed-width integers *)

(** Conversion to an unsigned integer type of [bits] bits. *)
Definition wrap (bits x : Z) : Z := x mod 2 ^ bits.

Definition len {A} (l : list A) : Z := Z.of_nat (length l).

(** ** Bytes and little-endian fields *)

Definition byte_val (b : byte) : Z := Z.of_N (Byte.to_N b).

Definition byte_of_Z (z : Z) : byte :=
  match Byte.of_N (Z.to_N (z mod 256)) with
  | Some b => b
  | None => x00
  end.

Fixpoint le_decode (bs : list byte) : Z :=
  match bs with
  | [] => 0
  | b :: tl => byte_val b + 256 * le_decode tl
  end.

Fixpoint le_encode (n : nat) (z : Z) : list byte :=
  match n with
  | O => []
  | S n' => byte_of_Z z :: le_encode n' (z / 256)
  end.

(** [sub l pos n]: the (at most) [n] bytes of [l] from position [pos]. *)
Definition sub {A} (l : list A) (pos n : Z) : list A :=
  take (Z.to_nat n) (drop (Z.to_nat pos) l).

(** The integer stored in the [size] bytes at offset [off] of a struct. *)
Definition field (bs : list byte) (off size : Z) : Z :=
  le_decode (sub bs off size).

(** ** ELF structures

    [elf.h] is not part of the sources; the layouts are those of the
    System V ABI (little-endian, as on both cores).  One record carries the
    fields of [Elf32_Ehdr] and [Elf64_Ehdr], another those of [Elf32_Phdr]
    and [Elf64_Phdr]; the class tells the widths. *)

Inductive elf_class := ELF32 | ELF64.

(** Width of the address, offset and size fields, and of the pointers of
    the core that runs the loader of that class. *)
Definition bits (c : elf_class) : Z :=
  match c with ELF32 => 32 | ELF64 => 64 end.

Record Elf_Ehdr := {
  e_ident : list byte;
  e_type : Z;
  e_machine : Z;
  e_version : Z;
  e_entry : Z;
  e_phoff : Z;
  e_shoff : Z;
  e_flags : Z;
  e_ehsize : Z;
  e_phentsize : Z;
  e_phnum : Z;
  e_shentsize : Z;
  e_shnum : Z;
  e_shstrndx : Z
}.

Record Elf_Phdr := {
  p_type : Z;
  p_offset : Z;
  p_vaddr : Z;
  p_paddr : Z;
  p_filesz : Z;
  p_memsz : Z;
  p_flags : Z;
  p_align : Z
}.

Definition ELFMAG0 : byte := x7f.
Definition ELFMAG1 : byte := x45.
Definition ELFMAG2 : byte := x4c.
Definition ELFMAG3 : byte := x46.

Definition PT_NULL : Z := 0.
Definition PT_LOAD : Z := 1.
Definition PT_NOTE : Z := 4.

(** [sizeof(Elf32_Ehdr)], [sizeof(Elf64_Ehdr)]. *)
Definition sizeof_Ehdr (c : elf_class) : Z :=
  match c with ELF32 => 52 | ELF64 => 64 end.

(** [sizeof(Elf32_Phdr)], [sizeof(Elf64_Phdr)]. *)
Definition sizeof_Phdr (c : elf_class) : Z :=
  match c with ELF32 => 32 | ELF64 => 56 end.

Definition parse_Ehdr (c : elf_class) (bs : list byte) : Elf_Ehdr :=
  match c with
  | ELF32 =>
      {| e_ident := sub bs 0 16;
         e_type := field bs 16 2; e_machine := field bs 18 2;
         e_version := field bs 20 4; e_entry := field bs 24 4;
         e_phoff := field bs 28 4; e_shoff := field bs 32 4;
         e_flags := field bs 36 4; e_ehsize := field bs 40 2;
         e_phentsize := field bs 42 2; e_phnum := field bs 44 2;
         e_shentsize := field bs 46 2; e_shnum := field bs 48 2;
         e_shstrndx := field bs 50 2 |}
  | ELF64 =>
      {| e_ident := sub bs 0 16;
         e_type := field bs 16 2; e_machine := field bs 18 2;
         e_version := field bs 20 4; e_entry := field bs 24 8;
         e_phoff := field bs 32 8; e_shoff := field bs 40 8;
         e_flags := field bs 48 4; e_ehsize := field bs 52 2;
         e_phentsize := field bs 54 2; e_phnum := field bs 56 2;
         e_shentsize := field bs 58 2; e_shnum := field bs 60 2;
         e_shstrndx := field bs 62 2 |}
  end.

Definition parse_Phdr (c : elf_class) (bs : list byte) : Elf_Phdr :=
  match c with
  | ELF32 =>
      {| p_type := field bs 0 4; p_offset := field bs 4 4;
         p_vaddr := field bs 8 4; p_paddr := field bs 12 4;
         p_filesz := field bs 16 4; p_memsz := field bs 20 4;
         p_flags := field bs 24 4; p_align := field bs 28 4 |}
  | ELF64 =>
      {| p_type := field bs 0 4; p_flags := field bs 4 4;
         p_offset := field bs 8 8; p_vaddr := field bs 16 8;
         p_paddr := field bs 24 8; p_filesz := field bs 32 8;
         p_memsz := field bs 40 8; p_align := field bs 48 8 |}
  end.

(** [programHeaders[i]] for [i] below [n], read out of the table buffer. *)
Definition table_entries (c : elf_class) (tbl : list byte) (n : Z)
  : list Elf_Phdr :=
  map (fun i : nat => parse_Phdr c (sub tbl (Z.of_nat i * sizeof_Phdr c)
                                         (sizeof_Phdr c)))
      (seq 0 (Z.to_nat n)).

(** ** The collaborators *)

Inductive FRESULT := FR_OK | FR_DISK_ERR | FR_NOT_READY | FR_NO_FILE.

Definition fr_ok (fr : FRESULT) : bool :=
  match fr with FR_OK => true | _ => false end.

(** The buffer an [f_read] fills: [&elfHeader], [programHeaders] or the
    chunk [buffer]. *)
Inductive read_buf := BufHeader | BufTable | BufChunk.

(** What the storage does on one [f_read]: deliver all that is asked (up
    to the end of the file), deliver at most [n] bytes, or fail. *)
Inductive reply := RdAll | RdAtMost (n : Z) | RdFail (fr : FRESULT).

Inductive event :=
| EvMount (fr : FRESULT)
| EvOpen (name : string) (fr : FRESULT)
| EvRead (dst : read_buf) (btr : Z) (fr : FRESULT) (br : Z)
| EvSeek (ofs : Z)
| EvClose
| EvMalloc (size : Z) (ok : bool)
| EvFree
| EvMemcpy (dst : Z) (data : list byte)
| EvFlush (adr : Z) (length : Z)
| EvMemset (dst : Z) (length : Z)
| EvBranch (target : Z)
| EvMmioRead (addr : Z)
| EvMmioWrite (addr : Z) (val : Z).

(** The device registers [apu_bootloader_sd.c] drives (its lines 36 to
    50: the scratch register, the reset control and the eight reset-vector
    registers), each four bytes wide. *)
Definition device_registers : list Z :=
  [0xFFD80048; 0xFD1A0104;
   0xFD5C0040; 0xFD5C0044; 0xFD5C0048; 0xFD5C004C;
   0xFD5C0050; 0xFD5C0054; 0xFD5C0058; 0xFD5C005C].

Record World := {
  (* the card and the driver *)
  sd_mount : FRESULT;                 (* what [f_mount] answers *)
  sd_files : gmap string (list byte); (* the files of volume 0: *)
  FF_FS_EXFAT : bool;                 (* [ffconf.h]: exFAT support *)
  rd_script : list reply;             (* answers of the coming [f_read]s *)
  heap_script : list bool;            (* whether the coming [malloc]s succeed *)
  stack_addr : Z;                     (* address of the handoff's local struct *)
  (* what of the address space is not free memory, as (base, size): where
     the loader itself lives (its code and data, its stack, its heap) and
     what is no writable memory at all *)
  occupied : list (Z * Z);
  (* the open file object *)
  file : list byte;
  fptr : Z;
  (* physical memory (of what the loader keeps in its own storage no
     account is taken) and registers *)
  mem : Z -> byte;
  regs : gmap Z Z;
  (* whether a copy or a fill has reached what is not free memory or a
     device register: from then on the program is no longer the one
     described here *)
  clobbered : bool;
  (* for each address handed to the hardware, the value written and the
     bytes, at that moment, of the object whose address it is ([None]:
     never assigned) *)
  published : list (Z * list (option byte));
  (* everything done so far, oldest first *)
  trace : list event
}.

Definition emit (e : event) (w : World) : World :=
  {| sd_mount := sd_mount w; sd_files := sd_files w;
     FF_FS_EXFAT := FF_FS_EXFAT w; rd_script := rd_script w;
     heap_script := heap_script w; stack_addr := stack_addr w;
     occupied := occupied w;
     file := file w; fptr := fptr w; mem := mem w; regs := regs w;
     clobbered := clobbered w; published := published w;
     trace := trace w ++ [e] |}.

Definition set_file (content : list byte) (pos : Z) (w : World) : World :=
  {| sd_mount := sd_mount w; sd_files := sd_files w;
     FF_FS_EXFAT := FF_FS_EXFAT w; rd_script := rd_script w;
     heap_script := heap_script w; stack_addr := stack_addr w;
     occupied := occupied w;
     file := content; fptr := pos; mem := mem w; regs := regs w;
     clobbered := clobbered w; published := published w;
     trace := trace w |}.

Definition set_rd_script (s : list reply) (w : World) : World :=
  {| sd_mount := sd_mount w; sd_files := sd_files w;
     FF_FS_EXFAT := FF_FS_EXFAT w; rd_script := s;
     heap_script := heap_script w; stack_addr := stack_addr w;
     occupied := occupied w;
     file := file w; fptr := fptr w; mem := mem w; regs := regs w;
     clobbered := clobbered w; published := published w;
     trace := trace w |}.

Definition set_heap_script (s : list bool) (w : World) : World :=
  {| sd_mount := sd_mount w; sd_files := sd_files w;
     FF_FS_EXFAT := FF_FS_EXFAT w; rd_script := rd_script w;
     heap_script := s; stack_addr := stack_addr w;
     occupied := occupied w;
     file := file w; fptr := fptr w; mem := mem w; regs := regs w;
     clobbered := clobbered w; published := published w;
     trace := trace w |}.

Definition set_mem (m : Z -> byte) (w : World) : World :=
  {| sd_mount := sd_mount w; sd_files := sd_files w;
     FF_FS_EXFAT := FF_FS_EXFAT w; rd_script := rd_script w;
     heap_script := heap_script w; stack_addr := stack_addr w;
     occupied := occupied w;
     file := file w; fptr := fptr w; mem := m; regs := regs w;
     clobbered := clobbered w; published := published w;
     trace := trace w |}.

Definition set_regs (r : gmap Z Z) (w : World) : World :=
  {| sd_mount := sd_mount w; sd_files := sd_files w;
     FF_FS_EXFAT := FF_FS_EXFAT w; rd_script := rd_script w;
     heap_script := heap_script w; stack_addr := stack_addr w;
     occupied := occupied w;
     file := file w; fptr := fptr w; mem := mem w; regs := r;
     clobbered := clobbered w; published := published w;
     trace := trace w |}.

Definition set_clobbered (b : bool) (w : World) : World :=
  {| sd_mount := sd_mount w; sd_files := sd_files w;
     FF_FS_EXFAT := FF_FS_EXFAT w; rd_script := rd_script w;
     heap_script := heap_script w; stack_addr := stack_addr w;
     occupied := occupied w;
     file := file w; fptr := fptr w; mem := mem w; regs := regs w;
     clobbered := b; published := published w;
     trace := trace w |}.

Definition set_published (p : list (Z * list (option byte))) (w : World)
  : World :=
  {| sd_mount := sd_mount w; sd_files := sd_files w;
     FF_FS_EXFAT := FF_FS_EXFAT w; rd_script := rd_script w;
     heap_script := heap_script w; stack_addr := stack_addr w;
     occupied := occupied w;
     file := file w; fptr := fptr w; mem := mem w; regs := regs w;
     clobbered := clobbered w; published := p;
     trace := trace w |}.

(** *** FatFs *)

Definition f_mount (w : World) : FRESULT * World :=
  (sd_mount w, emit (EvMount (sd_mount w)) w).

Definition f_open (name : string) (w : World) : FRESULT * World :=
  match sd_files w !! name with
  | Some content => (FR_OK, emit (EvOpen name FR_OK) (set_file content 0 w))
  | None => (FR_NO_FILE, emit (EvOpen name FR_NO_FILE) w)
  end.

Definition f_size (w : World) : Z := len (file w).

(** [FSIZE_t] is [QWORD] with exFAT support and [DWORD] without. *)
Definition FSIZE_bits (w : World) : Z := if FF_FS_EXFAT w then 64 else 32.

(** In read mode FatFs clips the target of a seek to the file size; the
    argument is first converted to [FSIZE_t]. *)
Definition f_lseek (ofs : Z) (w : World) : World :=
  emit (EvSeek ofs)
       (set_file (file w) (Z.min (wrap (FSIZE_bits w) ofs) (f_size w)) w).

(** [f_read(&file, buf, btr, &bytesRead)]: the status, the bytes put in
    the buffer ([bytesRead] is their number) and the new world. *)
Definition f_read (dst : read_buf) (btr : Z) (w : World)
  : FRESULT * list byte * World :=
  let r := match rd_script w with [] => RdAll | r :: _ => r end in
  let w1 := set_rd_script (tail (rd_script w)) w in
  match r with
  | RdFail fr => (fr, [], emit (EvRead dst btr fr 0) w1)
  | _ =>
      let n := match r with RdAtMost k => Z.min btr k | _ => btr end in
      let data := sub (file w) (fptr w) n in
      (FR_OK, data,
       emit (EvRead dst btr FR_OK (len data))
            (set_file (file w) (fptr w + len data) w1))
  end.

Definition f_close (w : World) : World := emit EvClose w.

(** *** The C library *)

(** [malloc]: whether the returned pointer is not [NULL]. *)
Definition malloc (size : Z) (w : World) : bool * World :=
  let ok := match heap_script w with [] => true | b :: _ => b end in
  (ok, emit (EvMalloc size ok) (set_heap_script (tail (heap_script w)) w)).

Definition free (w : World) : World := emit EvFree w.

(** Byte [i] of the source goes to address [dst + i], in pointer
    arithmetic of [pbits] bits. *)
Definition mem_write (pbits : Z) (m : Z -> byte) (dst : Z) (data : list byte)
  : Z -> byte :=
  fun a =>
    let k := wrap pbits (a - dst) in
    if k <? len data then default x00 (data !! Z.to_nat k) else m a.

Definition mem_fill (pbits : Z) (m : Z -> byte) (dst : Z) (n : Z) (b : byte)
  : Z -> byte :=
  fun a => if wrap pbits (a - dst) <? n then b else m a.

(** The physical address space is one: besides free memory it holds the
    loader itself and the device registers, and not all of it is writable
    memory.  What a write there does to the program (to the program-header
    table in the heap, to the locals on the stack, to the code), to the
    device or to the bus is not something the sources tell; such a write is
    recorded in [clobbered], and what is computed after it no longer
    describes the program.  [mem] and [regs] are accurate as long as
    [clobbered] is [false]. *)

(** The ranges that are not free memory. *)
Definition reserved (w : World) : list (Z * Z) :=
  occupied w ++ map (fun r => (r, 4)) device_registers.

(** [a, a + n) and [b, b + m) have an address in common. *)
Definition overlaps (a n b m : Z) : bool :=
  (0 <? n) && (0 <? m) && (a <? b + m) && (b <? a + n).

(** A write of [n] bytes from [dst], in pointer arithmetic of [pbits] bits
    (past the last address it goes on at address 0), reaches the range. *)
Definition hits (pbits dst n : Z) (range : Z * Z) : bool :=
  overlaps dst (Z.min n (2 ^ pbits - dst)) (fst range) (snd range)
  || overlaps 0 (dst + n - 2 ^ pbits) (fst range) (snd range).

Definition mark (pbits dst n : Z) (w : World) : World :=
  set_clobbered (clobbered w || existsb (hits pbits dst n) (reserved w)) w.

Definition memcpy (pbits : Z) (dst : Z) (data : list byte) (w : World)
  : World :=
  emit (EvMemcpy dst data)
       (mark pbits dst (len data)
             (set_mem (mem_write pbits (mem w) dst data) w)).

Definition memset (pbits : Z) (dst : Z) (n : Z) (w : World) : World :=
  emit (EvMemset dst n)
       (mark pbits dst n (set_mem (mem_fill pbits (mem w) dst n x00) w)).

(** *** Cache and registers *)

Definition Xil_DCacheFlushRange (adr length : Z) (w : World) : World :=
  emit (EvFlush adr length) w.

Definition mmio_write (addr val : Z) (w : World) : World :=
  emit (EvMmioWrite addr val) (set_regs (<[addr := val]> (regs w)) w).

Definition mmio_read (addr : Z) (w : World) : Z * World :=
  (default 0 (regs w !! addr), emit (EvMmioRead addr) w).

(** ** The loader: what [load_elf32] and [load_elf64] share *)

(** The exits of a load, named after the message each one prints.
    [FuelExhausted] is not an exit of the program: it marks a chunk loop
    that was given too little fuel, and [load_image] never returns it
    (lemma [load_image_terminates]). *)
Inductive error :=
| MountFailure              (* "Failed to mount SD card." *)
| OpenFailure               (* "Failed to open file" *)
| ShortRead                 (* "Failed to read ELF header" *)
| BadMagic                  (* "File is not a valid ELF file" *)
| InvalidProgramHeaderOffset(* "Invalid program header offset." *)
| AllocationFailure         (* "Memory allocation for program headers failed." *)
| TruncatedTable            (* "Failed to read program headers" *)
| SegmentOutOfBounds        (* "Invalid segment offset for program header" *)
| ShortSegmentRead          (* "Error reading segment data" *)
| FuelExhausted.

Inductive result (A : Type) :=
| Ok (a : A)
| Err (e : error).
Arguments Ok {A} a.
Arguments Err {A} e.

Definition CHUNK_SIZE : Z := 4096.

(** Pointer arithmetic of the core that runs the loader of class [c]. *)
Definition ptr_add (c : elf_class) (p n : Z) : Z := wrap (bits c) (p + n).

(** The [while (bytesToRead > 0)] loop.  Every turn that does not leave
    the function consumes at least one byte of the file, so the length of
    the file plus one is fuel enough. *)
Fixpoint copy_loop (c : elf_class) (segmentMemory : Z) (fuel : nat)
    (bytesLoaded bytesToRead : Z) (w : World) : result Z * World :=
  if bytesToRead >? 0 then
    match fuel with
    | O => (Err FuelExhausted, w)
    | S fuel' =>
        let chunkSize :=
          if bytesToRead >? CHUNK_SIZE then CHUNK_SIZE else bytesToRead in
        let '(fr, buffer, w1) := f_read BufChunk chunkSize w in
        let bytesRead := len buffer in
        if negb (fr_ok fr) || (bytesRead =? 0) then
          (Err ShortSegmentRead, f_close (free w1))
        else
          let w2 := memcpy (bits c) (ptr_add c segmentMemory bytesLoaded)
                           buffer w1 in
          let bytesLoaded' := wrap (bits c) (bytesLoaded + bytesRead) in
          let bytesToRead' := wrap (bits c) (bytesToRead - bytesRead) in
          let w3 :=
            Xil_DCacheFlushRange
              (wrap 32 (ptr_add c (ptr_add c segmentMemory bytesLoaded')
                                (- bytesRead)))
              bytesRead w2 in
          copy_loop c segmentMemory fuel' bytesLoaded' bytesToRead' w3
    end
  else (Ok bytesLoaded, w).

(** One turn of the [for] loop over the program headers. *)
Definition load_segment (c : elf_class) (programHeader : Elf_Phdr)
    (w : World) : result unit * World :=
  if wrap (bits c) (p_offset programHeader + p_filesz programHeader)
     >? f_size w then
    (Err SegmentOutOfBounds, f_close (free w))
  else
    let w1 := f_lseek (p_offset programHeader) w in
    let segmentMemory := p_vaddr programHeader in
    match copy_loop c segmentMemory (S (length (file w1))) 0
                    (p_filesz programHeader) w1 with
    | (Ok bytesLoaded, w2) =>
        if p_memsz programHeader >? p_filesz programHeader then
          (Ok (), memset (bits c) (ptr_add c segmentMemory bytesLoaded)
                         (p_memsz programHeader - p_filesz programHeader) w2)
        else (Ok (), w2)
    | (Err e, w2) => (Err e, w2)
    end.

Fixpoint load_segments (c : elf_class) (programHeaders : list Elf_Phdr)
    (w : World) : result unit * World :=
  match programHeaders with
  | [] => (Ok (), w)
  | programHeader :: rest =>
      match load_segment c programHeader w with
      | (Ok _, w1) => load_segments c rest w1
      | (Err e, w1) => (Err e, w1)
      end
  end.

Definition magic_ok (h : Elf_Ehdr) : bool :=
  match e_ident h with
  | b0 :: b1 :: b2 :: b3 :: _ =>
      Byte.eqb b0 ELFMAG0 && Byte.eqb b1 ELFMAG1
      && Byte.eqb b2 ELFMAG2 && Byte.eqb b3 ELFMAG3
  | _ => false
  end.

(** From the mount to the [f_close] that follows "All segments loaded
    successfully."; the result is [elfHeader]. *)
Definition load_image (c : elf_class) (file_name : string) (w : World)
  : result Elf_Ehdr * World :=
  let '(fr, w) := f_mount w in
  if negb (fr_ok fr) then (Err MountFailure, w) else
  let '(fr, w) := f_open file_name w in
  if negb (fr_ok fr) then (Err OpenFailure, w) else
  let '(fr, hbuf, w) := f_read BufHeader (sizeof_Ehdr c) w in
  if negb (fr_ok fr) || negb (len hbuf =? sizeof_Ehdr c) then
    (Err ShortRead, f_close w) else
  let elfHeader := parse_Ehdr c hbuf in
  if negb (magic_ok elfHeader) then (Err BadMagic, f_close w) else
  if e_phoff elfHeader >=? f_size w then
    (Err InvalidProgramHeaderOffset, f_close w) else
  let '(allocated, w) := malloc (e_phnum elfHeader * sizeof_Phdr c) w in
  if negb allocated then (Err AllocationFailure, f_close w) else
  let w := f_lseek (e_phoff elfHeader) w in
  let '(fr, tbl, w) :=
    f_read BufTable (e_phnum elfHeader * sizeof_Phdr c) w in
  if negb (fr_ok fr)
     || negb (len tbl =? e_phnum elfHeader * sizeof_Phdr c) then
    (Err TruncatedTable, f_close (free w)) else
  match load_segments c (table_entries c tbl (e_phnum elfHeader)) w with
  | (Err e, w) => (Err e, w)
  | (Ok _, w) => (Ok elfHeader, f_close (free w))
  end.

(** [uint8_t load_elf32(const char *file_name)]: the value returned.  The
    [blx] to the entry point is the [EvBranch]; what follows it is the code
    after the branch, reached only if the loaded program returns. *)
Definition load_elf32 (file_name : string) (w : World) : Z * World :=
  match load_image ELF32 file_name w with
  | (Err _, w1) => (wrap 8 (-1), w1)
  | (Ok elfHeader, w1) =>
      let entry_point := wrap 32 (e_entry elfHeader) in
      (0, emit (EvBranch entry_point) w1)
  end.

(** [uint64_t load_elf64(const char *file_name)]: the value returned. *)
Definition load_elf64 (file_name : string) (w : World) : Z * World :=
  match load_image ELF64 file_name w with
  | (Err _, w1) => (wrap 64 (-1), w1)
  | (Ok elfHeader, w1) =>
      let entry_point := wrap 32 (e_entry elfHeader) in
      (wrap 64 entry_point, w1)
  end.

Module Rpu.

Definition main (w : World) : Z * World :=
  let '(_, w) := load_elf32 "vxWorks.elf" w in
  (0, w).

End Rpu.

(** ** The multi-core handoff of the APU loader *)

Module Apu.

Definition MAX_ENTRIES : Z := 10.
Definition GLOBAL_GEN_STORAGE6 : Z := 0xFFD80048.

Definition RVBARADDR0L : Z := 0xFD5C0040.
Definition RVBARADDR0H : Z := 0xFD5C0044.
Definition RVBARADDR1L : Z := 0xFD5C0048.
Definition RVBARADDR1H : Z := 0xFD5C004C.
Definition RVBARADDR2L : Z := 0xFD5C0050.
Definition RVBARADDR2H : Z := 0xFD5C0054.
Definition RVBARADDR3L : Z := 0xFD5C0058.
Definition RVBARADDR3H : Z := 0xFD5C005C.
Definition RVBARADDR_LOW_VALU : Z := 0x0.

Definition RST_FPD_APU : Z := 0xFD1A0104.
Definition RST_FPD_APU_VALU : Z := 0xF.
Definition RST_FPD_APU_CLER : Z := 0x0.

Definition reset_apu_cores (value : Z) (w : World) : World :=
  mmio_write RST_FPD_APU (wrap 32 value) w.

Definition set_apu_rvba (entrypoint : Z) (w : World) : World :=
  let w := mmio_write RVBARADDR0L (wrap 32 RVBARADDR_LOW_VALU) w in
  let w := mmio_write RVBARADDR1L (wrap 32 RVBARADDR_LOW_VALU) w in
  let w := mmio_write RVBARADDR2L (wrap 32 RVBARADDR_LOW_VALU) w in
  let w := mmio_write RVBARADDR3L (wrap 32 RVBARADDR_LOW_VALU) w in
  let w := mmio_write RVBARADDR0H (wrap 32 entrypoint) w in
  let w := mmio_write RVBARADDR1H (wrap 32 entrypoint) w in
  let w := mmio_write RVBARADDR2H (wrap 32 entrypoint) w in
  mmio_write RVBARADDR3H (wrap 32 entrypoint) w.

(** A member of a local struct holds [None] until it is assigned. *)
Record ATFHandoffEntry := {
  EntryPoint : option Z;
  PartitionFlags : option Z
}.

Record ATFHandoffParamsStruct := {
  MagicValue : list (option byte);
  NumEntries : option Z;
  Entry : list ATFHandoffEntry
}.

(** [ATFHandoffParamsStruct ATFHandoffParams;] without an initialiser. *)
Definition ATFHandoffParams_fresh : ATFHandoffParamsStruct :=
  {| MagicValue := replicate 4 None;
     NumEntries := None;
     Entry := replicate (Z.to_nat MAX_ENTRIES)
                {| EntryPoint := None; PartitionFlags := None |} |}.

Definition set_MagicValue (i : nat) (b : byte) (s : ATFHandoffParamsStruct)
  : ATFHandoffParamsStruct :=
  {| MagicValue := <[i := Some b]> (MagicValue s);
     NumEntries := NumEntries s; Entry := Entry s |}.

Definition set_NumEntries (n : Z) (s : ATFHandoffParamsStruct)
  : ATFHandoffParamsStruct :=
  {| MagicValue := MagicValue s; NumEntries := Some n; Entry := Entry s |}.

Definition set_Entry (i : nat) (f : ATFHandoffEntry -> ATFHandoffEntry)
    (s : ATFHandoffParamsStruct) : ATFHandoffParamsStruct :=
  {| MagicValue := MagicValue s; NumEntries := NumEntries s;
     Entry := alter f i (Entry s) |}.

(** The bytes of the struct in memory, as the compiler of the Cortex-A53
    lays it out ([uintptr_t] is 8 bytes, [ATFHandoffEntry] is padded to
    16); [None] where nothing has been assigned. *)
Definition member (size : nat) (v : option Z) : list (option byte) :=
  match v with
  | Some z => map Some (le_encode size z)
  | None => replicate size None
  end.

Definition layout_Entry (e : ATFHandoffEntry) : list (option byte) :=
  member 8 (EntryPoint e) ++ member 4 (PartitionFlags e)
  ++ replicate 4 None.

Definition layout (s : ATFHandoffParamsStruct) : list (option byte) :=
  MagicValue s ++ member 4 (NumEntries s)
  ++ concat (map layout_Entry (Entry s)).

(** The address of an object is about to be handed to the hardware: the
    value written and the object as it is at this moment. *)
Definition publish (addr : Z) (object : list (option byte)) (w : World)
  : World :=
  set_published (published w ++ [(addr, object)]) w.

(** The struct as it stands when the function returns, and the world after
    the address of the local has been written to the register. *)
Definition mock_fsbl_SetATFHandoffParams
    (EntryCount PartitionHeader PartitionFlags' : Z) (w : World)
  : ATFHandoffParamsStruct * World :=
  let ATFHandoffParams := ATFHandoffParams_fresh in
  let ATFHandoffParams :=
    if EntryCount =? 0 then
      set_MagicValue 3 x58
        (set_MagicValue 2 x4e
           (set_MagicValue 1 x4c
              (set_MagicValue 0 x58 ATFHandoffParams)))
    else ATFHandoffParams in
  let ATFHandoffParams :=
    set_NumEntries (wrap 32 (EntryCount + 1)) ATFHandoffParams in
  let ATFHandoffParams :=
    if EntryCount <? MAX_ENTRIES then
      set_Entry (Z.to_nat EntryCount)
        (fun e => {| EntryPoint := EntryPoint e;
                     PartitionFlags := Some PartitionFlags' |})
        (set_Entry (Z.to_nat EntryCount)
           (fun e => {| EntryPoint := Some PartitionHeader;
                        PartitionFlags := PartitionFlags e |})
           ATFHandoffParams)
    else ATFHandoffParams in
  (ATFHandoffParams,
   mmio_write GLOBAL_GEN_STORAGE6 (wrap 32 (stack_addr w))
     (publish (wrap 32 (stack_addr w)) (layout ATFHandoffParams) w)).

(** [main] up to the final [while(1)]; the busy wait of [delay_ms] and
    the console output leave the world as it is. *)
Definition main (w : World) : World :=
  let '(r, w) := load_elf64 "bl31.elf" w in
  let bl31_entrypoint := wrap 32 r in
  let '(_, w) := load_elf64 "u-boot.elf" w in
  let '(_, w) := mock_fsbl_SetATFHandoffParams 0 bl31_entrypoint 0 w in
  let w := reset_apu_cores RST_FPD_APU_VALU w in
  let '(_, w) := mmio_read RVBARADDR0H w in
  let '(_, w) := mmio_read RVBARADDR1H w in
  let '(_, w) := mmio_read RVBARADDR2H w in
  let '(_, w) := mmio_read RVBARADDR3H w in
  let w := set_apu_rvba bl31_entrypoint w in
  let '(_, w) := mmio_read RVBARADDR0H w in
  let '(_, w) := mmio_read RVBARADDR1H w in
  let '(_, w) := mmio_read RVBARADDR2H w in
  let '(_, w) := mmio_read RVBARADDR3H w in
  reset_apu_cores RST_FPD_APU_CLER w.

End Apu.

(** ** Images and worlds to run the loaders on *)

Definition ehdr32_bytes (entry phoff phnum : Z) : list byte :=
  [x7f; x45; x4c; x46; x01; x01; x01; x00] ++ replicate 8 x00
  ++ le_encode 2 2 ++ le_encode 2 40 ++ le_encode 4 1
  ++ le_encode 4 entry ++ le_encode 4 phoff ++ le_encode 4 0
  ++ le_encode 4 0 ++ le_encode 2 52 ++ le_encode 2 32
  ++ le_encode 2 phnum ++ le_encode 2 0 ++ le_encode 2 0 ++ le_encode 2 0.

Definition phdr32_bytes (type offset vaddr filesz memsz : Z) : list byte :=
  le_encode 4 type ++ le_encode 4 offset ++ le_encode 4 vaddr
  ++ le_encode 4 vaddr ++ le_encode 4 filesz ++ le_encode 4 memsz
  ++ le_encode 4 7 ++ le_encode 4 4.

Definition ehdr64_bytes (entry phoff phnum : Z) : list byte :=
  [x7f; x45; x4c; x46; x02; x01; x01; x00] ++ replicate 8 x00
  ++ le_encode 2 2 ++ le_encode 2 183 ++ le_encode 4 1
  ++ le_encode 8 entry ++ le_encode 8 phoff ++ le_encode 8 0
  ++ le_encode 4 0 ++ le_encode 2 64 ++ le_encode 2 56
  ++ le_encode 2 phnum ++ le_encode 2 0 ++ le_encode 2 0 ++ le_encode 2 0.

Definition phdr64_bytes (type offset vaddr filesz memsz : Z) : list byte :=
  le_encode 4 type ++ le_encode 4 7 ++ le_encode 8 offset
  ++ le_encode 8 vaddr ++ le_encode 8 vaddr ++ le_encode 8 filesz
  ++ le_encode 8 memsz ++ le_encode 8 4.

(** A card with the given files, a driver without exFAT support, no
    storage or allocation fault, memory full of [0xFF]; the loader runs
    from the on-chip memory, the 256 KiB from [0xFFFC0000]. *)
Definition world_of (files : gmap string (list byte)) : World :=
  {| sd_mount := FR_OK; sd_files := files; FF_FS_EXFAT := false;
     rd_script := []; heap_script := []; stack_addr := 0xFFFC0000;
     occupied := [(0xFFFC0000, 0x40000)];
     file := []; fptr := 0; mem := fun _ => xff; regs := ∅;
     clobbered := false; published := []; trace := [] |}.

(** One segment: 8 bytes of file at [0x54], 16 bytes of memory at [0x1000]. *)
Definition image32_small : list byte :=
  ehdr32_bytes 0x1000 52 1 ++ phdr32_bytes PT_LOAD 84 0x1000 8 16
  ++ [x01; x02; x03; x04; x05; x06; x07; x08].

(** ** Reading the list of operations *)

(** The operations that end a load that fails inside the segment loop. *)
Definition exit_tail (e : error) (tl : list event) : Prop :=
  match e with
  | SegmentOutOfBounds => tl = [EvFree; EvClose]
  | ShortSegmentRead =>
      exists btr fr br,
        (fr_ok fr = false \/ br = 0)
        /\ tl = [EvRead BufChunk btr fr br; EvFree; EvClose]
  | FuelExhausted => tl = []
  | _ => False
  end.

(** What a load leaves as it is: the card, the driver configuration, where
    the loader lives, what has been published, and the registers (a copy or
    a fill that lands on a register does not update [regs]: it sets
    [clobbered]). *)
Definition same_board (w w' : World) : Prop :=
  sd_mount w' = sd_mount w /\ sd_files w' = sd_files w
  /\ FF_FS_EXFAT w' = FF_FS_EXFAT w /\ stack_addr w' = stack_addr w
  /\ regs w' = regs w /\ occupied w' = occupied w
  /\ published w' = published w.

(** The operations of the segment loop that do not leave the function,
    in the order the loop performs them: a chunk read that delivered
    something is followed by the copy of what it delivered and by the flush
    of as many bytes at the destination of the copy (the address of the
    flush is converted to [uint32_t]). *)
Inductive segment_body : list event -> Prop :=
| sb_nil : segment_body []
| sb_seek ofs b : segment_body b -> segment_body (EvSeek ofs :: b)
| sb_chunk btr dst data b :
    0 < len data -> segment_body b ->
    segment_body (EvRead BufChunk btr FR_OK (len data)
                  :: EvMemcpy dst data
                  :: EvFlush (wrap 32 dst) (len data) :: b)
| sb_fill dst n b : segment_body b -> segment_body (EvMemset dst n :: b).

(** [w'] comes from [w] by operations of the segment loop. *)
Definition segment_run {A} (r : result A) (w w' : World) : Prop :=
  exists body tl,
    trace w' = trace w ++ body ++ tl
    /\ segment_body body
    /\ match r with Ok _ => tl = [] | Err e => exit_tail e tl end.

(** The file and the allocation as the operations leave them: [Some
    (opened, allocated)], or [None] after a close of a file that is not
    open, a second open, a free of what is not allocated or a second
    allocation. *)
Definition resource_step (st : option (bool * bool)) (e : event)
  : option (bool * bool) :=
  match st with
  | None => None
  | Some (opened, allocated) =>
      match e with
      | EvOpen _ FR_OK => if opened then None else Some (true, allocated)
      | EvClose => if opened then Some (false, allocated) else None
      | EvMalloc _ true =>
          if allocated then None else Some (opened, true)
      | EvFree => if allocated then Some (opened, false) else None
      | EvRead _ _ _ _ | EvSeek _ => if opened then st else None
      | _ => st
      end
  end.

Definition resources (st : option (bool * bool)) (tr : list event)
  : option (bool * bool) :=
  fold_left resource_step tr st.

(** The operations of a load that reaches the segment loop, up to it. *)
Definition table_prefix (c : elf_class) (name : string) (h : Elf_Ehdr)
  : list event :=
  [EvMount FR_OK; EvOpen name FR_OK;
   EvRead BufHeader (sizeof_Ehdr c) FR_OK (sizeof_Ehdr c);
   EvMalloc (e_phnum h * sizeof_Phdr c) true;
   EvSeek (e_phoff h);
   EvRead BufTable (e_phnum h * sizeof_Phdr c) FR_OK
          (e_phnum h * sizeof_Phdr c)].

(** The operations of one load, exit by exit. *)
Inductive image_trace (c : elf_class) (name : string)
  : result Elf_Ehdr -> list event -> Prop :=
| it_mount fr :
    fr_ok fr = false ->
    image_trace c name (Err MountFailure) [EvMount fr]
| it_open fr :
    fr_ok fr = false ->
    image_trace c name (Err OpenFailure) [EvMount FR_OK; EvOpen name fr]
| it_short fr br :
    fr_ok fr = false \/ br <> sizeof_Ehdr c ->
    image_trace c name (Err ShortRead)
      [EvMount FR_OK; EvOpen name FR_OK;
       EvRead BufHeader (sizeof_Ehdr c) fr br; EvClose]
| it_header e :
    e = BadMagic \/ e = InvalidProgramHeaderOffset ->
    image_trace c name (Err e)
      [EvMount FR_OK; EvOpen name FR_OK;
       EvRead BufHeader (sizeof_Ehdr c) FR_OK (sizeof_Ehdr c); EvClose]
| it_alloc size :
    image_trace c name (Err AllocationFailure)
      [EvMount FR_OK; EvOpen name FR_OK;
       EvRead BufHeader (sizeof_Ehdr c) FR_OK (sizeof_Ehdr c);
       EvMalloc size false; EvClose]
| it_table size ofs fr br :
    fr_ok fr = false \/ br <> size ->
    image_trace c name (Err TruncatedTable)
      [EvMount FR_OK; EvOpen name FR_OK;
       EvRead BufHeader (sizeof_Ehdr c) FR_OK (sizeof_Ehdr c);
       EvMalloc size true; EvSeek ofs; EvRead BufTable size fr br;
       EvFree; EvClose]
| it_segment h e body tl :
    segment_body body ->
    exit_tail e tl -> e <> FuelExhausted ->
    image_trace c name (Err e) (table_prefix c name h ++ body ++ tl)
| it_loaded h body :
    segment_body body ->
    image_trace c name (Ok h)
      (table_prefix c name h ++ body ++ [EvFree; EvClose]).

(** The stages of the pipeline, in order. *)
Inductive stage :=
| StorageAccess
| HeaderValidator
| ProgramHeaderLoader
| SegmentMaterializer
| EntryPointResolver
| MultiCoreHandoff.

Definition stage_rank (s : stage) : nat :=
  match s with
  | StorageAccess => 0
  | HeaderValidator => 1
  | ProgramHeaderLoader => 2
  | SegmentMaterializer => 3
  | EntryPointResolver => 4
  | MultiCoreHandoff => 5
  end.

(** The stage an exit belongs to. *)
Definition error_stage (e : error) : stage :=
  match e with
  | MountFailure | OpenFailure => StorageAccess
  | ShortRead | BadMagic | InvalidProgramHeaderOffset => HeaderValidator
  | AllocationFailure | TruncatedTable => ProgramHeaderLoader
  | SegmentOutOfBounds | ShortSegmentRead | FuelExhausted =>
      SegmentMaterializer
  end.

(** The first stage that performs an operation of that kind; the close and
    the free are the cleanup of every exit and belong to no stage. *)
Definition event_stage (e : event) : option stage :=
  match e with
  | EvMount _ | EvOpen _ _ => Some StorageAccess
  | EvRead BufHeader _ _ _ => Some HeaderValidator
  | EvMalloc _ _ | EvSeek _ | EvRead BufTable _ _ _ =>
      Some ProgramHeaderLoader
  | EvRead BufChunk _ _ _ | EvMemcpy _ _ | EvFlush _ _ | EvMemset _ _ =>
      Some SegmentMaterializer
  | EvBranch _ => Some EntryPointResolver
  | EvMmioRead _ | EvMmioWrite _ _ => Some MultiCoreHandoff
  | EvClose | EvFree => None
  end.

(** An operation that is cleanup or belongs to a stage not after [s]. *)
Definition within_stage (s : stage) (e : event) : bool :=
  match event_stage e with
  | None => true
  | Some s' => (stage_rank s' <=? stage_rank s)%nat
  end.

(** One segment that claims 100 bytes of file where 8 remain. *)
Definition image32_beyond : list byte :=
  ehdr32_bytes 0x1000 52 1 ++ phdr32_bytes PT_LOAD 84 0x1000 100 100
  ++ [x01; x02; x03; x04; x05; x06; x07; x08].

Definition card32 (image : list byte) : World :=
  world_of {[ "vxWorks.elf"%string := image ]}.

Definition card64 (bl31 uboot : list byte) : World :=
  world_of {[ "bl31.elf"%string := bl31; "u-boot.elf"%string := uboot ]}.

(** A card without the expected files. *)
Definition card_empty : World := world_of ∅.

(** ** Reading the register writes of the handoff *)

Definition rvbar_registers : list Z :=
  [Apu.RVBARADDR0L; Apu.RVBARADDR0H; Apu.RVBARADDR1L; Apu.RVBARADDR1H;
   Apu.RVBARADDR2L; Apu.RVBARADDR2H; Apu.RVBARADDR3L; Apu.RVBARADDR3H].

Definition reset_step (st : option Z) (e : event) : option Z :=
  match e with
  | EvMmioWrite a v => if a =? Apu.RST_FPD_APU then Some v else st
  | _ => st
  end.

(** The value last written to the reset-control register, if any. *)
Definition reset_level (tr : list event) : option Z :=
  fold_left reset_step tr None.

(** What [main] does after the two loads, given the address of the
    descriptor and the entry point. *)
Definition handoff_events (descriptor entrypoint : Z) : list event :=
  [EvMmioWrite Apu.GLOBAL_GEN_STORAGE6 descriptor;
   EvMmioWrite Apu.RST_FPD_APU Apu.RST_FPD_APU_VALU;
   EvMmioRead Apu.RVBARADDR0H; EvMmioRead Apu.RVBARADDR1H;
   EvMmioRead Apu.RVBARADDR2H; EvMmioRead Apu.RVBARADDR3H;
   EvMmioWrite Apu.RVBARADDR0L Apu.RVBARADDR_LOW_VALU;
   EvMmioWrite Apu.RVBARADDR1L Apu.RVBARADDR_LOW_VALU;
   EvMmioWrite Apu.RVBARADDR2L Apu.RVBARADDR_LOW_VALU;
   EvMmioWrite Apu.RVBARADDR3L Apu.RVBARADDR_LOW_VALU;
   EvMmioWrite Apu.RVBARADDR0H entrypoint;
   EvMmioWrite Apu.RVBARADDR1H entrypoint;
   EvMmioWrite Apu.RVBARADDR2H entrypoint;
   EvMmioWrite Apu.RVBARADDR3H entrypoint;
   EvMmioRead Apu.RVBARADDR0H; EvMmioRead Apu.RVBARADDR1H;
   EvMmioRead Apu.RVBARADDR2H; EvMmioRead Apu.RVBARADDR3H;
   EvMmioWrite Apu.RST_FPD_APU Apu.RST_FPD_APU_CLER].

(** The same program header with another segment type. *)
Definition retype (t : Z) (ph : Elf_Phdr) : Elf_Phdr :=
  {| p_type := t; p_offset := p_offset ph; p_vaddr := p_vaddr ph;
     p_paddr := p_paddr ph; p_filesz := p_filesz ph; p_memsz := p_memsz ph;
     p_flags := p_flags ph; p_align := p_align ph |}.

(** A [PT_NOTE] entry with 8 bytes of file, and one that claims 100. *)
Definition image32_note : list byte :=
  ehdr32_bytes 0x1000 52 1 ++ phdr32_bytes PT_NOTE 84 0x2000 8 8
  ++ [x01; x02; x03; x04; x05; x06; x07; x08].

Definition image32_note_beyond : list byte :=
  ehdr32_bytes 0x1000 52 1 ++ phdr32_bytes PT_NOTE 84 0x2000 100 100
  ++ [x01; x02; x03; x04; x05; x06; x07; x08].

(** A 64-bit image placed and entered above 4 GiB. *)
Definition image64_high : list byte :=
  ehdr64_bytes 0x100001000 64 1
  ++ phdr64_bytes PT_LOAD 120 0x100001000 4 4
  ++ [x01; x02; x03; x04].

(** One segment of 4100 bytes: two chunks, of 4096 and of 4 bytes. *)
Definition image32_two_chunks : list byte :=
  ehdr32_bytes 0x1000 52 1 ++ phdr32_bytes PT_LOAD 84 0x1000 4100 4100
  ++ replicate 4100 x2a.

(** A storage that delivers the header and the table in full and then
    [n] bytes at most on the first chunk read. *)
Definition short_first_chunk (n : Z) (w : World) : World :=
  set_rd_script [RdAll; RdAll; RdAtMost n] w.

(** A storage that delivers the header and the table and then fails. *)
Definition failing_first_chunk (fr : FRESULT) (w : World) : World :=
  set_rd_script [RdAll; RdAll; RdFail fr] w.

(** One segment at [0x54] whose [p_filesz] is [0xFFFFFFF0], in a file of
    100 bytes: [p_offset + p_filesz] is [0x100000044], and [0x44] in
    [uint32_t]. *)
Definition image32_wrapping : list byte :=
  ehdr32_bytes 0x1000 52 1
  ++ phdr32_bytes PT_LOAD 84 0x1000 0xFFFFFFF0 0xFFFFFFF0
  ++ replicate 16 x2a.

(** The same in 64 bits: [p_offset + p_filesz] is [2^64 + 0x78]. *)
Definition image64_wrapping : list byte :=
  ehdr64_bytes 0x1000 64 1
  ++ phdr64_bytes PT_LOAD 120 0x1000 0xFFFFFFFFFFFFFFF0 0xFFFFFFFFFFFFFFF0
  ++ replicate 16 x2a.

(** ** Reading the memory after a load *)

(** The addresses the loop writes for an entry. *)
Definition written (ph : Elf_Phdr) (a : Z) : Prop :=
  p_vaddr ph <= a < p_vaddr ph + Z.max (p_filesz ph) (p_memsz ph).

Definition disjoint_destinations (ph ph' : Elf_Phdr) : Prop :=
  p_vaddr ph + Z.max (p_filesz ph) (p_memsz ph) <= p_vaddr ph'
  \/ p_vaddr ph' + Z.max (p_filesz ph') (p_memsz ph') <= p_vaddr ph.

(** The destination of [ph] holds the [p_filesz] bytes of the file from
    [p_offset], followed by zeros up to [p_memsz]. *)
Definition segment_loaded (content : list byte) (m : Z -> byte)
    (ph : Elf_Phdr) : Prop :=
  (forall k, 0 <= k < p_filesz ph ->
             content !! Z.to_nat (p_offset ph + k)
             = Some (m (p_vaddr ph + k)))
  /\ (forall k, p_filesz ph <= k < p_memsz ph ->
                m (p_vaddr ph + k) = x00).

(** The fields of an entry are those of an unsigned type of the class. *)
Definition phdr_in_range (c : elf_class) (ph : Elf_Phdr) : Prop :=
  0 <= p_offset ph < 2 ^ bits c /\ 0 <= p_vaddr ph < 2 ^ bits c
  /\ 0 <= p_filesz ph < 2 ^ bits c /\ 0 <= p_memsz ph < 2 ^ bits c.

(** The extent of the entry is inside a file of [fsize] bytes and its
    destination inside the address space. *)
Definition phdr_fits (c : elf_class) (fsize : Z) (ph : Elf_Phdr) : Prop :=
  p_offset ph + p_filesz ph <= fsize
  /\ p_vaddr ph + Z.max (p_filesz ph) (p_memsz ph) <= 2 ^ bits c.

(** No storage fault and no allocation failure to come. *)
Definition faultless (w : World) : Prop :=
  Forall (eq RdAll) (rd_script w) /\ Forall (eq true) (heap_script w).

(** The header and the program headers an image holds. *)
Definition image_header (c : elf_class) (content : list byte) : Elf_Ehdr :=
  parse_Ehdr c (sub content 0 (sizeof_Ehdr c)).

Definition image_segments (c : elf_class) (content : list byte)
  : list Elf_Phdr :=
  let h := image_header c content in
  table_entries c (sub content (e_phoff h) (e_phnum h * sizeof_Phdr c))
                (e_phnum h).

(** ** Tactics *)

(** Closes a goal about what a step leaves unchanged. *)
Ltac frame :=
  unfold same_board in *; simpl in *;
  repeat match goal with
         | H : _ /\ _ |- _ => destruct H
         | |- _ /\ _ => split
         end;
  congruence.

(** All the positions of an operation in an explicit list of operations. *)
Ltac list_positions H pre :=
  repeat (destruct pre as [|? pre];
          [ simpl in H; inversion H; subst; clear H
          | simpl in H; injection H as ? H; subst ]);
  try (destruct pre; discriminate).

(** ** Destinations *)

(** The destination of the entry does not wrap around the address space. *)
Definition destination_fits (c : elf_class) (ph : Elf_Phdr) : Prop :=
  p_vaddr ph + Z.max (p_filesz ph) (p_memsz ph) <= 2 ^ bits c.

(** ** The stages of a load, one by one *)

(** [load_image] from the allocation of the table on, given the header. *)
Definition table_stage (c : elf_class) (elfHeader : Elf_Ehdr) (w : World)
  : result Elf_Ehdr * World :=
  let '(allocated, w) := malloc (e_phnum elfHeader * sizeof_Phdr c) w in
  if negb allocated then (Err AllocationFailure, f_close w) else
  let w := f_lseek (e_phoff elfHeader) w in
  let '(fr, tbl, w) :=
    f_read BufTable (e_phnum elfHeader * sizeof_Phdr c) w in
  if negb (fr_ok fr)
     || negb (len tbl =? e_phnum elfHeader * sizeof_Phdr c) then
    (Err TruncatedTable, f_close (free w)) else
  match load_segments c (table_entries c tbl (e_phnum elfHeader)) w with
  | (Err e, w) => (Err e, w)
  | (Ok _, w) => (Ok elfHeader, f_close (free w))
  end.

(** [load_image] from the read of the header on, once the file is open. *)
Definition header_stage (c : elf_class) (w : World)
  : result Elf_Ehdr * World :=
  let '(fr, hbuf, w) := f_read BufHeader (sizeof_Ehdr c) w in
  if negb (fr_ok fr) || negb (len hbuf =? sizeof_Ehdr c) then
    (Err ShortRead, f_close w) else
  let elfHeader := parse_Ehdr c hbuf in
  if negb (magic_ok elfHeader) then (Err BadMagic, f_close w) else
  if e_phoff elfHeader >=? f_size w then
    (Err InvalidProgramHeaderOffset, f_close w) else
  table_stage c elfHeader w.

(** The world with the file open at its start. *)
Definition opened (file_name : string) (content : list byte) (w : World)
  : World :=
  emit (EvOpen file_name FR_OK)
       (set_file content 0 (emit (EvMount FR_OK) w)).

(** The first answer of the storage is to deliver all that is asked. *)
Definition first_read_complete (w : World) : Prop :=
  match rd_script w with [] => True | r :: _ => r = RdAll end.

(** The world after the header has been read in full. *)
Definition header_read (c : elf_class) (file_name : string)
    (content : list byte) (w : World) : World :=
  snd (f_read BufHeader (sizeof_Ehdr c) (opened file_name content w)).

(** The four bytes of the ELF signature. *)
Definition ELFMAG : list byte := [ELFMAG0; ELFMAG1; ELFMAG2; ELFMAG3].




(** An allocator that fails at once. *)
Definition failing_malloc (w : World) : World := set_heap_script [false] w.

(** ** The scratch buffer *)

(** A chunk read asks for at least one byte and at most [CHUNK_SIZE], the
    size of the scratch [buffer], and returns no more than it asks for; a
    copy moves at least one byte and at most [CHUNK_SIZE]. *)
Definition chunk_bounded (e : event) : Prop :=
  match e with
  | EvRead BufChunk btr _ br => 0 < btr <= CHUNK_SIZE /\ 0 <= br <= btr
  | EvMemcpy _ data => 0 < len data <= CHUNK_SIZE
  | _ => True
  end.

(** ** The registers of the handoff *)

(** The ten registers [main] writes. *)
Definition handoff_registers : list Z :=
  Apu.GLOBAL_GEN_STORAGE6 :: Apu.RST_FPD_APU :: rvbar_registers.

(** The entry slot when nothing has been assigned to it. *)
Definition ATFHandoffEntry_fresh : Apu.ATFHandoffEntry :=
  {| Apu.EntryPoint := None; Apu.PartitionFlags := None |}.

(** ** [print_buffer]

    The console is the list of the characters printed.  [xil_printf] is
    not part of the sources: [%08X] and [%02X] print an [unsigned int] in
    upper-case hexadecimal, padded with zeros to 8 and 2 digits, and [%c]
    prints the character of the given code.  [size_t] has the width of the
    pointers of the core. *)

(** The characters of the format strings: [' '], ['.'], ['|'], ['\r']
    and ['\n']. *)
Definition ch_space : Ascii.ascii := Ascii.ascii_of_N 32.
Definition ch_dot : Ascii.ascii := Ascii.ascii_of_N 46.
Definition ch_bar : Ascii.ascii := Ascii.ascii_of_N 124.
Definition ch_cr : Ascii.ascii := Ascii.ascii_of_N 13.
Definition ch_lf : Ascii.ascii := Ascii.ascii_of_N 10.

Definition hex_digit (n : Z) : Ascii.ascii :=
  Ascii.ascii_of_N (Z.to_N (if n <? 10 then 48 + n else 55 + n)).

(** The [digits] hexadecimal digits of [v], most significant first. *)
Fixpoint hex_digits (digits : nat) (v : Z) : list Ascii.ascii :=
  match digits with
  | O => []
  | S d => hex_digits d (v / 16) ++ [hex_digit (v mod 16)]
  end.

Definition bytes_per_line : Z := 16.

(** [i + j < size], in [size_t]. *)
Definition cell_in_range (c : elf_class) (size i j : Z) : bool :=
  wrap (bits c) (i + j) <? size.

(** [buffer[i + j]]; the caller passes a [size] within the buffer. *)
Definition buffer_at (c : elf_class) (buffer : list byte) (i j : Z) : byte :=
  default x00 (buffer !! Z.to_nat (wrap (bits c) (i + j))).

Definition hex_cell (c : elf_class) (buffer : list byte) (size i j : Z)
  : list Ascii.ascii :=
  if cell_in_range c size i j then
    hex_digits 2 (byte_val (buffer_at c buffer i j)) ++ [ch_space]
  else [ch_space; ch_space; ch_space].

Definition ascii_cell (c : elf_class) (buffer : list byte) (size i j : Z)
  : list Ascii.ascii :=
  if cell_in_range c size i j then
    let byte := buffer_at c buffer i j in
    if (byte_val byte >=? 32) && (byte_val byte <? 127) then
      [Ascii.ascii_of_byte byte]
    else [ch_dot]
  else [].

(** One turn of the outer loop: the offset, the sixteen hexadecimal
    cells, the text column, the end of line. *)
Definition print_line (c : elf_class) (buffer : list byte) (size i : Z)
  : list Ascii.ascii :=
  hex_digits 8 (wrap 32 i) ++ [ch_space; ch_space]
  ++ concat (map (hex_cell c buffer size i) (seqZ 0 bytes_per_line))
  ++ [ch_space; ch_bar]
  ++ concat (map (ascii_cell c buffer size i) (seqZ 0 bytes_per_line))
  ++ [ch_bar; ch_cr; ch_lf].

(** The outer loop from [i] on; [None] when the fuel does not suffice. *)
Fixpoint print_lines (c : elf_class) (buffer : list byte) (size : Z)
    (fuel : nat) (i : Z) : option (list Ascii.ascii) :=
  if i <? size then
    match fuel with
    | O => None
    | S fuel' =>
        match print_lines c buffer size fuel'
                (wrap (bits c) (i + bytes_per_line)) with
        | Some rest => Some (print_line c buffer size i ++ rest)
        | None => None
        end
    end
  else Some [].

(** What [print_buffer(buffer, size)] prints, with fuel for one line per
    16 bytes and one more; [None] when these do not suffice. *)
Definition print_buffer (c : elf_class) (buffer : list byte) (size : Z)
  : option (list Ascii.ascii) :=
  print_lines c buffer size (Z.to_nat (size / bytes_per_line + 1)) 0.

(** A character that shows on a console, or the end of a line. *)
Definition console_safe (a : Ascii.ascii) : bool :=
  let n := Z.of_N (Ascii.N_of_ascii a) in
  ((32 <=? n) && (n <? 127)) || (n =? 13) || (n =? 10).

(** The number of lines of a dump of [size] bytes. *)
Definition dump_lines (size : Z) : Z := (size + 15) / 16.

(** ** Destinations the caller has validated *)

(** The destination of the entry is free memory: it reaches neither what
    the loader itself occupies, nor what is no writable memory, nor a
    device register. *)
Definition destination_clear (c : elf_class) (w : World) (ph : Elf_Phdr)
  : Prop :=
  existsb (hits (bits c) (p_vaddr ph) (Z.max (p_filesz ph) (p_memsz ph)))
          (reserved w) = false.

(** The address is free memory: in no reserved range.  It is of the free
    memory that [mem] tells the contents; what the loader keeps in its own
    storage is not followed. *)
Definition free_memory (w : World) (a : Z) : Prop :=
  existsb (fun range => (fst range <=? a) && (a <? fst range + snd range))
          (reserved w) = false.

(** What the loaders leave to their caller, for the image [name] if the
    card holds it: its size is one [FSIZE_t] can hold, and the destination
    of every entry of its table lies inside the address space, on free
    memory. *)
Definition prevalidated (c : elf_class) (w : World) (name : string) : Prop :=
  forall content,
    sd_files w !! name = Some content ->
    len content < 2 ^ FSIZE_bits w
    /\ Forall (destination_fits c) (image_segments c content)
    /\ Forall (destination_clear c w) (image_segments c content).

(** ** The chunk loop, operation by operation

    What the [while (bytesToRead > 0)] loop does on the file [content]
    read from position [pos], when [loaded] bytes of the segment are in
    place and [remaining] are still to come: the operations, and the exit
    taken ([None] when the loop ends by itself).  Each turn asks for what
    remains, at most [CHUNK_SIZE].  A read that fails or delivers nothing
    ends the load: the table is freed, the file closed.  A read that
    delivers [data], however short, is followed by the copy of [data] to
    the destination, [loaded] bytes from its start, and by the flush of as
    many bytes there; the loop goes on behind [data] in the file, with
    [len data] bytes more in place and as many less to come. *)
Inductive chunk_run (c : elf_class) (segmentMemory : Z) (content : list byte)
  : Z -> Z -> Z -> list event -> option error -> Prop :=
| cr_done pos loaded remaining :
    remaining <= 0 ->
    chunk_run c segmentMemory content pos loaded remaining [] None
| cr_fail pos loaded remaining fr br :
    0 < remaining ->
    fr_ok fr = false \/ br = 0 ->
    chunk_run c segmentMemory content pos loaded remaining
      [EvRead BufChunk (Z.min remaining CHUNK_SIZE) fr br; EvFree; EvClose]
      (Some ShortSegmentRead)
| cr_copy pos loaded remaining data evs r :
    0 < remaining ->
    0 < len data <= Z.min remaining CHUNK_SIZE ->
    data = sub content pos (len data) ->
    chunk_run c segmentMemory content (pos + len data) (loaded + len data)
              (remaining - len data) evs r ->
    chunk_run c segmentMemory content pos loaded remaining
      (EvRead BufChunk (Z.min remaining CHUNK_SIZE) FR_OK (len data)
       :: EvMemcpy (ptr_add c segmentMemory loaded) data
       :: EvFlush (wrap 32 (ptr_add c segmentMemory loaded)) (len data)
       :: evs) r.

(** The position of the file after the seek to the offset of an entry. *)
Definition segment_start (ph : Elf_Phdr) (w : World) : Z :=
  Z.min (wrap (FSIZE_bits w) (p_offset ph)) (f_size w).

(** The zero-fill that follows the chunk loop of an entry. *)
Definition fill_events (c : elf_class) (ph : Elf_Phdr) : list event :=
  if p_memsz ph >? p_filesz ph then
    [EvMemset (ptr_add c (p_vaddr ph) (p_filesz ph))
              (p_memsz ph - p_filesz ph)]
  else [].

(** ** More images *)

Definition PT_TLS : Z := 7.

(** An image with thread-local data, as a linker lays it out: one
    [PT_LOAD] segment of 8 bytes at [0x1000], and a [PT_TLS] entry that
    describes a part of it, the initialised thread-local data in the first
    4 bytes, followed by 4 bytes of uninitialised thread-local data that
    take no room in the segment ([p_memsz] is 8). *)
Definition image32_load_and_tls : list byte :=
  ehdr32_bytes 0x1000 52 2
  ++ phdr32_bytes PT_LOAD 116 0x1000 8 8
  ++ phdr32_bytes PT_TLS 116 0x1000 4 8
  ++ [x01; x02; x03; x04; x05; x06; x07; x08].

(** A segment of 8 bytes placed on the first reset-vector registers. *)
Definition image64_on_registers : list byte :=
  ehdr64_bytes 0x1000 64 1
  ++ phdr64_bytes PT_LOAD 120 0xFD5C0040 8 8
  ++ [x01; x02; x03; x04; x05; x06; x07; x08].

(** ** The descriptor of the handoff *)

(** The descriptor of a first partition, entered at [entry]. *)
Definition first_descriptor (entry flags : Z) : Apu.ATFHandoffParamsStruct :=
  {| Apu.MagicValue := [Some x58; Some x4c; Some x4e; Some x58];
     Apu.NumEntries := Some 1;
     Apu.Entry := {| Apu.EntryPoint := Some entry;
                     Apu.PartitionFlags := Some flags |}
                  :: replicate 9 ATFHandoffEntry_fresh |}.

(** * Properties *)

(** ** Integers, bytes and lists *)

Lemma wrap_range bits x : 0 <= bits -> 0 <= wrap bits x < 2 ^ bits.
Proof. intros Hb. unfold wrap. apply Z.mod_pos_bound. apply Z.pow_pos_nonneg; lia. Qed.

Lemma wrap_small bits x : 0 <= x < 2 ^ bits -> wrap bits x = x.
Proof. intros H. unfold wrap. apply Z.mod_small; lia. Qed.

Lemma wrap_le bits x : 0 <= bits -> 0 <= x -> wrap bits x <= x.
Proof.
  intros Hb Hx. unfold wrap. apply Z.mod_le; [lia|].
  apply Z.pow_pos_nonneg; lia.
Qed.

Lemma bits_pos c : 0 < bits c.
Proof. destruct c; simpl; lia. Qed.

Lemma len_nonneg {A} (l : list A) : 0 <= len l.
Proof. unfold len. lia. Qed.

Lemma len_app {A} (l1 l2 : list A) : len (l1 ++ l2) = len l1 + len l2.
Proof. unfold len. rewrite length_app. lia. Qed.

Lemma len_sub {A} (l : list A) pos n :
  0 <= pos -> 0 <= n -> len (sub l pos n) = Z.min n (Z.max 0 (len l - pos)).
Proof.
  intros Hp Hn. unfold len, sub. rewrite length_take, length_drop. lia.
Qed.

Lemma sub_lookup {A} (l : list A) pos n k :
  0 <= pos -> 0 <= k < n ->
  sub l pos n !! Z.to_nat k = l !! Z.to_nat (pos + k).
Proof.
  intros Hp Hk. unfold sub.
  rewrite lookup_take_lt by lia. rewrite lookup_drop. f_equal. lia.
Qed.

(** ** What each collaborator adds to the list of operations *)

Lemma fr_ok_true fr : fr_ok fr = true -> fr = FR_OK.
Proof. destruct fr; simpl; congruence. Qed.

Lemma f_read_run dst btr w fr data w1 :
  f_read dst btr w = (fr, data, w1) ->
  trace w1 = trace w ++ [EvRead dst btr fr (len data)]
  /\ file w1 = file w /\ heap_script w1 = heap_script w
  /\ mem w1 = mem w /\ same_board w w1
  /\ (fr_ok fr = false -> data = []).
Proof.
  unfold f_read, same_board. intros H.
  destruct (match rd_script w with [] => RdAll | r :: _ => r end);
    inversion H; subst; clear H; simpl; repeat split; congruence.
Qed.

Lemma same_board_refl w : same_board w w.
Proof. unfold same_board. tauto. Qed.

Lemma same_board_trans w1 w2 w3 :
  same_board w1 w2 -> same_board w2 w3 -> same_board w1 w3.
Proof. unfold same_board. intuition congruence. Qed.

Lemma segment_run_here {A} (r : result A) w w' tl :
  trace w' = trace w ++ tl ->
  match r with Ok _ => tl = [] | Err e => exit_tail e tl end ->
  segment_run r w w'.
Proof. intros Ht Hr. exists [], tl. simpl. auto using sb_nil. Qed.

Lemma segment_body_app b1 b2 :
  segment_body b1 -> segment_body b2 -> segment_body (b1 ++ b2).
Proof. induction 1; simpl; intros; auto using segment_body. Qed.

(** The flush is over the destination of the copy, modulo [2^32]. *)
Lemma flush_address c sm loaded n :
  wrap 32 (ptr_add c (ptr_add c sm (wrap (bits c) (loaded + n))) (- n))
  = wrap 32 (ptr_add c sm loaded).
Proof.
  f_equal. unfold ptr_add, wrap.
  rewrite Zplus_mod_idemp_r, Zplus_mod_idemp_l. f_equal. lia.
Qed.

Lemma segment_run_app {A B} (a : A) (r : result B) w w1 w' :
  segment_run (Ok a) w w1 -> segment_run r w1 w' ->
  segment_run r w w'.
Proof.
  intros (b1 & t1 & Ht1 & Hb1 & ->) (b2 & t2 & Ht2 & Hb2 & Hr).
  exists (b1 ++ b2), t2. rewrite Ht2, Ht1, app_nil_r, <- !app_assoc.
  split; [reflexivity|]. split; [|exact Hr].
  apply segment_body_app; auto.
Qed.

(** ** The shape of what the segment loop does *)

Lemma segment_run_seek {A} (r : result A) w w1 w' ofs :
  trace w1 = trace w ++ [EvSeek ofs] ->
  segment_run r w1 w' -> segment_run r w w'.
Proof.
  intros Ht (b & t & Hb & Hf & Hr).
  exists (EvSeek ofs :: b), t. rewrite Hb, Ht, <- app_assoc. simpl.
  split; [reflexivity|]. split; [|exact Hr]. constructor; assumption.
Qed.

Lemma segment_run_chunk {A} (r : result A) w w1 w' btr dst data :
  trace w1 = trace w ++ [EvRead BufChunk btr FR_OK (len data);
                         EvMemcpy dst data;
                         EvFlush (wrap 32 dst) (len data)] ->
  0 < len data ->
  segment_run r w1 w' -> segment_run r w w'.
Proof.
  intros Ht Hd (b & t & Hb & Hf & Hr).
  eexists (_ :: _ :: _ :: b), t. rewrite Hb, Ht, <- app_assoc. simpl.
  split; [reflexivity|]. split; [|exact Hr]. constructor; assumption.
Qed.

Lemma copy_loop_run c sm fuel :
  forall loaded toread w r w',
    copy_loop c sm fuel loaded toread w = (r, w') ->
    segment_run r w w' /\ file w' = file w
    /\ heap_script w' = heap_script w /\ same_board w w'.
Proof.
  induction fuel as [|fuel IH]; intros loaded toread w r w' H; simpl in H;
    destruct (toread >? 0) eqn:Hgt.
  - inversion H; subst. split; [|auto using same_board_refl].
    apply segment_run_here with (tl := []); simpl; auto using app_nil_r.
  - inversion H; subst. split; [|auto using same_board_refl].
    apply segment_run_here with (tl := []); simpl; auto using app_nil_r.
  - destruct (f_read BufChunk _ w) as [[fr buffer] w1] eqn:Hrd.
    apply f_read_run in Hrd as (Ht & Hfile & Hheap & Hmem & Hboard & Hfail).
    destruct (negb (fr_ok fr) || (len buffer =? 0)) eqn:Hbad.
    + inversion H; subst; clear H. simpl.
      split; [|auto].
      apply segment_run_here
        with (tl := [EvRead BufChunk
                       (if toread >? CHUNK_SIZE then CHUNK_SIZE else toread)
                       fr (len buffer); EvFree; EvClose]).
      * simpl. rewrite Ht, <- !app_assoc. reflexivity.
      * simpl. eexists _, _, _. split; [|reflexivity].
        apply orb_true_iff in Hbad as [Hb|Hb].
        -- left. destruct (fr_ok fr); simpl in Hb; congruence.
        -- right. apply Z.eqb_eq in Hb. exact Hb.
    + apply orb_false_iff in Hbad as [Hfr Hlen].
      apply IH in H as (Hrun & Hfile' & Hheap' & Hboard').
      simpl in Hfile', Hheap'.
      split; [|split; [congruence|split; [congruence|]]].
      * apply negb_false_iff, fr_ok_true in Hfr. subst fr.
        apply Z.eqb_neq in Hlen. pose proof (len_nonneg buffer).
        eapply segment_run_chunk; [|shelve|exact Hrun].
        simpl. rewrite Ht, <- !app_assoc, flush_address. reflexivity.
        Unshelve. lia.
      * eapply same_board_trans; [exact Hboard|].
        unfold same_board in *. simpl in Hboard'. exact Hboard'.
  - inversion H; subst. split; [|auto using same_board_refl].
    apply segment_run_here with (tl := []); simpl; auto using app_nil_r.
Qed.

Lemma load_segment_run c ph w r w' :
  load_segment c ph w = (r, w') ->
  segment_run r w w' /\ file w' = file w
  /\ heap_script w' = heap_script w /\ same_board w w'.
Proof.
  unfold load_segment. intros H.
  destruct (wrap (bits c) (p_offset ph + p_filesz ph) >? f_size w).
  - inversion H; subst; clear H.
    split; [|frame].
    apply segment_run_here with (tl := [EvFree; EvClose]); simpl.
    + rewrite <- app_assoc. reflexivity.
    + reflexivity.
  - destruct (copy_loop c (p_vaddr ph) _ 0 (p_filesz ph) _)
      as [[bytesLoaded|e] w2] eqn:Hloop;
      apply copy_loop_run in Hloop as (Hrun & Hfile & Hheap & Hboard);
      simpl in Hfile, Hheap; unfold same_board in Hboard; simpl in Hboard.
    + assert (Hseek : segment_run (Ok bytesLoaded) w w2).
      { eapply segment_run_seek; [|exact Hrun]; reflexivity. }
      destruct (p_memsz ph >? p_filesz ph);
        inversion H; subst; clear H; simpl.
      * split; [|auto].
        eapply segment_run_app; [exact Hseek|].
        exists [EvMemset (ptr_add c (p_vaddr ph) bytesLoaded)
                         (p_memsz ph - p_filesz ph)], [].
        simpl. repeat split. repeat constructor.
      * split; [|auto].
        destruct Hseek as (b & t & Hb & Hf & ->). exists b, []. auto.
    + inversion H; subst; clear H.
      split; [|auto].
      eapply segment_run_seek; [|exact Hrun]; reflexivity.
Qed.

Lemma load_segments_run c phs :
  forall w r w',
    load_segments c phs w = (r, w') ->
    segment_run r w w' /\ file w' = file w
    /\ heap_script w' = heap_script w /\ same_board w w'.
Proof.
  induction phs as [|ph phs IH]; intros w r w' H; simpl in H.
  - inversion H; subst. split; [|auto using same_board_refl].
    apply segment_run_here with (tl := []); simpl; auto using app_nil_r.
  - destruct (load_segment c ph w) as [[[]|e] w1] eqn:Hseg;
      apply load_segment_run in Hseg as (Hrun & Hfile & Hheap & Hboard).
    + apply IH in H as (Hrun' & Hfile' & Hheap' & Hboard').
      split; [eapply segment_run_app; eassumption|].
      split; [congruence|]. split; [congruence|].
      eapply same_board_trans; eassumption.
    + inversion H; subst; clear H. auto.
Qed.

(** ** The chunk loop ends *)

Lemma len_sub_le {A} (l : list A) pos n :
  0 <= pos -> len (sub l pos n) <= Z.max 0 (len l - pos).
Proof. intros Hp. unfold len, sub. rewrite length_take, length_drop. lia. Qed.

Lemma f_read_fptr dst btr w fr data w1 :
  f_read dst btr w = (fr, data, w1) -> 0 <= fptr w ->
  fptr w1 = fptr w + len data /\ len data <= Z.max 0 (len (file w) - fptr w).
Proof.
  unfold f_read. intros H Hp.
  destruct (match rd_script w with [] => RdAll | r :: _ => r end);
    inversion H; subst; clear H; simpl;
    first [ split; [reflexivity|apply len_sub_le; assumption]
          | unfold len; simpl; lia ].
Qed.

Lemma copy_loop_fuel c sm fuel :
  forall loaded toread w r w',
    copy_loop c sm fuel loaded toread w = (r, w') ->
    0 <= fptr w <= len (file w) ->
    (Z.to_nat (len (file w) - fptr w) < fuel)%nat ->
    r <> Err FuelExhausted.
Proof.
  induction fuel as [|fuel IH]; intros loaded toread w r w' H Hp Hfuel;
    [lia|].
  simpl in H. destruct (toread >? 0); [|inversion H; discriminate].
  destruct (f_read BufChunk _ w) as [[fr buffer] w1] eqn:Hrd.
  pose proof (f_read_run _ _ _ _ _ _ Hrd) as (_ & Hfile & _).
  apply f_read_fptr in Hrd as (Hfp & Hle); [|lia].
  destruct (negb (fr_ok fr) || (len buffer =? 0)) eqn:Hbad;
    [inversion H; discriminate|].
  apply orb_false_iff in Hbad as [_ Hlen]. apply Z.eqb_neq in Hlen.
  pose proof (len_nonneg buffer).
  apply IH in H; [exact H| |]; simpl; rewrite Hfile, Hfp; lia.
Qed.

Lemma wrap_nonneg bits x : 0 <= bits -> 0 <= wrap bits x.
Proof. intros. apply wrap_range. assumption. Qed.

Lemma FSIZE_bits_pos w : 0 < FSIZE_bits w.
Proof. unfold FSIZE_bits. destruct (FF_FS_EXFAT w); lia. Qed.

Lemma load_segment_terminates c ph w r w' :
  load_segment c ph w = (r, w') -> r <> Err FuelExhausted.
Proof.
  unfold load_segment. intros H.
  destruct (wrap (bits c) (p_offset ph + p_filesz ph) >? f_size w);
    [inversion H; discriminate|].
  destruct (copy_loop c (p_vaddr ph) _ 0 (p_filesz ph) _)
    as [[bytesLoaded|e] w2] eqn:Hloop.
  - destruct (p_memsz ph >? p_filesz ph); inversion H; discriminate.
  - inversion H; subst; clear H.
    apply copy_loop_fuel in Hloop; [congruence| |];
      cbn [file fptr f_lseek emit set_file].
    + pose proof (wrap_nonneg (FSIZE_bits w) (p_offset ph)).
      pose proof (FSIZE_bits_pos w). pose proof (len_nonneg (file w)).
      unfold f_size. lia.
    + pose proof (wrap_nonneg (FSIZE_bits w) (p_offset ph)).
      pose proof (FSIZE_bits_pos w).
      unfold f_size, len. lia.
Qed.

Lemma load_segments_terminates c phs :
  forall w r w', load_segments c phs w = (r, w') -> r <> Err FuelExhausted.
Proof.
  induction phs as [|ph phs IH]; intros w r w' H; simpl in H.
  - inversion H; discriminate.
  - destruct (load_segment c ph w) as [[[]|e] w1] eqn:Hseg.
    + eapply IH; eassumption.
    + inversion H; subst. eapply load_segment_terminates; eassumption.
Qed.

(** ** The shape of what a load does *)

Lemma load_image_run c name w r w' :
  load_image c name w = (r, w') ->
  exists new,
    trace w' = trace w ++ new /\ image_trace c name r new
    /\ same_board w w'.
Proof.
  unfold load_image, f_mount. intros H.
  destruct (fr_ok (sd_mount w)) eqn:Hm; simpl in H.
  2: { inversion H; subst; clear H. eexists. split; [reflexivity|].
       split; [constructor; assumption|frame]. }
  apply fr_ok_true in Hm.
  unfold f_open in H; simpl in H.
  destruct (sd_files w !! name) as [content|] eqn:Hf; simpl in H.
  2: { inversion H; subst; clear H. eexists. split.
       { simpl. rewrite <- app_assoc. reflexivity. }
       rewrite Hm. split; [constructor; reflexivity|frame]. }
  match type of H with
  | context [f_read BufHeader ?n ?w0] =>
      destruct (f_read BufHeader n w0) as [[fr hbuf] w1] eqn:Hrd
  end.
  apply f_read_run in Hrd as (Ht1 & Hfile1 & Hheap1 & _ & Hb1 & _).
  simpl in Ht1, Hfile1, Hheap1. rewrite <- app_assoc in Ht1.
  simpl in Ht1. rewrite <- app_assoc in Ht1. simpl in Ht1. rewrite Hm in Ht1.
  destruct (negb (fr_ok fr) || negb (len hbuf =? sizeof_Ehdr c)) eqn:Hhdr.
  { inversion H; subst; clear H. eexists. split.
    { simpl. rewrite Ht1, <- app_assoc. reflexivity. }
    split; [|frame]. constructor.
    apply orb_true_iff in Hhdr as [Hh|Hh].
    - left. destruct (fr_ok fr); simpl in Hh; congruence.
    - right. apply negb_true_iff, Z.eqb_neq in Hh. exact Hh. }
  apply orb_false_iff in Hhdr as [Hfr Hlen].
  apply negb_false_iff in Hfr. apply fr_ok_true in Hfr. subst fr.
  apply negb_false_iff, Z.eqb_eq in Hlen. rewrite Hlen in Ht1.
  destruct (negb (magic_ok (parse_Ehdr c hbuf))).
  { inversion H; subst; clear H. eexists. split.
    { simpl. rewrite Ht1, <- app_assoc. reflexivity. }
    split; [constructor; auto|frame]. }
  destruct (e_phoff (parse_Ehdr c hbuf) >=? f_size w1).
  { inversion H; subst; clear H. eexists. split.
    { simpl. rewrite Ht1, <- app_assoc. reflexivity. }
    split; [constructor; auto|frame]. }
  unfold malloc in H.
  destruct (match heap_script w1 with [] => true | b :: _ => b end); simpl in H.
  2: { inversion H; subst; clear H. eexists. split.
       { simpl. rewrite Ht1, <- !app_assoc. reflexivity. }
       split; [constructor|frame]. }
  match type of H with
  | context [f_read BufTable ?n ?w0] =>
      destruct (f_read BufTable n w0) as [[fr tbl] w2] eqn:Hrd
  end.
  apply f_read_run in Hrd as (Ht2 & Hfile2 & Hheap2 & _ & Hb2 & _).
  simpl in Ht2, Hfile2, Hheap2. rewrite Ht1, <- !app_assoc in Ht2.
  simpl in Ht2.
  destruct (negb (fr_ok fr)
            || negb (len tbl =? e_phnum (parse_Ehdr c hbuf) * sizeof_Phdr c))
    eqn:Htbl.
  { inversion H; subst; clear H. eexists. split.
    { simpl. rewrite Ht2, <- !app_assoc. reflexivity. }
    split; [|frame]. constructor.
    apply orb_true_iff in Htbl as [Hh|Hh].
    - left. destruct (fr_ok fr); simpl in Hh; congruence.
    - right. apply negb_true_iff, Z.eqb_neq in Hh. exact Hh. }
  apply orb_false_iff in Htbl as [Hfr Hlen2].
  apply negb_false_iff in Hfr. apply fr_ok_true in Hfr. subst fr.
  apply negb_false_iff, Z.eqb_eq in Hlen2. rewrite Hlen2 in Ht2.
  destruct (load_segments c _ w2) as [[[]|e] w3] eqn:Hsegs;
    pose proof (load_segments_terminates _ _ _ _ _ Hsegs) as Hfuel;
    apply load_segments_run in Hsegs
      as ((body & tl & Ht3 & Hbody & Htl) & Hfile3 & Hheap3 & Hb3);
    inversion H; subst; clear H.
  - exists (table_prefix c name (parse_Ehdr c hbuf) ++ body ++ [EvFree; EvClose]).
    split; [|split; [constructor; assumption|frame]].
    simpl. rewrite Ht3, Ht2, app_nil_r, <- !app_assoc. reflexivity.
  - exists (table_prefix c name (parse_Ehdr c hbuf) ++ body ++ tl).
    split; [|split; [constructor; try assumption; congruence|frame]].
    rewrite Ht3, Ht2, <- !app_assoc. reflexivity.
Qed.

(** The chunk loop is always given fuel enough: [FuelExhausted] is not an
    exit of a load. *)
Lemma load_image_terminates c name w :
  fst (load_image c name w) <> Err FuelExhausted.
Proof.
  destruct (load_image c name w) as [r w'] eqn:Hload. simpl.
  apply load_image_run in Hload as (new & _ & Hshape & _).
  intros ->. inversion Hshape; subst; try congruence.
  match goal with H : _ \/ _ |- _ => destruct H; discriminate end.
Qed.

(** ** Files and allocations *)

Lemma resources_app st l1 l2 :
  resources st (l1 ++ l2) = resources (resources st l1) l2.
Proof. unfold resources. apply fold_left_app. Qed.

Lemma segment_body_resources b :
  segment_body b ->
  forall allocated,
    resources (Some (true, allocated)) b = Some (true, allocated).
Proof. induction 1; intros allocated; simpl; auto. Qed.

Lemma exit_tail_resources e tl :
  exit_tail e tl -> e <> FuelExhausted ->
  resources (Some (true, true)) tl = Some (false, false).
Proof.
  destruct e; simpl; try contradiction.
  - intros ->. reflexivity.
  - intros (btr & fr & br & _ & ->). reflexivity.
Qed.

Lemma image_trace_resources c name r new :
  image_trace c name r new ->
  resources (Some (false, false)) new = Some (false, false).
Proof.
  destruct 1; try reflexivity.
  - destruct fr; simpl in *; try reflexivity; discriminate.
  - rewrite !resources_app. simpl.
    change (fold_left resource_step body (Some (true, true)))
      with (resources (Some (true, true)) body).
    rewrite segment_body_resources by assumption.
    eapply exit_tail_resources; eassumption.
  - rewrite !resources_app. simpl.
    change (fold_left resource_step body (Some (true, true)))
      with (resources (Some (true, true)) body).
    rewrite segment_body_resources by assumption. reflexivity.
Qed.

(** ** Stages *)

Lemma segment_body_stage b :
  segment_body b ->
  Forall (fun ev => within_stage SegmentMaterializer ev = true) b.
Proof. induction 1; repeat constructor; assumption. Qed.

Lemma exit_tail_stage e tl :
  exit_tail e tl ->
  Forall (fun ev => within_stage SegmentMaterializer ev = true) tl.
Proof.
  destruct e; simpl; try contradiction.
  - intros ->. repeat constructor.
  - intros (btr & fr & br & _ & ->). repeat constructor.
  - intros ->. constructor.
Qed.

Lemma image_trace_stage c name e new :
  image_trace c name (Err e) new ->
  Forall (fun ev => within_stage (error_stage e) ev = true) new.
Proof.
  inversion 1; subst; try (repeat constructor; fail).
  - destruct H1 as [-> | ->]; repeat constructor.
  - assert (error_stage e = SegmentMaterializer) as ->
      by (destruct e; simpl in *; try contradiction; reflexivity).
    apply Forall_app. split; [repeat constructor|].
    apply Forall_app. split;
      [apply segment_body_stage|eapply exit_tail_stage]; eassumption.
Qed.

Lemma image_trace_no_handoff c name r new :
  image_trace c name r new ->
  Forall (fun ev => within_stage SegmentMaterializer ev = true) new.
Proof.
  destruct 1; try (repeat constructor; fail).
  - apply Forall_app. split; [repeat constructor|].
    apply Forall_app. split;
      [apply segment_body_stage|eapply exit_tail_stage]; eassumption.
  - apply Forall_app. split; [repeat constructor|].
    apply Forall_app. split;
      [apply segment_body_stage; assumption|repeat constructor].
Qed.

(** * The claims *)

(** C9.  Whatever the card, the storage and the allocator do, the
    operations of one call of [load_elf32], and of one call of
    [load_elf64], leave no file open and no program-header table
    allocated: the file, once opened, is closed exactly once and the table,
    once allocated, is freed exactly once before the function returns. *)
Theorem load_releases_file_and_table (file_name : string) (w : World) :
  (exists new,
      trace (snd (load_elf32 file_name w)) = trace w ++ new
      /\ resources (Some (false, false)) new = Some (false, false))
  /\ (exists new,
         trace (snd (load_elf64 file_name w)) = trace w ++ new
         /\ resources (Some (false, false)) new = Some (false, false)).
Proof.
  split.
  - unfold load_elf32.
    destruct (load_image ELF32 file_name w) as [[h|e] w1] eqn:Hload;
      apply load_image_run in Hload as (new & Ht & Hshape & _);
      apply image_trace_resources in Hshape.
    + exists (new ++ [EvBranch (wrap 32 (e_entry h))]). simpl.
      rewrite Ht, <- app_assoc, resources_app, Hshape. auto.
    + exists new. auto.
  - unfold load_elf64.
    destruct (load_image ELF64 file_name w) as [[h|e] w1] eqn:Hload;
      apply load_image_run in Hload as (new & Ht & Hshape & _);
      apply image_trace_resources in Hshape; exists new; auto.
Qed.

(** C6 (amended).  Inside one load every stage is a hard gate: when the
    load leaves through the exit [e], everything it has done is cleanup or
    an operation of a stage not after the stage of [e]; the function
    returns its failure value right there, so that the 32-bit loader does
    not branch to the entry point. *)
Theorem failed_stage_gates_the_load c file_name w e :
  fst (load_image c file_name w) = Err e ->
  (exists new,
      trace (snd (load_image c file_name w)) = trace w ++ new
      /\ Forall (fun ev => within_stage (error_stage e) ev = true) new)
  /\ match c with
     | ELF32 =>
         load_elf32 file_name w = (255, snd (load_image ELF32 file_name w))
     | ELF64 =>
         load_elf64 file_name w
         = (2 ^ 64 - 1, snd (load_image ELF64 file_name w))
     end.
Proof.
  destruct (load_image c file_name w) as [r w'] eqn:Hload.
  simpl. intros ->. split.
  - apply load_image_run in Hload as (new & Ht & Hshape & _).
    exists new. split; [assumption|].
    eapply image_trace_stage; eassumption.
  - destruct c; unfold load_elf32, load_elf64; rewrite Hload; reflexivity.
Qed.

Lemma failed_stage_gates_the_load_witness :
  (exists new,
      trace (snd (load_image ELF32 "vxWorks.elf" (card32 image32_beyond)))
      = trace (card32 image32_beyond) ++ new
      /\ Forall (fun ev => within_stage SegmentMaterializer ev = true) new)
  /\ load_elf32 "vxWorks.elf" (card32 image32_beyond)
     = (255, snd (load_image ELF32 "vxWorks.elf" (card32 image32_beyond))).
Proof.
  apply (failed_stage_gates_the_load ELF32 "vxWorks.elf"
           (card32 image32_beyond) SegmentOutOfBounds).
  vm_compute. reflexivity.
Defined.

(** C6, as stated, fails: with no [bl31.elf] on the card the first load of
    the APU [main] returns its failure value, and [main] goes on with the
    second load, the descriptor, the reset vectors (set to [0xFFFFFFFF])
    and the release of the cores. *)
Lemma handoff_runs_after_failed_load :
  fst (load_elf64 "bl31.elf" card_empty) = 2 ^ 64 - 1
  /\ trace (Apu.main card_empty)
     = [EvMount FR_OK; EvOpen "bl31.elf" FR_NO_FILE;
        EvMount FR_OK; EvOpen "u-boot.elf" FR_NO_FILE;
        EvMmioWrite Apu.GLOBAL_GEN_STORAGE6 0xFFFC0000;
        EvMmioWrite Apu.RST_FPD_APU 0xF;
        EvMmioRead Apu.RVBARADDR0H; EvMmioRead Apu.RVBARADDR1H;
        EvMmioRead Apu.RVBARADDR2H; EvMmioRead Apu.RVBARADDR3H;
        EvMmioWrite Apu.RVBARADDR0L 0; EvMmioWrite Apu.RVBARADDR1L 0;
        EvMmioWrite Apu.RVBARADDR2L 0; EvMmioWrite Apu.RVBARADDR3L 0;
        EvMmioWrite Apu.RVBARADDR0H 0xFFFFFFFF;
        EvMmioWrite Apu.RVBARADDR1H 0xFFFFFFFF;
        EvMmioWrite Apu.RVBARADDR2H 0xFFFFFFFF;
        EvMmioWrite Apu.RVBARADDR3H 0xFFFFFFFF;
        EvMmioRead Apu.RVBARADDR0H; EvMmioRead Apu.RVBARADDR1H;
        EvMmioRead Apu.RVBARADDR2H; EvMmioRead Apu.RVBARADDR3H;
        EvMmioWrite Apu.RST_FPD_APU 0].
Proof. split; vm_compute; reflexivity. Qed.

(** ** The APU [main] *)

Lemma load_elf64_run name w r w' :
  load_elf64 name w = (r, w') ->
  exists new,
    trace w' = trace w ++ new
    /\ Forall (fun ev => within_stage SegmentMaterializer ev = true) new
    /\ same_board w w'.
Proof.
  unfold load_elf64. intros H.
  destruct (load_image ELF64 name w) as [[h|e] w1] eqn:Hload;
    apply load_image_run in Hload as (new & Ht & Hshape & Hb);
    inversion H; subst; clear H; exists new;
    (split; [assumption|split; [|assumption]]);
    eapply image_trace_no_handoff; eassumption.
Qed.

Lemma wrap_wrap bits x : wrap bits (wrap bits x) = wrap bits x.
Proof. unfold wrap. apply Zmod_mod. Qed.

Lemma main_run w :
  exists loads entrypoint,
    trace (Apu.main w)
    = trace w ++ loads
      ++ handoff_events (wrap 32 (stack_addr w)) (wrap 32 entrypoint)
    /\ Forall (fun ev => within_stage SegmentMaterializer ev = true) loads
    /\ entrypoint = fst (load_elf64 "bl31.elf" w).
Proof.
  unfold Apu.main.
  destruct (load_elf64 "bl31.elf" w) as [r w1] eqn:H1.
  destruct (load_elf64 "u-boot.elf" w1) as [r2 w2] eqn:H2.
  apply load_elf64_run in H1 as (n1 & Ht1 & Hf1 & Hb1).
  apply load_elf64_run in H2 as (n2 & Ht2 & Hf2 & Hb2).
  exists (n1 ++ n2), r. split; [|split; [apply Forall_app; auto|reflexivity]].
  assert (Hs : stack_addr w2 = stack_addr w) by frame.
  cbn [trace Apu.mock_fsbl_SetATFHandoffParams Apu.reset_apu_cores
       Apu.set_apu_rvba Apu.publish mmio_write mmio_read emit set_regs
       set_published stack_addr].
  rewrite Hs, Ht2, Ht1, !wrap_wrap, <- !app_assoc. reflexivity.
Qed.

Lemma app_split_at {A} (P : A -> Prop) (l1 l2 pre post : list A) (e : A) :
  Forall P l1 -> ~ P e -> l1 ++ l2 = pre ++ e :: post ->
  exists pre', pre = l1 ++ pre' /\ l2 = pre' ++ e :: post.
Proof.
  intros Hl He. revert pre. induction Hl as [|a l1 Ha Hl IH]; intros pre H.
  - exists pre. auto.
  - destruct pre as [|b pre]; simpl in H; inversion H; subst.
    + contradiction.
    + destruct (IH pre) as (pre' & -> & ->); [assumption|].
      exists pre'. auto.
Qed.

Lemma reset_level_app tr1 tr2 :
  Forall (fun ev => within_stage SegmentMaterializer ev = true) tr1 ->
  reset_level (tr1 ++ tr2) = reset_level tr2.
Proof.
  unfold reset_level. rewrite fold_left_app. intros H. f_equal.
  generalize (@None Z).
  induction H as [|e tr1 He H IH]; intros st; [reflexivity|].
  simpl. rewrite IH. destruct e; try reflexivity. discriminate.
Qed.


(** C10.  [mock_fsbl_SetATFHandoffParams] writes the four bytes 'X' 'L'
    'N' 'X' into the fresh descriptor when [EntryCount] is zero and leaves
    the four bytes of [MagicValue] unassigned otherwise; in both cases
    [NumEntries] is assigned [EntryCount + 1U], the sum of [uint32_t]. *)
Theorem handoff_magic_only_for_first_entry
    (EntryCount PartitionHeader PartitionFlags : Z) (w : World) :
  let d := fst (Apu.mock_fsbl_SetATFHandoffParams
                  EntryCount PartitionHeader PartitionFlags w) in
  Apu.MagicValue d
  = (if EntryCount =? 0
     then [Some x58; Some x4c; Some x4e; Some x58]
     else [None; None; None; None])
  /\ Apu.NumEntries d = Some (wrap 32 (EntryCount + 1)).
Proof.
  unfold Apu.mock_fsbl_SetATFHandoffParams.
  destruct (EntryCount =? 0), (EntryCount <? Apu.MAX_ENTRIES);
    simpl; split; reflexivity.
Qed.

(** C2 (amended).  The segment loop does not look at the segment type:
    whatever types the entries of the table are given, [PT_LOAD] or not,
    the loop validates and copies them in the same way, with the same
    result and the same final world. *)
Theorem segment_type_is_not_inspected
    (c : elf_class) (t : Elf_Phdr -> Z) (programHeaders : list Elf_Phdr)
    (w : World) :
  load_segments c (map (fun ph => retype (t ph) ph) programHeaders) w
  = load_segments c programHeaders w.
Proof.
  revert w. induction programHeaders as [|ph phs IH]; intros w.
  - reflexivity.
  - simpl.
    change (load_segment c (retype (t ph) ph) w) with (load_segment c ph w).
    destruct (load_segment c ph w) as [[[]|e] w1]; [apply IH|reflexivity].
Qed.

(** C2, as stated, fails: the only entry of [image32_note] is a [PT_NOTE];
    its 8 bytes are copied to its address [0x2000] all the same, and the
    same entry with an extent beyond the end of the file makes the load
    fail on the validation of that extent. *)
Lemma note_segment_is_validated_and_copied :
  p_type (parse_Phdr ELF32 (sub image32_note 52 32)) = PT_NOTE
  /\ PT_NOTE <> PT_LOAD
  /\ trace (snd (load_image ELF32 "vxWorks.elf" (card32 image32_note)))
     = [EvMount FR_OK; EvOpen "vxWorks.elf" FR_OK;
        EvRead BufHeader 52 FR_OK 52; EvMalloc 32 true; EvSeek 52;
        EvRead BufTable 32 FR_OK 32; EvSeek 84; EvRead BufChunk 8 FR_OK 8;
        EvMemcpy 0x2000 [x01; x02; x03; x04; x05; x06; x07; x08];
        EvFlush 0x2000 8; EvFree; EvClose]
  /\ p_type (parse_Phdr ELF32 (sub image32_note_beyond 52 32)) = PT_NOTE
  /\ fst (load_image ELF32 "vxWorks.elf" (card32 image32_note_beyond))
     = Err SegmentOutOfBounds.
Proof. repeat split; try discriminate; vm_compute; reflexivity. Qed.

(** ** What a successful load has read *)

Lemma sub_zero {A} (l : list A) pos n : n <= 0 -> sub l pos n = [].
Proof.
  intros Hn. unfold sub. replace (Z.to_nat n) with O by lia. reflexivity.
Qed.

Lemma f_read_full dst btr w data w1 :
  f_read dst btr w = (FR_OK, data, w1) -> len data = btr ->
  data = sub (file w) (fptr w) btr.
Proof.
  unfold f_read. intros H Hlen.
  destruct (match rd_script w with [] => RdAll | r :: _ => r end) as [|n|fr];
    inversion H; subst data; clear H;
    match goal with Hw : _ = w1 |- _ => clear Hw end.
  - reflexivity.
  - destruct (Z.le_gt_cases btr n) as [Hle|Hgt];
      [rewrite Z.min_l by assumption; reflexivity|].
    rewrite Z.min_r in * by lia.
    destruct (Z.le_gt_cases n 0) as [Hn|Hn].
    + rewrite (sub_zero _ _ n) in * by assumption.
      rewrite sub_zero; [reflexivity|]. change (0 = btr) in Hlen. lia.
    + exfalso. unfold len, sub in Hlen. rewrite length_take in Hlen. lia.
  - rewrite sub_zero; [reflexivity|]. change (0 = btr) in Hlen. lia.
Qed.

Lemma load_image_header c name w content h w' :
  sd_files w !! name = Some content ->
  load_image c name w = (Ok h, w') ->
  h = parse_Ehdr c (sub content 0 (sizeof_Ehdr c)).
Proof.
  unfold load_image, f_mount, f_open. intros Hf H.
  destruct (fr_ok (sd_mount w)); simpl in H; [|discriminate].
  rewrite Hf in H. simpl in H.
  match type of H with
  | context [f_read BufHeader ?n ?w0] =>
      destruct (f_read BufHeader n w0) as [[fr hbuf] w1] eqn:Hrd
  end.
  destruct (negb (fr_ok fr) || negb (len hbuf =? sizeof_Ehdr c)) eqn:Hhdr;
    [discriminate|].
  apply orb_false_iff in Hhdr as [Hfr Hlen].
  apply negb_false_iff, fr_ok_true in Hfr. subst fr.
  apply negb_false_iff, Z.eqb_eq in Hlen.
  apply f_read_full in Hrd; [|assumption]. simpl in Hrd. subst hbuf.
  destruct (negb (magic_ok _)); [discriminate|].
  destruct (e_phoff _ >=? f_size w1); [discriminate|].
  destruct (match heap_script w1 with [] => true | b :: _ => b end);
    simpl in H; [|discriminate].
  destruct (f_read BufTable _ _) as [[fr tbl] w3].
  destruct (negb (fr_ok fr) || _); [discriminate|].
  destruct (load_segments c _ w3) as [[[]|e] w4]; [|discriminate].
  inversion H. reflexivity.
Qed.

(** C7 (amended).  After a successful load, [load_elf64] returns the low
    32 bits of the [e_entry] field of the ELF header at the start of the
    file ([uint32_t entry_point = elfHeader.e_entry]); the value is that
    of [e_entry] whenever [e_entry] is below [2^32]. *)
Theorem entry_point_is_truncated_entry file_name w content h :
  sd_files w !! file_name = Some content ->
  fst (load_image ELF64 file_name w) = Ok h ->
  h = parse_Ehdr ELF64 (sub content 0 64)
  /\ load_elf64 file_name w
     = (e_entry h mod 2 ^ 32, snd (load_image ELF64 file_name w))
  /\ (e_entry h mod 2 ^ 32 = e_entry h <-> e_entry h < 2 ^ 32).
Proof.
  destruct (load_image ELF64 file_name w) as [r w'] eqn:Hload.
  simpl. intros Hf ->.
  assert (Hh : h = parse_Ehdr ELF64 (sub content 0 64))
    by (eapply (load_image_header ELF64); eassumption).
  split; [exact Hh|split].
  - unfold load_elf64. rewrite Hload. unfold wrap. f_equal.
    rewrite Z.mod_small; [reflexivity|].
    pose proof (Z.mod_pos_bound (e_entry h) (2 ^ 32)). lia.
  - assert (0 <= e_entry h).
    { rewrite Hh. unfold parse_Ehdr, e_entry, field.
      generalize (sub (sub content 0 64) 24 8).
      induction l as [|b l IH]; simpl; [lia|].
      unfold byte_val. lia. }
    split; intros Hm.
    + pose proof (Z.mod_pos_bound (e_entry h) (2 ^ 32)). lia.
    + apply Z.mod_small. lia.
Qed.

Lemma entry_point_is_truncated_entry_witness :
  parse_Ehdr ELF64 image64_high = parse_Ehdr ELF64 (sub image64_high 0 64)
  /\ load_elf64 "bl31.elf" (card64 image64_high [])
     = (e_entry (parse_Ehdr ELF64 image64_high) mod 2 ^ 32,
        snd (load_image ELF64 "bl31.elf" (card64 image64_high [])))
  /\ (e_entry (parse_Ehdr ELF64 image64_high) mod 2 ^ 32
      = e_entry (parse_Ehdr ELF64 image64_high)
      <-> e_entry (parse_Ehdr ELF64 image64_high) < 2 ^ 32).
Proof.
  apply (entry_point_is_truncated_entry "bl31.elf"
           (card64 image64_high []) image64_high).
  - vm_compute. reflexivity.
  - vm_compute. reflexivity.
Defined.

(** C7, as stated, fails: [image64_high] is loaded successfully, its
    header holds the entry [0x100001000], and [load_elf64] returns
    [0x1000]. *)
Lemma high_entry_point_is_modified :
  fst (load_image ELF64 "bl31.elf" (card64 image64_high []))
  = Ok (parse_Ehdr ELF64 (sub image64_high 0 64))
  /\ e_entry (parse_Ehdr ELF64 (sub image64_high 0 64)) = 0x100001000
  /\ fst (load_elf64 "bl31.elf" (card64 image64_high [])) = 0x1000.
Proof. repeat split; vm_compute; reflexivity. Qed.

(** ** Chunk reads *)

Lemma segment_body_read body tl pre btr fr br post :
  segment_body body ->
  body ++ tl = pre ++ EvRead BufChunk btr fr br :: post ->
  (fr = FR_OK /\ 0 < br
   /\ exists dst data post',
       len data = br
       /\ post = EvMemcpy dst data :: EvFlush (wrap 32 dst) br :: post')
  \/ (exists pre', tl = pre' ++ EvRead BufChunk btr fr br :: post).
Proof.
  intros Hb. revert pre.
  induction Hb as [|ofs b Hb IH|btr0 dst data b Hd Hb IH|dst n b Hb IH];
    intros pre H.
  - right. exists pre. exact H.
  - destruct pre as [|x pre]; simpl in H; [discriminate|].
    injection H as _ H. eauto.
  - destruct pre as [|x1 pre]; simpl in H.
    { injection H as E1 E2 E3 E4. subst btr0 fr br post. left.
      split; [reflexivity|].
      split; [assumption|]. eexists _, _, _. split; reflexivity. }
    injection H as _ H.
    destruct pre as [|x2 pre]; simpl in H; [discriminate|].
    injection H as _ H.
    destruct pre as [|x3 pre]; simpl in H; [discriminate|].
    injection H as _ H. eauto.
  - destruct pre as [|x pre]; simpl in H; [discriminate|].
    injection H as _ H. eauto.
Qed.

Lemma image_trace_chunk_read c name r new pre btr fr br post :
  image_trace c name r new ->
  new = pre ++ EvRead BufChunk btr fr br :: post ->
  ((fr_ok fr = false \/ br = 0)
   /\ r = Err ShortSegmentRead /\ post = [EvFree; EvClose])
  \/ (fr = FR_OK /\ 0 < br
      /\ exists dst data post',
          len data = br
          /\ post = EvMemcpy dst data :: EvFlush (wrap 32 dst) br :: post').
Proof.
  intros Hshape H.
  destruct Hshape as [fr0|fr0|fr0 br0|e0|size|size ofs fr0 br0
                      |h e body tl Hbody Htl He|h body Hbody];
    try (exfalso; list_positions H pre; fail).
  - unfold table_prefix in H.
    do 6 (destruct pre as [|? pre]; simpl in H; [discriminate|];
          injection H as _ H).
    destruct (segment_body_read _ _ _ _ _ _ _ Hbody H)
      as [Hgood|(pre' & Hin)]; [right; exact Hgood|].
    destruct e; simpl in Htl; try contradiction.
    + exfalso. subst tl. list_positions Hin pre'.
    + destruct Htl as (btr0 & fr0 & br0 & Hbad & ->).
      destruct pre' as [|x pre']; simpl in Hin.
      * injection Hin as <- <- <- <-. left. auto.
      * exfalso. injection Hin as _ Hin. list_positions Hin pre'.
  - unfold table_prefix in H.
    do 6 (destruct pre as [|? pre]; simpl in H; [discriminate|];
          injection H as _ H).
    destruct (segment_body_read _ _ _ _ _ _ _ Hbody H)
      as [Hgood|(pre' & Hin)]; [right; exact Hgood|].
    exfalso. list_positions Hin pre'.
Qed.


(** An extent that ends beyond the end of the file is rejected, and nothing
    of the segment is read or copied, as long as the sum of the offset and
    the size is below [2^32] (resp. [2^64]). *)
Lemma extent_beyond_file_is_rejected c ph w :
  0 <= p_offset ph + p_filesz ph < 2 ^ bits c ->
  len (file w) < p_offset ph + p_filesz ph ->
  load_segment c ph w = (Err SegmentOutOfBounds, f_close (free w))
  /\ trace (f_close (free w)) = trace w ++ [EvFree; EvClose]
  /\ mem (f_close (free w)) = mem w.
Proof.
  intros Hsum Hbeyond. unfold load_segment.
  rewrite wrap_small by assumption.
  replace (p_offset ph + p_filesz ph >? f_size w) with true
    by (symmetry; apply Z.gtb_lt; unfold f_size; lia).
  split; [reflexivity|]. split; [|reflexivity].
  simpl. rewrite <- app_assoc. reflexivity.
Qed.

(** C3: the code at a failing input.  The extent of the only segment of
    [image32_wrapping] (and of [image64_wrapping]) ends beyond the end of
    the file, but the sum computed in [uint32_t] (in [uint64_t]) does not:
    the validation passes, the 16 bytes that the file has from the offset
    are copied to the destination, and the load fails on the next read,
    with [ShortSegmentRead]. *)
Theorem wrapped_extent_is_copied :
  (let ph := parse_Phdr ELF32 (sub image32_wrapping 52 32) in
   p_offset ph + p_filesz ph = 0x100000044
   /\ len image32_wrapping = 100
   /\ fst (load_image ELF32 "vxWorks.elf" (card32 image32_wrapping))
      = Err ShortSegmentRead
   /\ trace (snd (load_image ELF32 "vxWorks.elf" (card32 image32_wrapping)))
      = [EvMount FR_OK; EvOpen "vxWorks.elf" FR_OK;
         EvRead BufHeader 52 FR_OK 52; EvMalloc 32 true; EvSeek 52;
         EvRead BufTable 32 FR_OK 32; EvSeek 84;
         EvRead BufChunk 4096 FR_OK 16;
         EvMemcpy 0x1000 (replicate 16 x2a); EvFlush 0x1000 16;
         EvRead BufChunk 4096 FR_OK 0; EvFree; EvClose])
  /\ (let ph := parse_Phdr ELF64 (sub image64_wrapping 64 56) in
      p_offset ph + p_filesz ph = 2 ^ 64 + 0x68
      /\ len image64_wrapping = 136
      /\ fst (load_image ELF64 "bl31.elf" (card64 image64_wrapping []))
         = Err ShortSegmentRead
      /\ trace (snd (load_image ELF64 "bl31.elf"
                       (card64 image64_wrapping [])))
         = [EvMount FR_OK; EvOpen "bl31.elf" FR_OK;
            EvRead BufHeader 64 FR_OK 64; EvMalloc 56 true; EvSeek 64;
            EvRead BufTable 56 FR_OK 56; EvSeek 120;
            EvRead BufChunk 4096 FR_OK 16;
            EvMemcpy 0x1000 (replicate 16 x2a); EvFlush 0x1000 16;
            EvRead BufChunk 4096 FR_OK 0; EvFree; EvClose]).
Proof. repeat split; vm_compute; reflexivity. Qed.

(** The sibling path: every copy of a chunk is at once followed by a
    flush of as many bytes, at the destination of the copy converted to
    [uint32_t]. *)
Lemma segment_body_copy body tl pre dst data post :
  segment_body body ->
  body ++ tl = pre ++ EvMemcpy dst data :: post ->
  (exists post', post = EvFlush (wrap 32 dst) (len data) :: post')
  \/ (exists pre', tl = pre' ++ EvMemcpy dst data :: post).
Proof.
  intros Hb. revert pre.
  induction Hb as [|ofs b Hb IH|btr0 dst0 data0 b Hd Hb IH|dst0 n b Hb IH];
    intros pre H.
  - right. exists pre. exact H.
  - destruct pre as [|x pre]; simpl in H; [discriminate|].
    injection H as _ H. eauto.
  - destruct pre as [|x1 pre]; simpl in H; [discriminate|].
    injection H as _ H.
    destruct pre as [|x2 pre]; simpl in H.
    { injection H as E1 E2 E3. subst dst0 data0 post. left. eauto. }
    injection H as _ H.
    destruct pre as [|x3 pre]; simpl in H; [discriminate|].
    injection H as _ H. eauto.
  - destruct pre as [|x pre]; simpl in H; [discriminate|].
    injection H as _ H. eauto.
Qed.

Lemma copy_is_flushed c file_name w pre dst data post :
  trace (snd (load_image c file_name w))
  = trace w ++ pre ++ EvMemcpy dst data :: post ->
  exists post', post = EvFlush (wrap 32 dst) (len data) :: post'.
Proof.
  destruct (load_image c file_name w) as [r w'] eqn:Hload. simpl.
  intros Ht.
  apply load_image_run in Hload as (new & Ht' & Hshape & _).
  rewrite Ht' in Ht. apply app_inv_head in Ht. rename Ht into H.
  destruct Hshape as [fr0|fr0|fr0 br0|e0|size|size ofs fr0 br0
                      |h e body tl Hbody Htl He|h body Hbody];
    try (exfalso; list_positions H pre; fail).
  - unfold table_prefix in H.
    do 6 (destruct pre as [|? pre]; simpl in H; [discriminate|];
          injection H as _ H).
    destruct (segment_body_copy _ _ _ _ _ _ Hbody H)
      as [Hgood|(pre' & Hin)]; [exact Hgood|].
    exfalso. destruct e; simpl in Htl; try contradiction.
    + subst tl. list_positions Hin pre'.
    + destruct Htl as (btr0 & fr0 & br0 & Hbad & ->).
      list_positions Hin pre'.
  - unfold table_prefix in H.
    do 6 (destruct pre as [|? pre]; simpl in H; [discriminate|];
          injection H as _ H).
    destruct (segment_body_copy _ _ _ _ _ _ Hbody H)
      as [Hgood|(pre' & Hin)]; [exact Hgood|].
    exfalso. list_positions Hin pre'.
Qed.

(** C5: the code at a failing input.  For [image32_small] (8 bytes of
    file, 16 of memory) the loader copies and flushes the 8 bytes, fills
    [0x1008 .. 0x100F] with zeros, and goes on to free, close and branch
    to the entry point: no flush covers the bytes of the fill.  For
    [image64_high] the copy goes to [0x100001000] and the flush that
    follows it is at [0x1000], the address converted to [uint32_t]. *)
Theorem zero_fill_is_not_flushed :
  trace (snd (load_elf32 "vxWorks.elf" (card32 image32_small)))
  = [EvMount FR_OK; EvOpen "vxWorks.elf" FR_OK;
     EvRead BufHeader 52 FR_OK 52; EvMalloc 32 true; EvSeek 52;
     EvRead BufTable 32 FR_OK 32; EvSeek 84; EvRead BufChunk 8 FR_OK 8;
     EvMemcpy 0x1000 [x01; x02; x03; x04; x05; x06; x07; x08];
     EvFlush 0x1000 8; EvMemset 0x1008 8; EvFree; EvClose;
     EvBranch 0x1000]
  /\ trace (snd (load_elf64 "bl31.elf" (card64 image64_high [])))
     = [EvMount FR_OK; EvOpen "bl31.elf" FR_OK;
        EvRead BufHeader 64 FR_OK 64; EvMalloc 56 true; EvSeek 64;
        EvRead BufTable 56 FR_OK 56; EvSeek 120; EvRead BufChunk 4 FR_OK 4;
        EvMemcpy 0x100001000 [x01; x02; x03; x04];
        EvFlush 0x1000 4; EvFree; EvClose].
Proof. split; vm_compute; reflexivity. Qed.

(** ** Memory writes *)

Lemma wrap_neg bits x :
  0 <= bits -> - 2 ^ bits <= x < 0 -> wrap bits x = x + 2 ^ bits.
Proof.
  intros Hb Hx. unfold wrap.
  rewrite <- (Z_mod_plus_full x 1 (2 ^ bits)).
  rewrite Z.mul_1_l. apply Z.mod_small. lia.
Qed.

Lemma lookup_default {A} (l : list A) (i : Z) (d : A) :
  0 <= i < len l -> l !! Z.to_nat i = Some (default d (l !! Z.to_nat i)).
Proof.
  intros Hi. destruct (l !! Z.to_nat i) eqn:E; [reflexivity|].
  apply lookup_ge_None in E. unfold len in Hi. lia.
Qed.

Lemma mem_write_inside b m dst data a :
  0 <= b -> 0 <= dst -> dst <= a < dst + len data ->
  dst + len data <= 2 ^ b ->
  data !! Z.to_nat (a - dst) = Some (mem_write b m dst data a).
Proof.
  intros Hb H0 Ha Hd. unfold mem_write.
  rewrite wrap_small by lia.
  destruct (a - dst <? len data) eqn:E; [|apply Z.ltb_ge in E; lia].
  apply lookup_default. lia.
Qed.

Lemma mem_write_outside b m dst data a :
  0 <= b -> 0 <= dst -> dst + len data <= 2 ^ b -> 0 <= a < 2 ^ b ->
  ~ (dst <= a < dst + len data) ->
  mem_write b m dst data a = m a.
Proof.
  intros Hb Hd Hl Ha Hout. unfold mem_write.
  pose proof (len_nonneg data).
  destruct (Z.lt_ge_cases a dst).
  - rewrite wrap_neg by lia.
    destruct (_ <? _) eqn:E; [apply Z.ltb_lt in E; lia|reflexivity].
  - rewrite wrap_small by lia.
    destruct (_ <? _) eqn:E; [apply Z.ltb_lt in E; lia|reflexivity].
Qed.

Lemma mem_fill_inside b m dst n v a :
  0 <= b -> 0 <= dst -> dst <= a < dst + n -> dst + n <= 2 ^ b ->
  mem_fill b m dst n v a = v.
Proof.
  intros Hb H0 Ha Hd. unfold mem_fill.
  rewrite wrap_small by lia.
  destruct (_ <? _) eqn:E; [reflexivity|apply Z.ltb_ge in E; lia].
Qed.

Lemma mem_fill_outside b m dst n v a :
  0 <= b -> 0 <= dst -> 0 <= n -> dst + n <= 2 ^ b -> 0 <= a < 2 ^ b ->
  ~ (dst <= a < dst + n) ->
  mem_fill b m dst n v a = m a.
Proof.
  intros Hb Hd Hn Hl Ha Hout. unfold mem_fill.
  destruct (Z.lt_ge_cases a dst).
  - rewrite wrap_neg by lia.
    destruct (_ <? _) eqn:E; [apply Z.ltb_lt in E; lia|reflexivity].
  - rewrite wrap_small by lia.
    destruct (_ <? _) eqn:E; [apply Z.ltb_lt in E; lia|reflexivity].
Qed.

(** ** Reads of a storage without faults *)

Lemma f_read_all dst btr w :
  Forall (eq RdAll) (rd_script w) ->
  exists w1,
    f_read dst btr w = (FR_OK, sub (file w) (fptr w) btr, w1)
    /\ file w1 = file w
    /\ fptr w1 = fptr w + len (sub (file w) (fptr w) btr)
    /\ mem w1 = mem w
    /\ Forall (eq RdAll) (rd_script w1)
    /\ heap_script w1 = heap_script w
    /\ FF_FS_EXFAT w1 = FF_FS_EXFAT w.
Proof.
  intros Hs. unfold f_read.
  assert (Hr : match rd_script w with [] => RdAll | r :: _ => r end = RdAll).
  { destruct Hs as [|r s <- Hs]; reflexivity. }
  rewrite Hr. eexists. split; [reflexivity|]. simpl.
  repeat split. destruct Hs; simpl; [constructor|assumption].
Qed.

Lemma le_decode_range bs : 0 <= le_decode bs < 256 ^ len bs.
Proof.
  induction bs as [|b bs IH].
  - simpl. unfold len. simpl. lia.
  - replace (len (b :: bs)) with (Z.succ (len bs))
      by (unfold len; simpl; lia).
    rewrite Z.pow_succ_r by apply len_nonneg.
    assert (0 <= byte_val b < 256).
    { unfold byte_val. pose proof (Byte.to_N_bounded b). lia. }
    simpl. lia.
Qed.

Lemma field_range bs off size :
  0 <= size -> 0 <= field bs off size < 2 ^ (8 * size).
Proof.
  intros Hs. unfold field.
  pose proof (le_decode_range (sub bs off size)) as H.
  assert (Hl : len (sub bs off size) <= size).
  { unfold len, sub. rewrite length_take. lia. }
  assert (256 ^ len (sub bs off size) <= 2 ^ (8 * size)).
  { change 256 with (2 ^ 8). rewrite <- Z.pow_mul_r by (try apply len_nonneg; lia).
    apply Z.pow_le_mono_r; [lia|]. pose proof (len_nonneg (sub bs off size)). lia. }
  lia.
Qed.

Lemma parse_Phdr_in_range c bs : phdr_in_range c (parse_Phdr c bs).
Proof.
  unfold phdr_in_range.
  destruct c; simpl; repeat split;
    first [ apply (field_range bs _ 4); lia
          | apply (field_range bs _ 8); lia ].
Qed.

(** ** What the segment loop leaves in memory *)

Lemma copy_loop_unfold c sm fuel loaded toread w :
  copy_loop c sm (S fuel) loaded toread w
  = if toread >? 0 then
      let chunkSize := if toread >? CHUNK_SIZE then CHUNK_SIZE else toread in
      let '(fr, buffer, w1) := f_read BufChunk chunkSize w in
      let bytesRead := len buffer in
      if negb (fr_ok fr) || (bytesRead =? 0) then
        (Err ShortSegmentRead, f_close (free w1))
      else
        copy_loop c sm fuel (wrap (bits c) (loaded + bytesRead))
          (wrap (bits c) (toread - bytesRead))
          (Xil_DCacheFlushRange
             (wrap 32 (ptr_add c (ptr_add c sm
                                    (wrap (bits c) (loaded + bytesRead)))
                               (- bytesRead)))
             bytesRead
             (memcpy (bits c) (ptr_add c sm loaded) buffer w1))
    else (Ok loaded, w).
Proof. reflexivity. Qed.

Lemma copy_loop_correct c sm fuel :
  forall loaded toread w,
    Forall (eq RdAll) (rd_script w) ->
    0 <= sm -> 0 <= loaded -> 0 <= toread ->
    sm + loaded + toread <= 2 ^ bits c ->
    loaded + toread < 2 ^ bits c ->
    0 <= fptr w -> fptr w + toread <= len (file w) ->
    (Z.to_nat toread < fuel)%nat ->
    exists w',
      copy_loop c sm fuel loaded toread w = (Ok (loaded + toread), w')
      /\ file w' = file w
      /\ Forall (eq RdAll) (rd_script w')
      /\ heap_script w' = heap_script w
      /\ FF_FS_EXFAT w' = FF_FS_EXFAT w
      /\ forall a, 0 <= a < 2 ^ bits c ->
           (sm + loaded <= a < sm + loaded + toread ->
            file w !! Z.to_nat (fptr w + (a - sm - loaded))
            = Some (mem w' a))
           /\ (~ (sm + loaded <= a < sm + loaded + toread) ->
               mem w' a = mem w a).
Proof.
  induction fuel as [|fuel IH];
    intros loaded toread w Hs Hsm Hl Ht Hsp Hlt Hfp Hfile Hfuel; [lia|].
  rewrite copy_loop_unfold.
  destruct (toread >? 0) eqn:Hgt.
  2: { assert (toread = 0) as -> by lia. rewrite Z.add_0_r.
       exists w. repeat split; auto; lia. }
  apply Z.gtb_lt in Hgt.
  set (chunk := if toread >? CHUNK_SIZE then CHUNK_SIZE else toread).
  assert (Hchunk : 0 < chunk <= toread).
  { unfold chunk, CHUNK_SIZE. destruct (toread >? 4096) eqn:E; lia. }
  destruct (f_read_all BufChunk chunk w Hs)
    as (w1 & Hrd & Hfile1 & Hfptr1 & Hmem1 & Hs1 & Hheap1 & Hex1).
  cbv zeta. rewrite Hrd.
  set (data := sub (file w) (fptr w) chunk) in *.
  assert (Hlen : len data = chunk).
  { unfold data. rewrite len_sub by lia. lia. }
  rewrite Hlen.
  replace (negb (fr_ok FR_OK) || (chunk =? 0)) with false
    by (simpl; symmetry; apply Z.eqb_neq; lia).
  pose proof (bits_pos c) as Hb.
  rewrite (wrap_small _ (loaded + chunk)) by lia.
  rewrite (wrap_small _ (toread - chunk)) by lia.
  unfold ptr_add at 3. rewrite (wrap_small _ (sm + loaded)) by lia.
  match goal with
  | |- context [copy_loop c sm fuel _ _ ?w3] =>
      destruct (IH (loaded + chunk) (toread - chunk) w3)
        as (w' & Hloop & Hfile' & Hs' & Hheap' & Hex' & Hmem');
        simpl; try rewrite Hfile1; try rewrite Hfptr1; try rewrite Hlen;
        try assumption; try lia
  end.
  rewrite Hloop. exists w'.
  split; [f_equal; f_equal; lia|].
  simpl in Hfile', Hheap', Hex'.
  split; [congruence|]. split; [assumption|].
  split; [congruence|]. split; [congruence|].
  intros a Ha. destruct (Hmem' a Ha) as [Hin Hout]. simpl in Hin, Hout.
  rewrite Hfile1, Hfptr1, Hlen in Hin.
  rewrite Hmem1 in Hout.
  split.
  - intros Hrange.
    destruct (Z.lt_ge_cases a (sm + loaded + chunk)) as [Hfirst|Hrest].
    + rewrite Hout by lia.
      rewrite <- (mem_write_inside (bits c) (mem w) (sm + loaded) data a)
        by lia.
      unfold data. rewrite sub_lookup by lia. f_equal. lia.
    + rewrite <- Hin by lia. f_equal. lia.
  - intros Hrange. rewrite Hout by lia.
    apply mem_write_outside; lia.
Qed.

Lemma load_segment_correct c ph w :
  Forall (eq RdAll) (rd_script w) ->
  phdr_in_range c ph -> phdr_fits c (len (file w)) ph ->
  len (file w) < 2 ^ FSIZE_bits w ->
  exists w',
    load_segment c ph w = (Ok (), w')
    /\ file w' = file w
    /\ Forall (eq RdAll) (rd_script w')
    /\ heap_script w' = heap_script w
    /\ FF_FS_EXFAT w' = FF_FS_EXFAT w
    /\ segment_loaded (file w) (mem w') ph
    /\ (forall a, 0 <= a < 2 ^ bits c -> ~ written ph a ->
                  mem w' a = mem w a).
Proof.
  intros Hs (Hoff & Hva & Hfsz & Hmsz) (Hext & Hdst) Hsize.
  pose proof (bits_pos c) as Hb. pose proof (FSIZE_bits_pos w) as Hfb.
  unfold load_segment.
  replace (wrap (bits c) (p_offset ph + p_filesz ph) >? f_size w) with false.
  2: { symmetry. rewrite Z.gtb_ltb. apply Z.ltb_ge.
       pose proof (wrap_le (bits c) (p_offset ph + p_filesz ph)).
       unfold f_size. lia. }
  set (w1 := f_lseek (p_offset ph) w).
  assert (Hfp1 : fptr w1 = p_offset ph).
  { unfold w1. cbn [fptr f_lseek emit set_file].
    rewrite wrap_small by lia. unfold f_size. lia. }
  assert (Hfile1 : file w1 = file w) by reflexivity.
  destruct (copy_loop_correct c (p_vaddr ph) (S (length (file w1))) 0
              (p_filesz ph) w1)
    as (w2 & Hloop & Hfile2 & Hs2 & Hheap2 & Hex2 & Hmem2).
  { exact Hs. }
  { lia. }
  { lia. }
  { lia. }
  { lia. }
  { lia. }
  { lia. }
  { rewrite Hfp1, Hfile1. lia. }
  { rewrite Hfile1. unfold len in Hext. lia. }
  rewrite Hloop. rewrite Z.add_0_l.
  assert (Hcopied : forall k, 0 <= k < p_filesz ph ->
            file w !! Z.to_nat (p_offset ph + k)
            = Some (mem w2 (p_vaddr ph + k))).
  { intros k Hk. destruct (Hmem2 (p_vaddr ph + k)) as [Hin _]; [lia|].
    rewrite <- Hin by lia. rewrite Hfp1. unfold w1. simpl.
    f_equal. lia. }
  assert (Hkept : forall a, 0 <= a < 2 ^ bits c ->
            ~ (p_vaddr ph <= a < p_vaddr ph + p_filesz ph) ->
            mem w2 a = mem w a).
  { intros a Ha Hout. destruct (Hmem2 a Ha) as [_ Hout2].
    rewrite Hout2 by lia. reflexivity. }
  unfold w1 in Hfile2, Hheap2, Hex2. simpl in Hfile2, Hheap2, Hex2.
  destruct (p_memsz ph >? p_filesz ph) eqn:Hfill.
  - apply Z.gtb_lt in Hfill.
    eexists. split; [reflexivity|]. simpl.
    unfold ptr_add. rewrite wrap_small by lia.
    split; [assumption|]. split; [assumption|].
    split; [assumption|]. split; [assumption|].
    split; [split|].
    + intros k Hk. rewrite mem_fill_outside by lia. apply Hcopied. lia.
    + intros k Hk. apply mem_fill_inside; lia.
    + intros a Ha Hout. unfold written in Hout.
      rewrite mem_fill_outside by lia. apply Hkept; lia.
  - rewrite Z.gtb_ltb in Hfill. apply Z.ltb_ge in Hfill.
    exists w2. split; [reflexivity|].
    split; [assumption|]. split; [assumption|].
    split; [assumption|]. split; [assumption|].
    split; [split|].
    + exact Hcopied.
    + intros k Hk. lia.
    + intros a Ha Hout. unfold written in Hout. apply Hkept; lia.
Qed.

Lemma load_segments_correct c phs :
  forall w,
    Forall (eq RdAll) (rd_script w) ->
    Forall (phdr_in_range c) phs ->
    Forall (phdr_fits c (len (file w))) phs ->
    len (file w) < 2 ^ FSIZE_bits w ->
    exists w',
      load_segments c phs w = (Ok (), w')
      /\ file w' = file w
      /\ heap_script w' = heap_script w
      /\ (forall a, 0 <= a < 2 ^ bits c ->
                    Forall (fun ph => ~ written ph a) phs ->
                    mem w' a = mem w a)
      /\ (forall (i : nat) ph,
             phs !! i = Some ph ->
             (forall (j : nat) ph',
                 (i < j)%nat -> phs !! j = Some ph' ->
                 disjoint_destinations ph ph') ->
             segment_loaded (file w) (mem w') ph).
Proof.
  induction phs as [|ph phs IH]; intros w Hs Hrange Hfits Hsize.
  - exists w. do 3 (split; [reflexivity|]). split; [auto|].
    intros i ph Hi. discriminate.
  - apply Forall_cons in Hrange as [Hr Hrange].
    apply Forall_cons in Hfits as [Hf Hfits].
    destruct (load_segment_correct c ph w Hs Hr Hf Hsize)
      as (w1 & Hseg & Hfile1 & Hs1 & Hheap1 & Hex1 & Hloaded & Hkept).
    destruct (IH w1) as (w' & Hsegs & Hfile' & Hheap' & Hkept' & Hloaded');
      try assumption.
    { rewrite Hfile1. assumption. }
    { rewrite Hfile1. unfold FSIZE_bits in *. rewrite Hex1. assumption. }
    exists w'. simpl. rewrite Hseg.
    split; [assumption|]. split; [congruence|]. split; [congruence|].
    split.
    + intros a Ha Hall. apply Forall_cons in Hall as [Hph Hall].
      rewrite Hkept' by assumption. apply Hkept; assumption.
    + intros [|i] ph0 Hi Hlater.
      * simpl in Hi. injection Hi as <-.
        assert (Hsame : forall a, 0 <= a < 2 ^ bits c -> written ph a ->
                                  mem w' a = mem w1 a).
        { intros a Ha Hw. apply Hkept'; [assumption|].
          apply Forall_forall. intros ph' Hin Hw'.
          apply list_elem_of_lookup in Hin as [j Hj].
          specialize (Hlater (S j) ph' ltac:(lia) Hj).
          unfold written, disjoint_destinations in *. lia. }
        destruct Hr as (_ & Hva & Hfsz & Hmsz). destruct Hf as (_ & Hdst).
        destruct Hloaded as [Hcopy Hfill]. split.
        -- intros k Hk. rewrite Hsame; [apply Hcopy; assumption| |];
             unfold written; lia.
        -- intros k Hk. rewrite Hsame; [apply Hfill; assumption| |];
             unfold written; lia.
      * simpl in Hi. rewrite <- Hfile1.
        apply (Hloaded' i ph0 Hi).
        intros j ph' Hij Hj. apply (Hlater (S j) ph'); [lia|exact Hj].
Qed.

Lemma table_entries_in_range c tbl n :
  Forall (phdr_in_range c) (table_entries c tbl n).
Proof.
  unfold table_entries. apply Forall_forall. intros ph Hin.
  apply list_elem_of_fmap in Hin as (i & -> & _).
  apply parse_Phdr_in_range.
Qed.

Lemma load_image_correct c file_name w content :
  sd_mount w = FR_OK ->
  sd_files w !! file_name = Some content ->
  faultless w ->
  len content < 2 ^ FSIZE_bits w ->
  sizeof_Ehdr c <= len content ->
  magic_ok (image_header c content) = true ->
  e_phoff (image_header c content) < len content ->
  e_phoff (image_header c content)
  + e_phnum (image_header c content) * sizeof_Phdr c <= len content ->
  Forall (phdr_fits c (len content)) (image_segments c content) ->
  exists w',
    load_image c file_name w = (Ok (image_header c content), w')
    /\ forall (i : nat) ph,
         image_segments c content !! i = Some ph ->
         (forall (j : nat) ph',
             (i < j)%nat -> image_segments c content !! j = Some ph' ->
             disjoint_destinations ph ph') ->
         segment_loaded content (mem w') ph.
Proof.
  intros Hm Hf [Hrs Hhs] Hsize Hhdr Hmagic Hphoff Htbl Hfits.
  unfold load_image, f_mount. rewrite Hm. cbn [fr_ok negb].
  unfold f_open. cbn [sd_files emit]. rewrite Hf. cbn [fr_ok negb].
  set (w0 := emit (EvOpen file_name FR_OK)
                  (set_file content 0 (emit (EvMount FR_OK) w))).
  destruct (f_read_all BufHeader (sizeof_Ehdr c) w0)
    as (w1 & Hrd1 & Hfile1 & Hfptr1 & _ & Hrs1 & Hheap1 & Hex1);
    [exact Hrs|].
  rewrite Hrd1.
  change (file w0) with content in *. change (fptr w0) with 0 in *.
  change (heap_script w0) with (heap_script w) in *.
  change (FF_FS_EXFAT w0) with (FF_FS_EXFAT w) in *.
  assert (Hhsz : 0 < sizeof_Ehdr c) by (destruct c; simpl; lia).
  assert (Hpsz : 0 < sizeof_Phdr c) by (destruct c; simpl; lia).
  assert (Hlen1 : len (sub content 0 (sizeof_Ehdr c)) = sizeof_Ehdr c).
  { rewrite len_sub by lia. lia. }
  rewrite Hlen1, Z.eqb_refl. cbn [fr_ok negb orb].
  fold (image_header c content). set (h := image_header c content) in *.
  rewrite Hmagic. cbn [negb].
  replace (e_phoff h >=? f_size w1) with false.
  2: { symmetry. unfold f_size. rewrite Hfile1. rewrite Z.geb_leb.
       apply Z.leb_gt. assumption. }
  assert (Hnum : 0 <= e_phnum h).
  { unfold h, image_header. destruct c; simpl; apply field_range; lia. }
  assert (Hoff : 0 <= e_phoff h).
  { unfold h, image_header. destruct c; simpl; apply field_range; lia. }
  unfold malloc.
  replace (match heap_script w1 with [] => true | b :: _ => b end) with true.
  2: { rewrite Hheap1. destruct Hhs as [|b s <- Hhs]; reflexivity. }
  cbn [negb].
  set (w2 := f_lseek (e_phoff h) _).
  assert (Hfile2 : file w2 = content) by (unfold w2; simpl; assumption).
  assert (Hfptr2 : fptr w2 = e_phoff h).
  { unfold w2, f_lseek, FSIZE_bits, f_size in *.
    cbn [fptr emit set_file set_heap_script file FF_FS_EXFAT].
    rewrite Hex1, Hfile1. rewrite wrap_small by lia. lia. }
  destruct (f_read_all BufTable (e_phnum h * sizeof_Phdr c) w2)
    as (w3 & Hrd3 & Hfile3 & Hfptr3 & _ & Hrs3 & Hheap3 & Hex3);
    [unfold w2; simpl; exact Hrs1|].
  rewrite Hrd3, Hfile2, Hfptr2.
  assert (Hlen3 : len (sub content (e_phoff h) (e_phnum h * sizeof_Phdr c))
                  = e_phnum h * sizeof_Phdr c).
  { rewrite len_sub by lia. lia. }
  rewrite Hlen3, Z.eqb_refl. cbn [fr_ok negb orb].
  fold (image_segments c content) in *.
  destruct (load_segments_correct c (image_segments c content) w3)
    as (w4 & Hsegs & Hfile4 & _ & _ & Hloaded).
  { exact Hrs3. }
  { apply table_entries_in_range. }
  { rewrite Hfile3, Hfile2. exact Hfits. }
  { rewrite Hfile3, Hfile2. unfold FSIZE_bits in *. rewrite Hex3.
    unfold w2. cbn [f_lseek emit set_file set_heap_script FF_FS_EXFAT].
    rewrite Hex1. exact Hsize. }
  change (image_segments c content)
    with (table_entries c
            (sub content (e_phoff h) (e_phnum h * sizeof_Phdr c))
            (e_phnum h)) in Hsegs.
  rewrite Hsegs. eexists. split; [reflexivity|].
  intros i ph Hi Hlater. simpl.
  rewrite Hfile3, Hfile2 in Hloaded. eapply Hloaded; eassumption.
Qed.


(** * Further properties of the loaders *)

(** ** Reads of any storage *)

Lemma f_read_any dst btr w fr data w1 :
  f_read dst btr w = (fr, data, w1) -> 0 <= fptr w ->
  file w1 = file w /\ mem w1 = mem w /\ FF_FS_EXFAT w1 = FF_FS_EXFAT w
  /\ fptr w1 = fptr w + len data
  /\ (0 <= btr -> len data <= btr)
  /\ (forall i, 0 <= i < len data ->
                data !! Z.to_nat i = file w !! Z.to_nat (fptr w + i)).
Proof.
  unfold f_read. intros H Hp.
  destruct (match rd_script w with [] => RdAll | r :: _ => r end) as [|n|fr'];
    inversion H; subst; clear H; simpl.
  - repeat split; try reflexivity.
    + intros Hb. unfold len, sub. rewrite length_take. lia.
    + intros i Hi. apply sub_lookup; [assumption|].
      unfold len, sub in Hi. rewrite length_take in Hi. lia.
  - repeat split; try reflexivity.
    + intros Hb. unfold len, sub. rewrite length_take. lia.
    + intros i Hi. apply sub_lookup; [assumption|].
      unfold len, sub in Hi. rewrite length_take in Hi. lia.
  - repeat split; try reflexivity; unfold len; simpl; intros; lia.
Qed.

Lemma f_read_clobbered dst btr w fr data w1 :
  f_read dst btr w = (fr, data, w1) ->
  clobbered w1 = clobbered w /\ occupied w1 = occupied w.
Proof.
  unfold f_read. intros H.
  destruct (match rd_script w with [] => RdAll | r :: _ => r end);
    inversion H; subst; clear H; simpl; auto.
Qed.

(** ** The chunk loop with any storage *)

Lemma copy_loop_any c sm fuel :
  forall loaded toread w r w',
    copy_loop c sm fuel loaded toread w = (r, w') ->
    0 <= sm -> 0 <= loaded -> 0 <= toread ->
    sm + loaded + toread <= 2 ^ bits c ->
    loaded + toread < 2 ^ bits c ->
    0 <= fptr w ->
    file w' = file w /\ FF_FS_EXFAT w' = FF_FS_EXFAT w
    /\ (forall a, 0 <= a < 2 ^ bits c ->
                  ~ (sm + loaded <= a < sm + loaded + toread) ->
                  mem w' a = mem w a)
    /\ (forall bl, r = Ok bl ->
          bl = loaded + toread
          /\ forall a, sm + loaded <= a < sm + loaded + toread ->
               file w !! Z.to_nat (fptr w + (a - sm - loaded))
               = Some (mem w' a)).
Proof.
  induction fuel as [|fuel IH];
    intros loaded toread w r w' H Hsm Hl Ht Hsp Hlt Hfp.
  - simpl in H. destruct (toread >? 0) eqn:Hgt; inversion H; subst; clear H.
    + do 2 (split; [reflexivity|]). split; [reflexivity|].
      intros bl Hbl. discriminate.
    + rewrite Z.gtb_ltb in Hgt. apply Z.ltb_ge in Hgt.
      do 2 (split; [reflexivity|]). split; [reflexivity|].
      intros bl Hbl. injection Hbl as <-. split; [lia|intros a Ha; lia].
  - rewrite copy_loop_unfold in H.
    destruct (toread >? 0) eqn:Hgt.
    2: { rewrite Z.gtb_ltb in Hgt. apply Z.ltb_ge in Hgt.
         inversion H; subst; clear H.
         do 2 (split; [reflexivity|]). split; [reflexivity|].
         intros bl Hbl. injection Hbl as <-.
         split; [lia|intros a Ha; lia]. }
    apply Z.gtb_lt in Hgt.
    set (chunk := if toread >? CHUNK_SIZE then CHUNK_SIZE else toread) in H.
    assert (Hchunk : 0 < chunk <= toread).
    { unfold chunk, CHUNK_SIZE. destruct (toread >? 4096) eqn:E; lia. }
    cbv zeta in H.
    destruct (f_read BufChunk chunk w) as [[fr buffer] w1] eqn:Hrd.
    apply f_read_any in Hrd
      as (Hfile1 & Hmem1 & Hex1 & Hfptr1 & Hlen1 & Hdata1); [|assumption].
    specialize (Hlen1 ltac:(lia)).
    destruct (negb (fr_ok fr) || (len buffer =? 0)) eqn:Hbad.
    { inversion H; subst; clear H. simpl.
      do 2 (split; [assumption|]). split.
      - intros a _ _. rewrite Hmem1. reflexivity.
      - intros bl Hbl. discriminate. }
    apply orb_false_iff in Hbad as [_ Hnz]. apply Z.eqb_neq in Hnz.
    pose proof (len_nonneg buffer) as Hnn.
    pose proof (bits_pos c) as Hb.
    rewrite (wrap_small _ (loaded + len buffer)) in H by lia.
    rewrite (wrap_small _ (toread - len buffer)) in H by lia.
    unfold ptr_add at 3 in H. rewrite (wrap_small _ (sm + loaded)) in H by lia.
    apply IH in H as (Hfile' & Hex' & Hout' & Hok'); simpl; try lia.
    simpl in Hfile', Hex', Hout', Hok'.
    split; [congruence|]. split; [congruence|]. split.
    + intros a Ha Hout. rewrite Hout' by lia. rewrite Hmem1.
      apply mem_write_outside; lia.
    + intros bl Hbl. destruct (Hok' bl Hbl) as [-> Hin]. split; [lia|].
      intros a Ha.
      destruct (Z.lt_ge_cases a (sm + loaded + len buffer)) as [Hfirst|Hrest].
      * rewrite Hout' by lia. rewrite Hmem1.
        rewrite <- (mem_write_inside (bits c) (mem w) (sm + loaded) buffer a)
          by lia.
        rewrite Hdata1 by lia. f_equal. lia.
      * rewrite <- Hin by lia. rewrite Hfile1, Hfptr1. f_equal. lia.
Qed.

(** ** One segment, and all of them, with any storage *)

Lemma load_segment_any c ph w r w' :
  load_segment c ph w = (r, w') ->
  phdr_in_range c ph -> destination_fits c ph ->
  file w' = file w /\ FF_FS_EXFAT w' = FF_FS_EXFAT w
  /\ (forall a, 0 <= a < 2 ^ bits c -> ~ written ph a ->
                mem w' a = mem w a)
  /\ (forall u, r = Ok u ->
        p_offset ph + p_filesz ph <= len (file w) ->
        len (file w) < 2 ^ FSIZE_bits w ->
        segment_loaded (file w) (mem w') ph).
Proof.
  intros H (Hoff & Hva & Hfsz & Hmsz) Hdst. unfold destination_fits in Hdst.
  pose proof (bits_pos c) as Hb. pose proof (FSIZE_bits_pos w) as Hfb.
  unfold load_segment in H.
  destruct (wrap (bits c) (p_offset ph + p_filesz ph) >? f_size w).
  { inversion H; subst; clear H. simpl.
    do 2 (split; [reflexivity|]). split; [reflexivity|].
    intros u Hu. discriminate. }
  set (w1 := f_lseek (p_offset ph) w) in H.
  assert (Hfile1 : file w1 = file w) by reflexivity.
  assert (Hmem1 : mem w1 = mem w) by reflexivity.
  assert (Hex1 : FF_FS_EXFAT w1 = FF_FS_EXFAT w) by reflexivity.
  assert (Hfp1 : fptr w1
                 = Z.min (wrap (FSIZE_bits w) (p_offset ph)) (len (file w)))
    by reflexivity.
  assert (Hfp0 : 0 <= fptr w1).
  { rewrite Hfp1. pose proof (wrap_nonneg (FSIZE_bits w) (p_offset ph)).
    pose proof (len_nonneg (file w)). lia. }
  destruct (copy_loop c (p_vaddr ph) _ 0 (p_filesz ph) w1)
    as [[bl|e] w2] eqn:Hloop;
    apply copy_loop_any in Hloop as (Hfile2 & Hex2 & Hout2 & Hok2);
    try lia.
  - destruct (Hok2 bl eq_refl) as [-> Hin2]. rewrite Z.add_0_l in H.
    assert (Hcopied : p_offset ph + p_filesz ph <= len (file w) ->
              len (file w) < 2 ^ FSIZE_bits w ->
              forall k, 0 <= k < p_filesz ph ->
                file w !! Z.to_nat (p_offset ph + k)
                = Some (mem w2 (p_vaddr ph + k))).
    { intros Hext Hsize k Hk. rewrite <- Hin2 by lia.
      rewrite Hfile1, Hfp1. rewrite wrap_small by lia.
      f_equal. lia. }
    assert (Hkept : forall a, 0 <= a < 2 ^ bits c ->
              ~ (p_vaddr ph <= a < p_vaddr ph + p_filesz ph) ->
              mem w2 a = mem w a).
    { intros a Ha Hout. rewrite Hout2 by lia. rewrite Hmem1. reflexivity. }
    destruct (p_memsz ph >? p_filesz ph) eqn:Hfill;
      inversion H; subst; clear H.
    + apply Z.gtb_lt in Hfill. simpl.
      unfold ptr_add. rewrite wrap_small by lia.
      split; [congruence|]. split; [congruence|]. split.
      * intros a Ha Hout. unfold written in Hout.
        rewrite mem_fill_outside by lia. apply Hkept; lia.
      * intros u _ Hext Hsize. split.
        -- intros k Hk. rewrite mem_fill_outside by lia.
           apply Hcopied; assumption.
        -- intros k Hk. apply mem_fill_inside; lia.
    + rewrite Z.gtb_ltb in Hfill. apply Z.ltb_ge in Hfill.
      split; [congruence|]. split; [congruence|]. split.
      * intros a Ha Hout. unfold written in Hout. apply Hkept; lia.
      * intros u _ Hext Hsize. split.
        -- apply Hcopied; assumption.
        -- intros k Hk. lia.
  - inversion H; subst; clear H.
    split; [congruence|]. split; [congruence|]. split.
    + intros a Ha Hout. unfold written in Hout.
      rewrite Hout2 by lia. rewrite Hmem1. reflexivity.
    + intros u Hu. discriminate.
Qed.

Lemma load_segments_any c phs :
  forall w r w',
    load_segments c phs w = (r, w') ->
    Forall (phdr_in_range c) phs -> Forall (destination_fits c) phs ->
    file w' = file w /\ FF_FS_EXFAT w' = FF_FS_EXFAT w
    /\ (forall a, 0 <= a < 2 ^ bits c ->
                  Forall (fun ph => ~ written ph a) phs ->
                  mem w' a = mem w a)
    /\ (forall u, r = Ok u ->
          Forall (fun ph => p_offset ph + p_filesz ph <= len (file w)) phs ->
          len (file w) < 2 ^ FSIZE_bits w ->
          forall (i : nat) ph,
            phs !! i = Some ph ->
            (forall (j : nat) ph',
                (i < j)%nat -> phs !! j = Some ph' ->
                disjoint_destinations ph ph') ->
            segment_loaded (file w) (mem w') ph).
Proof.
  induction phs as [|ph phs IH]; intros w r w' H Hrange Hdst.
  - inversion H; subst; clear H.
    do 2 (split; [reflexivity|]). split; [reflexivity|].
    intros u _ _ _ i ph Hi. discriminate.
  - apply Forall_cons in Hrange as [Hr Hrange].
    apply Forall_cons in Hdst as [Hd Hdst].
    simpl in H.
    destruct (load_segment c ph w) as [[[]|e] w1] eqn:Hseg;
      apply load_segment_any in Hseg as (Hfile1 & Hex1 & Hout1 & Hok1);
      try assumption.
    + apply IH in H as (Hfile' & Hex' & Hout' & Hok'); try assumption.
      split; [congruence|]. split; [congruence|]. split.
      * intros a Ha Hall. apply Forall_cons in Hall as [Hph Hall].
        rewrite Hout' by assumption. apply Hout1; assumption.
      * intros [] -> Hext Hsize. apply Forall_cons in Hext as [He Hext].
        intros [|i] ph0 Hi Hlater.
        -- simpl in Hi. injection Hi as <-.
           destruct (Hok1 () eq_refl He Hsize) as [Hcopy Hfill].
           assert (Hsame : forall a, 0 <= a < 2 ^ bits c -> written ph a ->
                                     mem w' a = mem w1 a).
           { intros a Ha Hw. apply Hout'; [assumption|].
             apply Forall_forall. intros ph' Hin Hw'.
             apply list_elem_of_lookup in Hin as [j Hj].
             specialize (Hlater (S j) ph' ltac:(lia) Hj).
             unfold written, disjoint_destinations in *. lia. }
           destruct Hr as (_ & Hva & Hfsz & Hmsz).
           unfold destination_fits in Hd. split.
           ++ intros k Hk. rewrite Hsame; [apply Hcopy; assumption| |];
                unfold written; lia.
           ++ intros k Hk. rewrite Hsame; [apply Hfill; assumption| |];
                unfold written; lia.
        -- simpl in Hi. rewrite <- Hfile1.
           eapply (Hok' () eq_refl); try eassumption.
           ++ rewrite Hfile1. exact Hext.
           ++ rewrite Hfile1. unfold FSIZE_bits in *. rewrite Hex1.
              exact Hsize.
           ++ intros j ph' Hij Hj. apply (Hlater (S j) ph'); [lia|exact Hj].
    + inversion H; subst; clear H.
      split; [congruence|]. split; [congruence|]. split.
      * intros a Ha Hall. apply Forall_cons in Hall as [Hph Hall].
        apply Hout1; assumption.
      * intros u Hu. discriminate.
Qed.

(** ** Loads that fail before the segment loop *)

Lemma load_segments_error_stage c phs w e w' :
  load_segments c phs w = (Err e, w') ->
  error_stage e = SegmentMaterializer.
Proof.
  intros H. apply load_segments_run in H as ((body & tl & _ & _ & Htl) & _).
  destruct e; simpl in Htl; try contradiction; reflexivity.
Qed.

Lemma load_image_early_memory c file_name w e :
  fst (load_image c file_name w) = Err e ->
  error_stage e <> SegmentMaterializer ->
  mem (snd (load_image c file_name w)) = mem w.
Proof.
  unfold load_image, f_mount, f_open. intros H Hstage.
  destruct (fr_ok (sd_mount w)); simpl in *; [|reflexivity].
  destruct (sd_files w !! file_name) as [content|]; simpl in *;
    [|reflexivity].
  match type of H with
  | context [f_read BufHeader ?n ?w0] =>
      destruct (f_read BufHeader n w0) as [[fr hbuf] w1] eqn:Hrd
  end.
  apply f_read_run in Hrd as (_ & _ & _ & Hmem1 & _).
  simpl in Hmem1.
  destruct (negb (fr_ok fr) || negb (len hbuf =? sizeof_Ehdr c));
    [exact Hmem1|].
  destruct (negb (magic_ok _)); [exact Hmem1|].
  destruct (e_phoff _ >=? f_size w1); [exact Hmem1|].
  destruct (match heap_script w1 with [] => true | b :: _ => b end);
    simpl in *; [|exact Hmem1].
  match type of H with
  | context [f_read BufTable ?n ?w0] =>
      destruct (f_read BufTable n w0) as [[fr2 tbl] w3] eqn:Hrd
  end.
  apply f_read_run in Hrd as (_ & _ & _ & Hmem3 & _).
  simpl in Hmem3.
  destruct (negb (fr_ok fr2) || _); [simpl; congruence|].
  destruct (load_segments c _ w3) as [[[]|e'] w4] eqn:Hsegs;
    simpl in H; [discriminate|].
  injection H as ->. apply load_segments_error_stage in Hsegs.
  contradiction.
Qed.

(** X1.  A load that fails in the storage access, the header validation or
    the program-header loading leaves the physical memory as it was,
    whatever the card, the file and the storage do. *)
Theorem early_failure_keeps_memory c file_name w e :
  fst (load_image c file_name w) = Err e ->
  error_stage e <> SegmentMaterializer ->
  mem (snd (load_image c file_name w)) = mem w.
Proof. apply load_image_early_memory. Qed.

Lemma early_failure_keeps_memory_witness :
  mem (snd (load_image ELF32 "vxWorks.elf" card_empty)) = mem card_empty.
Proof.
  apply (early_failure_keeps_memory ELF32 "vxWorks.elf" card_empty
           OpenFailure).
  - vm_compute. reflexivity.
  - discriminate.
Defined.

(** ** Loads that reach the segment loop *)

Lemma e_phoff_nonneg c bs : 0 <= e_phoff (parse_Ehdr c bs).
Proof. destruct c; simpl; apply field_range; lia. Qed.

Lemma e_phnum_nonneg c bs : 0 <= e_phnum (parse_Ehdr c bs).
Proof. destruct c; simpl; apply field_range; lia. Qed.

Lemma load_image_cases c name w content :
  sd_files w !! name = Some content ->
  len content < 2 ^ FSIZE_bits w ->
  (exists e, fst (load_image c name w) = Err e
             /\ error_stage e <> SegmentMaterializer)
  \/ (exists w3 rs w4,
         file w3 = content /\ mem w3 = mem w
         /\ FF_FS_EXFAT w3 = FF_FS_EXFAT w
         /\ load_segments c (image_segments c content) w3 = (rs, w4)
         /\ fst (load_image c name w)
            = match rs with
              | Ok _ => Ok (image_header c content)
              | Err e => Err e
              end
         /\ mem (snd (load_image c name w)) = mem w4
         /\ clobbered w3 = clobbered w /\ occupied w3 = occupied w
         /\ clobbered (snd (load_image c name w)) = clobbered w4).
Proof.
  unfold load_image, f_mount, f_open. intros Hf Hsize.
  destruct (fr_ok (sd_mount w)); simpl;
    [|left; eexists; split; [reflexivity|discriminate]].
  rewrite Hf. simpl.
  match goal with
  | |- context [f_read BufHeader ?n ?w0] =>
      destruct (f_read BufHeader n w0) as [[fr hbuf] w1] eqn:Hrd
  end.
  pose proof (f_read_run _ _ _ _ _ _ Hrd) as (_ & Hfile1 & _ & Hmem1 & Hb1 & _).
  pose proof (f_read_clobbered _ _ _ _ _ _ Hrd) as [Hcl1 Hown1].
  simpl in Hfile1, Hmem1, Hcl1, Hown1.
  assert (Hex1 : FF_FS_EXFAT w1 = FF_FS_EXFAT w) by frame.
  destruct (negb (fr_ok fr) || negb (len hbuf =? sizeof_Ehdr c)) eqn:Hhdr;
    [left; eexists; split; [reflexivity|discriminate]|].
  apply orb_false_iff in Hhdr as [Hfr Hlen].
  apply negb_false_iff, fr_ok_true in Hfr. subst fr.
  apply negb_false_iff, Z.eqb_eq in Hlen.
  apply f_read_full in Hrd; [|assumption]. simpl in Hrd. subst hbuf.
  fold (image_header c content). set (h := image_header c content).
  destruct (negb (magic_ok h));
    [left; eexists; split; [reflexivity|discriminate]|].
  destruct (e_phoff h >=? f_size w1) eqn:Hphoff;
    [left; eexists; split; [reflexivity|discriminate]|].
  rewrite Z.geb_leb in Hphoff. apply Z.leb_gt in Hphoff.
  unfold f_size in Hphoff. rewrite Hfile1 in Hphoff.
  unfold malloc.
  destruct (match heap_script w1 with [] => true | b :: _ => b end); simpl;
    [|left; eexists; split; [reflexivity|discriminate]].
  match goal with
  | |- context [f_read BufTable ?n ?w0] =>
      set (w2 := w0);
      destruct (f_read BufTable n w2) as [[fr tbl] w3] eqn:Hrd
  end.
  assert (Hfile2 : file w2 = content) by (unfold w2; simpl; assumption).
  assert (Hfptr2 : fptr w2 = e_phoff h).
  { unfold w2, f_lseek, FSIZE_bits, f_size in *.
    cbn [fptr emit set_file set_heap_script file FF_FS_EXFAT].
    rewrite Hex1, Hfile1.
    pose proof (e_phoff_nonneg c (sub content 0 (sizeof_Ehdr c))).
    fold (image_header c content) in *. fold h in H.
    rewrite wrap_small by lia. lia. }
  pose proof (f_read_run _ _ _ _ _ _ Hrd) as (_ & Hfile3 & _ & Hmem3 & Hb3 & _).
  pose proof (f_read_clobbered _ _ _ _ _ _ Hrd) as [Hcl3 Hown3].
  assert (Hex3 : FF_FS_EXFAT w3 = FF_FS_EXFAT w).
  { unfold same_board in Hb3. destruct Hb3 as (_ & _ & Hex3' & _).
    rewrite Hex3'. unfold w2. simpl. exact Hex1. }
  destruct (negb (fr_ok fr)
            || negb (len tbl =? e_phnum h * sizeof_Phdr c)) eqn:Htbl;
    [left; eexists; split; [reflexivity|discriminate]|].
  apply orb_false_iff in Htbl as [Hfr Hlen2].
  apply negb_false_iff, fr_ok_true in Hfr. subst fr.
  apply negb_false_iff, Z.eqb_eq in Hlen2.
  apply f_read_full in Hrd; [|assumption].
  rewrite Hfile2, Hfptr2 in Hrd. subst tbl.
  change (table_entries c
            (sub content (e_phoff h) (e_phnum h * sizeof_Phdr c))
            (e_phnum h))
    with (image_segments c content).
  right.
  destruct (load_segments c (image_segments c content) w3)
    as [rs w4] eqn:Hsegs.
  exists w3, rs, w4.
  split; [congruence|].
  split; [rewrite Hmem3; unfold w2; simpl; exact Hmem1|].
  split; [exact Hex3|]. split; [exact Hsegs|].
  assert (Hcl : clobbered w3 = clobbered w)
    by (rewrite Hcl3; unfold w2; simpl; exact Hcl1).
  assert (Hown : occupied w3 = occupied w)
    by (rewrite Hown3; unfold w2; simpl; exact Hown1).
  destruct rs as [[]|e]; simpl; auto.
Qed.

(** ** What a load writes, and where *)

Lemma load_image_frame c name w content :
  sd_files w !! name = Some content ->
  len content < 2 ^ FSIZE_bits w ->
  Forall (destination_fits c) (image_segments c content) ->
  forall a, 0 <= a < 2 ^ bits c ->
    Forall (fun ph => ~ written ph a) (image_segments c content) ->
    mem (snd (load_image c name w)) a = mem w a.
Proof.
  intros Hf Hsize Hdst a Ha Hout.
  destruct (load_image_cases c name w content Hf Hsize)
    as [(e & He & Hstage)|(w3 & rs & w4 & Hfile3 & Hmem3 & Hex3 & Hsegs
                           & _ & Hmem4 & _)].
  - rewrite (load_image_early_memory c name w e He Hstage). reflexivity.
  - rewrite Hmem4.
    apply load_segments_any in Hsegs as (_ & _ & Hkept & _);
      [|apply table_entries_in_range|assumption].
    rewrite Hkept by assumption. rewrite Hmem3. reflexivity.
Qed.


Lemma image32_small_segments :
  image_segments ELF32 image32_small
  = [ {| p_type := 1; p_offset := 84; p_vaddr := 4096; p_paddr := 4096;
         p_filesz := 8; p_memsz := 16; p_flags := 7; p_align := 4 |} ].
Proof. vm_compute. reflexivity. Qed.


Lemma load_image_partial c name w content h :
  sd_files w !! name = Some content ->
  len content < 2 ^ FSIZE_bits w ->
  Forall (phdr_fits c (len content)) (image_segments c content) ->
  fst (load_image c name w) = Ok h ->
  h = image_header c content
  /\ forall (i : nat) ph,
       image_segments c content !! i = Some ph ->
       (forall (j : nat) ph',
           (i < j)%nat -> image_segments c content !! j = Some ph' ->
           disjoint_destinations ph ph') ->
       segment_loaded content (mem (snd (load_image c name w))) ph.
Proof.
  intros Hf Hsize Hfits Hok.
  destruct (load_image_cases c name w content Hf Hsize)
    as [(e & He & Hstage)|(w3 & rs & w4 & Hfile3 & Hmem3 & Hex3 & Hsegs
                           & Hres & Hmem4 & _)].
  - rewrite He in Hok. discriminate.
  - rewrite Hres in Hok. destruct rs as [[]|e]; [|discriminate].
    injection Hok as <-. split; [reflexivity|].
    rewrite Hmem4.
    apply load_segments_any in Hsegs as (_ & _ & _ & Hloaded).
    + specialize (Hloaded () eq_refl). rewrite Hfile3 in Hloaded.
      apply Hloaded.
      * eapply Forall_impl; [exact Hfits|]. intros ph [He _]. exact He.
      * unfold FSIZE_bits in *. rewrite Hex3. exact Hsize.
    + apply table_entries_in_range.
    + eapply Forall_impl; [exact Hfits|]. intros ph [_ Hd]. exact Hd.
Qed.


(** ** Loading twice *)

Lemma load_segment_same c ph wA wB rA rB wA' wB' :
  load_segment c ph wA = (Ok rA, wA') ->
  load_segment c ph wB = (Ok rB, wB') ->
  file wA = file wB ->
  phdr_in_range c ph -> phdr_fits c (len (file wA)) ph ->
  len (file wA) < 2 ^ FSIZE_bits wA -> len (file wB) < 2 ^ FSIZE_bits wB ->
  forall a, 0 <= a < 2 ^ bits c ->
    mem wA a = mem wB a \/ written ph a ->
    mem wA' a = mem wB' a.
Proof.
  intros HA HB Hfile Hr [Hext Hd] HsA HsB a Ha Hor.
  apply load_segment_any in HA as (_ & _ & HoutA & HokA);
    [|assumption|exact Hd].
  apply load_segment_any in HB as (_ & _ & HoutB & HokB);
    [|assumption|exact Hd].
  destruct (HokA rA eq_refl Hext HsA) as [HcopyA HfillA].
  rewrite Hfile in Hext.
  destruct (HokB rB eq_refl Hext HsB) as [HcopyB HfillB].
  destruct Hr as (_ & Hva & Hfsz & Hmsz). unfold phdr_fits in *.
  destruct (Z.lt_ge_cases a (p_vaddr ph)) as [Hlow|Hlow].
  { rewrite HoutA, HoutB by (try assumption; unfold written; lia).
    destruct Hor as [Heq|Hw]; [exact Heq|unfold written in Hw; lia]. }
  destruct (Z.lt_ge_cases a (p_vaddr ph + p_filesz ph)) as [Hcopy|Hcopy].
  { specialize (HcopyA (a - p_vaddr ph) ltac:(lia)).
    specialize (HcopyB (a - p_vaddr ph) ltac:(lia)).
    replace (p_vaddr ph + (a - p_vaddr ph)) with a in * by lia.
    rewrite Hfile in HcopyA. congruence. }
  destruct (Z.lt_ge_cases a (p_vaddr ph + p_memsz ph)) as [Hfill|Hfill].
  { specialize (HfillA (a - p_vaddr ph) ltac:(lia)).
    specialize (HfillB (a - p_vaddr ph) ltac:(lia)).
    replace (p_vaddr ph + (a - p_vaddr ph)) with a in * by lia.
    congruence. }
  rewrite HoutA, HoutB by (try assumption; unfold written; lia).
  destruct Hor as [Heq|Hw]; [exact Heq|unfold written in Hw; lia].
Qed.

Lemma load_segments_same c phs :
  forall wA wB rA rB wA' wB',
    load_segments c phs wA = (Ok rA, wA') ->
    load_segments c phs wB = (Ok rB, wB') ->
    file wA = file wB ->
    Forall (phdr_in_range c) phs ->
    Forall (phdr_fits c (len (file wA))) phs ->
    len (file wA) < 2 ^ FSIZE_bits wA ->
    len (file wB) < 2 ^ FSIZE_bits wB ->
    forall a, 0 <= a < 2 ^ bits c ->
      mem wA a = mem wB a \/ Exists (fun ph => written ph a) phs ->
      mem wA' a = mem wB' a.
Proof.
  induction phs as [|ph phs IH];
    intros wA wB rA rB wA' wB' HA HB Hfile Hrange Hfits HsA HsB a Ha Hor.
  - inversion HA; inversion HB; subst.
    destruct Hor as [Heq|Hex]; [exact Heq|inversion Hex].
  - apply Forall_cons in Hrange as [Hr Hrange].
    apply Forall_cons in Hfits as [Hf Hfits].
    simpl in HA, HB.
    destruct (load_segment c ph wA) as [[uA|eA] wA1] eqn:HsegA;
      [|discriminate].
    destruct (load_segment c ph wB) as [[uB|eB] wB1] eqn:HsegB;
      [|discriminate].
    pose proof (load_segment_any _ _ _ _ _ HsegA Hr (proj2 Hf))
      as (HfileA & HexA & _).
    pose proof (load_segment_any _ _ _ _ _ HsegB Hr (proj2 Hf))
      as (HfileB & HexB & _).
    eapply (IH wA1 wB1); try eassumption.
    + congruence.
    + rewrite HfileA. exact Hfits.
    + rewrite HfileA. unfold FSIZE_bits in *. rewrite HexA. exact HsA.
    + rewrite HfileB. unfold FSIZE_bits in *. rewrite HexB. exact HsB.
    + destruct Hor as [Heq|Hex].
      * left. eapply load_segment_same; try eassumption. left. exact Heq.
      * apply Exists_cons in Hex as [Hw|Hex]; [|right; exact Hex].
        left. eapply load_segment_same; try eassumption. right. exact Hw.
Qed.

Lemma written_somewhere_or_nowhere phs a :
  Exists (fun ph => written ph a) phs
  \/ Forall (fun ph => ~ written ph a) phs.
Proof.
  induction phs as [|ph phs [IH|IH]].
  - right. constructor.
  - left. apply Exists_cons. right. exact IH.
  - assert (Hdec : written ph a \/ ~ written ph a)
      by (unfold written; lia).
    destruct Hdec as [Hw|Hw].
    + left. apply Exists_cons. left. exact Hw.
    + right. constructor; assumption.
Qed.

Lemma load_image_twice c name w content h h' :
  sd_files w !! name = Some content ->
  len content < 2 ^ FSIZE_bits w ->
  Forall (phdr_fits c (len content)) (image_segments c content) ->
  fst (load_image c name w) = Ok h ->
  fst (load_image c name (snd (load_image c name w))) = Ok h' ->
  forall a, 0 <= a < 2 ^ bits c ->
    mem (snd (load_image c name (snd (load_image c name w)))) a
    = mem (snd (load_image c name w)) a.
Proof.
  intros Hf Hsize Hfits Hok Hok' a Ha.
  set (w1 := snd (load_image c name w)) in *.
  assert (Hboard : same_board w w1).
  { unfold w1. destruct (load_image c name w) as [r w'] eqn:Hload.
    apply load_image_run in Hload as (_ & _ & _ & Hb). exact Hb. }
  destruct Hboard as (_ & Hfiles1 & Hex1 & _).
  assert (Hf1 : sd_files w1 !! name = Some content) by congruence.
  assert (Hsize1 : len content < 2 ^ FSIZE_bits w1)
    by (unfold FSIZE_bits in *; rewrite Hex1; exact Hsize).
  destruct (load_image_cases c name w content Hf Hsize)
    as [(e & He & _)|(w3 & rs & w4 & Hfile3 & Hmem3 & Hex3 & Hsegs
                      & Hres & Hmem4 & _)];
    [rewrite He in Hok; discriminate|].
  rewrite Hres in Hok. destruct rs as [u|e]; [|discriminate].
  destruct (load_image_cases c name w1 content Hf1 Hsize1)
    as [(e & He & _)|(w3' & rs' & w4' & Hfile3' & Hmem3' & Hex3' & Hsegs'
                      & Hres' & Hmem4' & _)];
    [rewrite He in Hok'; discriminate|].
  rewrite Hres' in Hok'. destruct rs' as [u'|e]; [|discriminate].
  fold w1 in Hmem4. rewrite Hmem4', Hmem4.
  assert (Hdst : Forall (destination_fits c) (image_segments c content)).
  { eapply Forall_impl; [exact Hfits|]. intros ph [_ Hd]. exact Hd. }
  destruct (written_somewhere_or_nowhere (image_segments c content) a)
    as [Hw|Hnw].
  - symmetry.
    eapply (load_segments_same c _ w3 w3'); try eassumption.
    + congruence.
    + apply table_entries_in_range.
    + rewrite Hfile3. exact Hfits.
    + rewrite Hfile3. unfold FSIZE_bits in *. rewrite Hex3. exact Hsize.
    + rewrite Hfile3'. unfold FSIZE_bits in *. rewrite Hex3'. exact Hsize1.
    + right. exact Hw.
  - apply load_segments_any in Hsegs' as (_ & _ & Hkept & _);
      [|apply table_entries_in_range|assumption].
    rewrite Hkept by assumption. rewrite Hmem3', Hmem4. reflexivity.
Qed.


(** ** The exits of the header validation and of the table loading *)

Lemma load_image_opened c name w content :
  sd_mount w = FR_OK -> sd_files w !! name = Some content ->
  load_image c name w = header_stage c (opened name content w).
Proof.
  intros Hm Hf. unfold load_image, f_mount, f_open. rewrite Hm. simpl.
  rewrite Hf. reflexivity.
Qed.

Lemma header_stage_complete c name w content :
  first_read_complete w -> sizeof_Ehdr c <= len content ->
  header_stage c (opened name content w)
  = let w1 := header_read c name content w in
    let h := image_header c content in
    if negb (magic_ok h) then (Err BadMagic, f_close w1) else
    if e_phoff h >=? len content then
      (Err InvalidProgramHeaderOffset, f_close w1) else
    table_stage c h w1.
Proof.
  intros Hfirst Hlen. unfold header_stage, header_read.
  assert (Hhsz : 0 < sizeof_Ehdr c) by (destruct c; simpl; lia).
  assert (Hrd : f_read BufHeader (sizeof_Ehdr c) (opened name content w)
                = (FR_OK, sub content 0 (sizeof_Ehdr c),
                   snd (f_read BufHeader (sizeof_Ehdr c)
                          (opened name content w)))).
  { unfold f_read, first_read_complete in *. simpl.
    destruct (rd_script w) as [|r s]; [reflexivity|]. subst r. reflexivity. }
  assert (Hfile : file (snd (f_read BufHeader (sizeof_Ehdr c)
                               (opened name content w))) = content).
  { destruct (f_read BufHeader (sizeof_Ehdr c) (opened name content w))
      as [[fr hbuf] w1] eqn:E.
    apply f_read_run in E as (_ & Hfile & _). exact Hfile. }
  rewrite Hrd. cbv zeta.
  rewrite len_sub by lia.
  replace (Z.min (sizeof_Ehdr c) (Z.max 0 (len content - 0)))
    with (sizeof_Ehdr c) by lia.
  rewrite Z.eqb_refl. cbn [fr_ok negb orb].
  unfold f_size. rewrite Hfile. reflexivity.
Qed.

Lemma header_read_trace c name w content :
  first_read_complete w -> sizeof_Ehdr c <= len content ->
  trace (header_read c name content w)
  = trace w ++ [EvMount FR_OK; EvOpen name FR_OK;
                EvRead BufHeader (sizeof_Ehdr c) FR_OK (sizeof_Ehdr c)]
  /\ heap_script (header_read c name content w) = heap_script w
  /\ file (header_read c name content w) = content.
Proof.
  intros Hfirst Hlen. unfold header_read, f_read, first_read_complete in *.
  assert (Hhsz : 0 < sizeof_Ehdr c) by (destruct c; simpl; lia).
  assert (Hl : len (sub content 0 (sizeof_Ehdr c)) = sizeof_Ehdr c).
  { rewrite len_sub by lia. lia. }
  simpl. destruct (rd_script w) as [|r s]; [|subst r]; simpl;
    rewrite Hl, <- !app_assoc; auto.
Qed.

Lemma magic_ok_signature c content :
  sizeof_Ehdr c <= len content ->
  magic_ok (image_header c content) = true <-> take 4 content = ELFMAG.
Proof.
  intros Hlen.
  destruct content as [|b0 [|b1 [|b2 [|b3 rest]]]];
    try (exfalso; destruct c; unfold len in Hlen; simpl in Hlen; lia).
  assert (He : exists tl, e_ident (image_header c (b0 :: b1 :: b2 :: b3 :: rest))
                          = b0 :: b1 :: b2 :: b3 :: tl).
  { destruct c; eexists; unfold image_header, parse_Ehdr, e_ident, sub;
      simpl; reflexivity. }
  destruct He as [tl He]. unfold magic_ok. rewrite He.
  unfold ELFMAG. simpl. split.
  - intros H. repeat (apply andb_true_iff in H as [H ?]).
    repeat match goal with
           | E : Byte.eqb _ _ = true |- _ => apply Byte.byte_dec_bl in E
           end.
    subst. reflexivity.
  - intros H. injection H as -> -> -> ->. reflexivity.
Qed.







Lemma table_stage_start c name w content :
  first_read_complete w -> sizeof_Ehdr c <= len content ->
  take 4 content = ELFMAG ->
  e_phoff (image_header c content) < len content ->
  header_stage c (opened name content w)
  = table_stage c (image_header c content) (header_read c name content w).
Proof.
  intros Hfirst Hlen Hsig Hoff.
  apply (proj2 (magic_ok_signature c content Hlen)) in Hsig.
  rewrite (header_stage_complete c _ _ _ Hfirst Hlen). cbv zeta.
  rewrite Hsig. cbn [negb].
  replace (e_phoff (image_header c content) >=? len content) with false
    by (symmetry; rewrite Z.geb_leb; apply Z.leb_gt; assumption).
  reflexivity.
Qed.

(** X8.  When the allocation of the program-header table fails, the load
    fails with [AllocationFailure]: the file is closed, nothing is freed,
    and no seek, table read or memory write is attempted. *)
Theorem allocation_failure_is_reported c file_name w content s :
  sd_mount w = FR_OK -> sd_files w !! file_name = Some content ->
  first_read_complete w -> sizeof_Ehdr c <= len content ->
  take 4 content = ELFMAG ->
  e_phoff (image_header c content) < len content ->
  heap_script w = false :: s ->
  fst (load_image c file_name w) = Err AllocationFailure
  /\ trace (snd (load_image c file_name w))
     = trace w ++ [EvMount FR_OK; EvOpen file_name FR_OK;
                   EvRead BufHeader (sizeof_Ehdr c) FR_OK (sizeof_Ehdr c);
                   EvMalloc (e_phnum (image_header c content)
                             * sizeof_Phdr c) false;
                   EvClose].
Proof.
  intros Hm Hf Hfirst Hlen Hsig Hoff Hheap.
  rewrite (load_image_opened c _ _ _ Hm Hf).
  rewrite (table_stage_start c _ _ _ Hfirst Hlen Hsig Hoff).
  destruct (header_read_trace c file_name w content Hfirst Hlen)
    as (Ht & Hh & _).
  unfold table_stage, malloc. rewrite Hh, Hheap. simpl.
  split; [reflexivity|]. rewrite Ht, <- !app_assoc. reflexivity.
Qed.

Lemma allocation_failure_is_reported_witness :
  fst (load_image ELF32 "vxWorks.elf" (failing_malloc (card32 image32_small)))
  = Err AllocationFailure
  /\ trace (snd (load_image ELF32 "vxWorks.elf"
                   (failing_malloc (card32 image32_small))))
     = trace (failing_malloc (card32 image32_small))
       ++ [EvMount FR_OK; EvOpen "vxWorks.elf" FR_OK;
           EvRead BufHeader (sizeof_Ehdr ELF32) FR_OK (sizeof_Ehdr ELF32);
           EvMalloc (e_phnum (image_header ELF32 image32_small)
                     * sizeof_Phdr ELF32) false;
           EvClose].
Proof.
  apply (allocation_failure_is_reported ELF32 "vxWorks.elf"
           (failing_malloc (card32 image32_small)) image32_small []).
  - reflexivity.
  - vm_compute. reflexivity.
  - exact I.
  - apply Z.leb_le. vm_compute. reflexivity.
  - vm_compute. reflexivity.
  - apply Z.ltb_lt. vm_compute. reflexivity.
  - reflexivity.
Defined.



(** ** The scratch buffer is never overrun *)

Lemma f_read_len dst btr w fr data w1 :
  f_read dst btr w = (fr, data, w1) -> 0 <= btr -> len data <= btr.
Proof.
  unfold f_read. intros H Hb.
  destruct (match rd_script w with [] => RdAll | r :: _ => r end);
    inversion H; subst; clear H; unfold len, sub;
    try rewrite length_take; simpl; lia.
Qed.

Lemma copy_loop_bounded c sm fuel :
  forall loaded toread w r w' new,
    copy_loop c sm fuel loaded toread w = (r, w') ->
    trace w' = trace w ++ new ->
    Forall chunk_bounded new.
Proof.
  induction fuel as [|fuel IH]; intros loaded toread w r w' new H Ht.
  - simpl in H. destruct (toread >? 0); inversion H; subst; clear H;
      rewrite <- (app_nil_r (trace w')) in Ht at 1;
      apply app_inv_head in Ht; subst new; constructor.
  - rewrite copy_loop_unfold in H.
    destruct (toread >? 0) eqn:Hgt.
    2: { inversion H; subst; clear H.
         rewrite <- (app_nil_r (trace w')) in Ht at 1.
         apply app_inv_head in Ht. subst new. constructor. }
    apply Z.gtb_lt in Hgt.
    set (chunk := if toread >? CHUNK_SIZE then CHUNK_SIZE else toread) in H.
    assert (Hchunk : 0 < chunk <= CHUNK_SIZE).
    { unfold chunk, CHUNK_SIZE. destruct (toread >? 4096) eqn:E; lia. }
    cbv zeta in H.
    destruct (f_read BufChunk chunk w) as [[fr buffer] w1] eqn:Hrd.
    pose proof (f_read_len _ _ _ _ _ _ Hrd ltac:(lia)) as Hlen.
    apply f_read_run in Hrd as (Ht1 & _).
    pose proof (len_nonneg buffer) as Hnn.
    destruct (negb (fr_ok fr) || (len buffer =? 0)) eqn:Hbad.
    { inversion H; subst; clear H. simpl in Ht.
      rewrite Ht1, <- !app_assoc in Ht. apply app_inv_head in Ht.
      subst new. repeat constructor; simpl; lia. }
    apply orb_false_iff in Hbad as [_ Hnz]. apply Z.eqb_neq in Hnz.
    pose proof (copy_loop_run _ _ _ _ _ _ _ _ H)
      as ((body & tl & Ht3 & _) & _).
    simpl in Ht3. rewrite Ht1, <- !app_assoc in Ht3. simpl in Ht3.
    rewrite Ht3 in Ht. apply app_inv_head in Ht. subst new.
    constructor; [simpl; lia|]. constructor; [simpl; lia|].
    constructor; [exact I|].
    eapply IH; [exact H|]. simpl. rewrite Ht1, Ht3, <- !app_assoc.
    reflexivity.
Qed.

Lemma load_segment_bounded c ph w r w' new :
  load_segment c ph w = (r, w') ->
  trace w' = trace w ++ new -> Forall chunk_bounded new.
Proof.
  unfold load_segment. intros H Ht.
  destruct (wrap (bits c) (p_offset ph + p_filesz ph) >? f_size w).
  { inversion H; subst; clear H. simpl in Ht.
    rewrite <- app_assoc in Ht. apply app_inv_head in Ht. subst new.
    repeat constructor. }
  destruct (copy_loop c (p_vaddr ph) _ 0 (p_filesz ph) _)
    as [[bytesLoaded|e] w2] eqn:Hloop.
  - pose proof (copy_loop_run _ _ _ _ _ _ _ _ Hloop)
      as ((body & tl & Ht2 & _ & ->) & _).
    rewrite app_nil_r in Ht2.
    assert (Hb : Forall chunk_bounded body)
      by (eapply copy_loop_bounded; [exact Hloop|exact Ht2]).
    simpl in Ht2.
    destruct (p_memsz ph >? p_filesz ph); inversion H; subst; clear H.
    + simpl in Ht. rewrite Ht2, <- !app_assoc in Ht. simpl in Ht.
      apply app_inv_head in Ht. subst new.
      constructor; [exact I|]. apply Forall_app. split; [exact Hb|].
      repeat constructor.
    + rewrite Ht2, <- !app_assoc in Ht. simpl in Ht.
      apply app_inv_head in Ht. subst new.
      constructor; [exact I|]. exact Hb.
  - inversion H; subst; clear H.
    pose proof (copy_loop_run _ _ _ _ _ _ _ _ Hloop)
      as ((body & tl & Ht2 & _) & _).
    assert (Hb : Forall chunk_bounded (body ++ tl))
      by (eapply copy_loop_bounded; [exact Hloop|exact Ht2]).
    simpl in Ht2. rewrite Ht2, <- !app_assoc in Ht. simpl in Ht.
    apply app_inv_head in Ht. subst new.
    constructor; [exact I|]. exact Hb.
Qed.

Lemma load_segments_bounded c phs :
  forall w r w' new,
    load_segments c phs w = (r, w') ->
    trace w' = trace w ++ new -> Forall chunk_bounded new.
Proof.
  induction phs as [|ph phs IH]; intros w r w' new H Ht; simpl in H.
  - inversion H; subst; clear H.
    rewrite <- (app_nil_r (trace w')) in Ht at 1.
    apply app_inv_head in Ht. subst new. constructor.
  - destruct (load_segment c ph w) as [[[]|e] w1] eqn:Hseg.
    + pose proof (load_segment_run _ _ _ _ _ Hseg)
        as ((b1 & t1 & Ht1 & _ & ->) & _).
      rewrite app_nil_r in Ht1.
      pose proof (load_segments_run _ _ _ _ _ H)
        as ((b2 & t2 & Ht2 & _) & _).
      rewrite Ht2, Ht1, <- app_assoc in Ht. apply app_inv_head in Ht.
      subst new. apply Forall_app. split.
      * eapply load_segment_bounded; [exact Hseg|exact Ht1].
      * eapply IH; [exact H|exact Ht2].
    + inversion H; subst; clear H.
      eapply load_segment_bounded; eassumption.
Qed.

Lemma load_image_bounded c name w new :
  trace (snd (load_image c name w)) = trace w ++ new ->
  Forall chunk_bounded new.
Proof.
  unfold load_image, f_mount, f_open. intros Ht.
  destruct (fr_ok (sd_mount w)); simpl in Ht.
  2: { apply app_inv_head in Ht. subst new. repeat constructor. }
  destruct (sd_files w !! name) as [content|]; simpl in Ht.
  2: { rewrite <- app_assoc in Ht. apply app_inv_head in Ht. subst new.
       repeat constructor. }
  match type of Ht with
  | context [f_read BufHeader ?n ?w0] =>
      destruct (f_read BufHeader n w0) as [[fr hbuf] w1] eqn:Hrd
  end.
  apply f_read_run in Hrd as (Ht1 & _).
  simpl in Ht1. rewrite <- !app_assoc in Ht1. simpl in Ht1.
  destruct (negb (fr_ok fr) || negb (len hbuf =? sizeof_Ehdr c)).
  { simpl in Ht. rewrite Ht1, <- !app_assoc in Ht.
    apply app_inv_head in Ht. subst new. repeat constructor. }
  destruct (negb (magic_ok _)).
  { simpl in Ht. rewrite Ht1, <- !app_assoc in Ht.
    apply app_inv_head in Ht. subst new. repeat constructor. }
  destruct (e_phoff _ >=? f_size w1).
  { simpl in Ht. rewrite Ht1, <- !app_assoc in Ht.
    apply app_inv_head in Ht. subst new. repeat constructor. }
  unfold malloc in Ht.
  destruct (match heap_script w1 with [] => true | b :: _ => b end);
    simpl in Ht.
  2: { rewrite Ht1, <- !app_assoc in Ht.
       apply app_inv_head in Ht. subst new. repeat constructor. }
  match type of Ht with
  | context [f_read BufTable ?n ?w0] =>
      destruct (f_read BufTable n w0) as [[fr2 tbl] w3] eqn:Hrd
  end.
  apply f_read_run in Hrd as (Ht3 & _).
  simpl in Ht3. rewrite Ht1, <- !app_assoc in Ht3. simpl in Ht3.
  destruct (negb (fr_ok fr2) || _).
  { simpl in Ht. rewrite Ht3, <- !app_assoc in Ht.
    apply app_inv_head in Ht. subst new. repeat constructor. }
  destruct (load_segments c _ w3) as [rs w4] eqn:Hsegs.
  pose proof (load_segments_run _ _ _ _ _ Hsegs)
    as ((body & tl & Ht4 & _) & _).
  assert (Hb : Forall chunk_bounded (body ++ tl))
    by (eapply load_segments_bounded; [exact Hsegs|exact Ht4]).
  destruct rs as [[]|e]; simpl in Ht;
    rewrite Ht4, Ht3, <- !app_assoc in Ht; simpl in Ht;
    apply app_inv_head in Ht; subst new.
  - repeat (constructor; [exact I|]).
    rewrite app_assoc. apply Forall_app. split; [exact Hb|].
    repeat constructor.
  - repeat (constructor; [exact I|]). exact Hb.
Qed.

(** X10.  In every load, whatever the image and the storage, each chunk
    read asks for between 1 and [CHUNK_SIZE] bytes, the size of the
    scratch buffer, and each copy to the destination moves between 1 and
    [CHUNK_SIZE] bytes: the scratch buffer is never overrun. *)
Theorem scratch_buffer_is_respected c file_name w :
  Forall chunk_bounded
         (drop (length (trace w)) (trace (snd (load_image c file_name w)))).
Proof.
  destruct (load_image c file_name w) as [r w'] eqn:Hload.
  pose proof (load_image_run _ _ _ _ _ Hload) as (new & Ht & _).
  simpl. rewrite Ht, drop_app_length.
  apply (load_image_bounded c file_name w). rewrite Hload. exact Ht.
Qed.

(** ** Segments without file bytes *)

(** X11.  An entry with [p_filesz = 0] whose offset is inside the file is
    placed without any read, so also when the storage is failing: the
    loop seeks, fills [p_memsz] bytes with zeros at [p_vaddr] and goes on. *)
Theorem empty_segment_needs_no_read c ph w :
  phdr_in_range c ph -> destination_fits c ph ->
  p_filesz ph = 0 -> p_offset ph <= len (file w) ->
  fst (load_segment c ph w) = Ok ()
  /\ rd_script (snd (load_segment c ph w)) = rd_script w
  /\ trace (snd (load_segment c ph w))
     = trace w ++ EvSeek (p_offset ph)
               :: (if p_memsz ph >? 0
                   then [EvMemset (p_vaddr ph) (p_memsz ph)] else [])
  /\ forall k, 0 <= k < p_memsz ph ->
       mem (snd (load_segment c ph w)) (p_vaddr ph + k) = x00.
Proof.
  intros (Hoff & Hva & _ & Hmsz) Hdst Hfsz Hext.
  unfold destination_fits in Hdst. rewrite Hfsz in Hdst.
  pose proof (bits_pos c) as Hb.
  unfold load_segment. rewrite Hfsz, Z.add_0_r.
  rewrite (wrap_small _ (p_offset ph)) by lia.
  replace (p_offset ph >? f_size w) with false
    by (symmetry; rewrite Z.gtb_ltb; apply Z.ltb_ge; exact Hext).
  simpl. unfold ptr_add. rewrite Z.add_0_r, Z.sub_0_r.
  rewrite (wrap_small _ (p_vaddr ph)) by lia.
  destruct (p_memsz ph >? 0) eqn:Hfill; simpl.
  - split; [reflexivity|]. split; [reflexivity|].
    split; [rewrite <- app_assoc; reflexivity|].
    intros k Hk. apply mem_fill_inside; lia.
  - split; [reflexivity|]. split; [reflexivity|].
    split; [reflexivity|].
    rewrite Z.gtb_ltb in Hfill. apply Z.ltb_ge in Hfill.
    intros k Hk. lia.
Qed.

Lemma empty_segment_needs_no_read_witness :
  let ph := {| p_type := PT_LOAD; p_offset := 84; p_vaddr := 0x3000;
               p_paddr := 0x3000; p_filesz := 0; p_memsz := 32;
               p_flags := 6; p_align := 4 |} in
  let w := set_file image32_small 0
             (failing_first_chunk FR_DISK_ERR (card32 image32_small)) in
  fst (load_segment ELF32 ph w) = Ok ()
  /\ rd_script (snd (load_segment ELF32 ph w)) = rd_script w
  /\ trace (snd (load_segment ELF32 ph w))
     = trace w ++ EvSeek (p_offset ph)
               :: (if p_memsz ph >? 0
                   then [EvMemset (p_vaddr ph) (p_memsz ph)] else [])
  /\ forall k, 0 <= k < p_memsz ph ->
       mem (snd (load_segment ELF32 ph w)) (p_vaddr ph + k) = x00.
Proof.
  apply (empty_segment_needs_no_read ELF32).
  - unfold phdr_in_range. simpl. lia.
  - unfold destination_fits. simpl. lia.
  - reflexivity.
  - apply Z.leb_le. vm_compute. reflexivity.
Defined.

(** ** The values returned *)

Lemma e_entry32_range bs : 0 <= e_entry (parse_Ehdr ELF32 bs) < 2 ^ 32.
Proof. simpl. apply (field_range bs 24 4). lia. Qed.

(** X12.  After a successful load, [load_elf32] branches to the address
    held by the [e_entry] field of the header at the start of the file,
    unmodified, as its last operation (after the free and the close), and
    the code after the branch returns 0. *)
Theorem load_elf32_branches_to_entry file_name w content h :
  sd_files w !! file_name = Some content ->
  fst (load_image ELF32 file_name w) = Ok h ->
  load_elf32 file_name w
  = (0, emit (EvBranch (e_entry (image_header ELF32 content)))
             (snd (load_image ELF32 file_name w))).
Proof.
  intros Hf Hok. unfold load_elf32.
  destruct (load_image ELF32 file_name w) as [r w'] eqn:Hload.
  simpl in Hok. subst r.
  rewrite (load_image_header ELF32 _ _ _ _ _ Hf Hload).
  rewrite wrap_small by apply e_entry32_range. reflexivity.
Qed.

Lemma load_elf32_branches_to_entry_witness :
  load_elf32 "vxWorks.elf" (card32 image32_small)
  = (0, emit (EvBranch (e_entry (image_header ELF32 image32_small)))
             (snd (load_image ELF32 "vxWorks.elf" (card32 image32_small)))).
Proof.
  apply (load_elf32_branches_to_entry "vxWorks.elf" (card32 image32_small)
           image32_small (image_header ELF32 image32_small)).
  - vm_compute. reflexivity.
  - vm_compute. reflexivity.
Defined.

(** X13.  The value returned by [load_elf64] tells a failure from a
    success: it is [2^64 - 1] exactly when the load failed, and below
    [2^32] when it succeeded. *)
Theorem load_elf64_result_tells_failure file_name w :
  (fst (load_elf64 file_name w) = 2 ^ 64 - 1
   /\ exists e, fst (load_image ELF64 file_name w) = Err e)
  \/ (0 <= fst (load_elf64 file_name w) < 2 ^ 32
      /\ exists h, fst (load_image ELF64 file_name w) = Ok h).
Proof.
  unfold load_elf64.
  destruct (load_image ELF64 file_name w) as [[h|e] w'].
  - right. simpl. split; [|eauto].
    pose proof (wrap_range 32 (e_entry h) ltac:(lia)) as Hr.
    rewrite (wrap_small 64) by lia. exact Hr.
  - left. simpl. split; [reflexivity|eauto].
Qed.

(** ** The registers after [main] *)

Lemma load_elf64_regs name w :
  regs (snd (load_elf64 name w)) = regs w
  /\ stack_addr (snd (load_elf64 name w)) = stack_addr w.
Proof.
  destruct (load_elf64 name w) as [r w'] eqn:H.
  apply load_elf64_run in H as (_ & _ & _ & Hb). simpl.
  unfold same_board in Hb. tauto.
Qed.

Lemma main_regs w :
  regs (Apu.main w)
  = <[Apu.RST_FPD_APU := 0]>
      (<[Apu.RVBARADDR3H := wrap 32 (fst (load_elf64 "bl31.elf" w))]>
      (<[Apu.RVBARADDR2H := wrap 32 (fst (load_elf64 "bl31.elf" w))]>
      (<[Apu.RVBARADDR1H := wrap 32 (fst (load_elf64 "bl31.elf" w))]>
      (<[Apu.RVBARADDR0H := wrap 32 (fst (load_elf64 "bl31.elf" w))]>
      (<[Apu.RVBARADDR3L := 0]>
      (<[Apu.RVBARADDR2L := 0]>
      (<[Apu.RVBARADDR1L := 0]>
      (<[Apu.RVBARADDR0L := 0]>
      (<[Apu.RST_FPD_APU := 15]>
      (<[Apu.GLOBAL_GEN_STORAGE6 := wrap 32 (stack_addr w)]>
         (regs w))))))))))).
Proof.
  unfold Apu.main.
  pose proof (load_elf64_regs "bl31.elf" w) as [Hr1 Hs1].
  destruct (load_elf64 "bl31.elf" w) as [r w1]. simpl in Hr1, Hs1.
  pose proof (load_elf64_regs "u-boot.elf" w1) as [Hr2 Hs2].
  destruct (load_elf64 "u-boot.elf" w1) as [r2 w2]. simpl in Hr2, Hs2.
  cbn [regs Apu.mock_fsbl_SetATFHandoffParams Apu.reset_apu_cores
       Apu.set_apu_rvba Apu.publish mmio_write mmio_read emit set_regs
       set_published stack_addr fst].
  rewrite Hr2, Hr1, Hs2, Hs1, !wrap_wrap. reflexivity.
Qed.


(** ** The handoff descriptor *)

(** X15.  For [EntryCount] below [MAX_ENTRIES] the descriptor built by
    [mock_fsbl_SetATFHandoffParams] has the entry point and the flags in
    slot [EntryCount] and nothing assigned in the nine other slots: the
    entries of earlier partitions are not carried over. *)
Theorem handoff_assigns_one_slot
    (EntryCount PartitionHeader PartitionFlags : Z) (w : World) :
  0 <= EntryCount < Apu.MAX_ENTRIES ->
  let d := fst (Apu.mock_fsbl_SetATFHandoffParams
                  EntryCount PartitionHeader PartitionFlags w) in
  length (Apu.Entry d) = 10%nat
  /\ Apu.Entry d !! Z.to_nat EntryCount
     = Some {| Apu.EntryPoint := Some PartitionHeader;
               Apu.PartitionFlags := Some PartitionFlags |}
  /\ forall i : nat,
       (i < 10)%nat -> i <> Z.to_nat EntryCount ->
       Apu.Entry d !! i = Some ATFHandoffEntry_fresh.
Proof.
  intros Hrange. cbv zeta. unfold Apu.mock_fsbl_SetATFHandoffParams.
  replace (EntryCount <? Apu.MAX_ENTRIES) with true
    by (symmetry; apply Z.ltb_lt; lia).
  unfold Apu.MAX_ENTRIES in Hrange.
  destruct (EntryCount =? 0);
    cbn [fst Apu.Entry Apu.set_Entry Apu.set_NumEntries Apu.set_MagicValue
         Apu.ATFHandoffParams_fresh];
    change (Z.to_nat 10) with 10%nat;
    (split; [rewrite !length_alter, length_replicate; reflexivity|]);
    (split;
     [ rewrite !list_lookup_alter_eq;
       rewrite (lookup_replicate_2 10 _ (Z.to_nat EntryCount)) by lia;
       reflexivity
     | intros i Hi Hne;
       rewrite !list_lookup_alter_ne by congruence;
       apply lookup_replicate_2; exact Hi ]).
Qed.

Lemma handoff_assigns_one_slot_witness :
  let d := fst (Apu.mock_fsbl_SetATFHandoffParams 3 0x8000 0 card_empty) in
  length (Apu.Entry d) = 10%nat
  /\ Apu.Entry d !! Z.to_nat 3
     = Some {| Apu.EntryPoint := Some 0x8000;
               Apu.PartitionFlags := Some 0 |}
  /\ forall i : nat,
       (i < 10)%nat -> i <> Z.to_nat 3 ->
       Apu.Entry d !! i = Some ATFHandoffEntry_fresh.
Proof.
  apply (handoff_assigns_one_slot 3 0x8000 0 card_empty).
  unfold Apu.MAX_ENTRIES. lia.
Defined.


(** * [print_buffer] *)

Lemma length_hex_digits d v : length (hex_digits d v) = d.
Proof.
  revert v. induction d as [|d IH]; intros v; simpl; [reflexivity|].
  rewrite length_app, IH. simpl. lia.
Qed.

Lemma length_hex_cell c buffer size i j :
  length (hex_cell c buffer size i j) = 3%nat.
Proof.
  unfold hex_cell. destruct (cell_in_range c size i j); [|reflexivity].
  rewrite length_app, length_hex_digits. reflexivity.
Qed.

Lemma length_ascii_cell c buffer size i j :
  length (ascii_cell c buffer size i j)
  = if cell_in_range c size i j then 1%nat else 0%nat.
Proof.
  unfold ascii_cell. destruct (cell_in_range c size i j); [|reflexivity].
  destruct (_ && _); reflexivity.
Qed.

Lemma sixteen_cells :
  seqZ 0 bytes_per_line = [0; 1; 2; 3; 4; 5; 6; 7; 8; 9; 10; 11; 12; 13; 14; 15].
Proof. reflexivity. Qed.

Lemma len_print_line c buffer size i :
  0 <= i < size -> i + 16 <= 2 ^ bits c ->
  len (print_line c buffer size i) = 63 + Z.min 16 (size - i).
Proof.
  intros Hi Hb. unfold print_line, len.
  rewrite sixteen_cells. cbn [map concat].
  rewrite !length_app, length_hex_digits, !length_hex_cell,
    !length_ascii_cell.
  unfold cell_in_range. cbn [length].
  rewrite !(wrap_small (bits c)) by lia.
  repeat match goal with
         | |- context [?a <? ?b] =>
             destruct (Z.ltb_spec a b); try (exfalso; lia)
         end; lia.
Qed.

Lemma dump_lines_step r :
  0 < r -> dump_lines r = 1 + dump_lines (r - 16) /\ 0 <= dump_lines (r - 16).
Proof.
  intros Hr. unfold dump_lines.
  replace (r + 15) with (r - 16 + 15 + 1 * 16) by lia.
  rewrite Z.div_add by lia.
  assert (0 <= (r - 16 + 15) / 16) by (apply Z.div_pos; lia).
  lia.
Qed.

Lemma dump_lines_done r : -15 <= r <= 0 -> dump_lines r = 0.
Proof. intros Hr. unfold dump_lines. apply Z.div_small. lia. Qed.

Lemma print_lines_unfold c buffer size fuel i :
  print_lines c buffer size (S fuel) i
  = if i <? size then
      match print_lines c buffer size fuel
              (wrap (bits c) (i + bytes_per_line)) with
      | Some rest => Some (print_line c buffer size i ++ rest)
      | None => None
      end
    else Some [].
Proof. reflexivity. Qed.

Lemma print_lines_length c buffer size fuel :
  forall i,
    0 <= i <= size + 15 -> size <= 2 ^ bits c - 16 ->
    (Z.to_nat (dump_lines (size - i)) <= fuel)%nat ->
    exists out,
      print_lines c buffer size fuel i = Some out
      /\ len out = 63 * dump_lines (size - i) + Z.max 0 (size - i).
Proof.
  induction fuel as [|fuel IH]; intros i Hi Hsize Hfuel.
  - simpl. destruct (i <? size) eqn:Hlt.
    + apply Z.ltb_lt in Hlt.
      destruct (dump_lines_step (size - i)) as [Hs Hnn]; [lia|].
      lia.
    + apply Z.ltb_ge in Hlt. exists []. split; [reflexivity|].
      rewrite dump_lines_done by lia. unfold len. simpl. lia.
  - rewrite print_lines_unfold. destruct (i <? size) eqn:Hlt.
    + apply Z.ltb_lt in Hlt.
      destruct (dump_lines_step (size - i)) as [Hs Hnn]; [lia|].
      unfold bytes_per_line. rewrite wrap_small by lia.
      destruct (IH (i + 16)) as (rest & -> & Hrest); try lia.
      { replace (size - (i + 16)) with (size - i - 16) by lia. lia. }
      eexists. split; [reflexivity|].
      rewrite len_app, len_print_line, Hrest by lia.
      replace (size - (i + 16)) with (size - i - 16) by lia. lia.
    + apply Z.ltb_ge in Hlt. exists []. split; [reflexivity|].
      rewrite dump_lines_done by lia. unfold len. simpl. lia.
Qed.

(** X17.  For a buffer of [size] bytes, [size] at most the largest
    [size_t] minus 16, [print_buffer] returns after having printed one
    line per 16 bytes started, each of 63 characters plus one per byte of
    the line: [63 * ceil(size / 16) + size] characters in all, and nothing
    for an empty buffer. *)
Theorem print_buffer_length c buffer size :
  0 <= size <= 2 ^ bits c - 16 ->
  exists out,
    print_buffer c buffer size = Some out
    /\ len out = 63 * dump_lines size + size.
Proof.
  intros Hsize. unfold print_buffer.
  destruct (print_lines_length c buffer size
              (Z.to_nat (size / bytes_per_line + 1)) 0)
    as (out & Hout & Hlen); try lia.
  - rewrite Z.sub_0_r. unfold dump_lines, bytes_per_line.
    assert ((size + 15) / 16 <= size / 16 + 1).
    { replace (size / 16 + 1) with ((size + 1 * 16) / 16)
        by (rewrite Z.div_add by lia; reflexivity).
      apply Z.div_le_mono; lia. }
    lia.
  - exists out. split; [exact Hout|]. rewrite Hlen, Z.sub_0_r. lia.
Qed.

Lemma print_buffer_length_witness :
  exists out,
    print_buffer ELF32 image32_small 20 = Some out
    /\ len out = 63 * dump_lines 20 + 20.
Proof.
  apply (print_buffer_length ELF32 image32_small 20). simpl. lia.
Defined.

(** ** What is printed *)

Lemma hex_digit_safe v : console_safe (hex_digit (v mod 16)) = true.
Proof.
  pose proof (Z.mod_pos_bound v 16 ltac:(lia)) as Hr.
  set (x := v mod 16) in *.
  assert (H : x = 0 \/ x = 1 \/ x = 2 \/ x = 3 \/ x = 4 \/ x = 5 \/ x = 6
              \/ x = 7 \/ x = 8 \/ x = 9 \/ x = 10 \/ x = 11 \/ x = 12
              \/ x = 13 \/ x = 14 \/ x = 15) by lia.
  repeat destruct H as [H|H]; rewrite H; reflexivity.
Qed.

Lemma hex_digits_safe d :
  forall v, Forall (fun a => console_safe a = true) (hex_digits d v).
Proof.
  induction d as [|d IH]; intros v; simpl; [constructor|].
  apply Forall_app. split; [apply IH|].
  constructor; [apply hex_digit_safe|constructor].
Qed.

Lemma text_of_byte_safe b :
  console_safe (if (byte_val b >=? 32) && (byte_val b <? 127)
                then Ascii.ascii_of_byte b else ch_dot) = true.
Proof. destruct b; reflexivity. Qed.

Lemma hex_cell_safe c buffer size i j :
  Forall (fun a => console_safe a = true) (hex_cell c buffer size i j).
Proof.
  unfold hex_cell. destruct (cell_in_range c size i j).
  - apply Forall_app. split; [apply hex_digits_safe|].
    repeat constructor.
  - repeat constructor.
Qed.

Lemma ascii_cell_safe c buffer size i j :
  Forall (fun a => console_safe a = true) (ascii_cell c buffer size i j).
Proof.
  unfold ascii_cell. destruct (cell_in_range c size i j); [|constructor].
  cbv zeta. pose proof (text_of_byte_safe (buffer_at c buffer i j)) as H.
  destruct ((byte_val (buffer_at c buffer i j) >=? 32)
            && (byte_val (buffer_at c buffer i j) <? 127));
    constructor; [exact H|constructor|exact H|constructor].
Qed.

Lemma print_line_safe c buffer size i :
  Forall (fun a => console_safe a = true) (print_line c buffer size i).
Proof.
  unfold print_line.
  apply Forall_app; split; [apply hex_digits_safe|].
  apply Forall_app; split; [repeat constructor|].
  apply Forall_app; split.
  { apply Forall_concat, Forall_fmap, Forall_forall. intros j _.
    apply hex_cell_safe. }
  apply Forall_app; split; [repeat constructor|].
  apply Forall_app; split; [|repeat constructor].
  apply Forall_concat, Forall_fmap, Forall_forall. intros j _.
  apply ascii_cell_safe.
Qed.

Lemma print_lines_safe c buffer size fuel :
  forall i out,
    print_lines c buffer size fuel i = Some out ->
    Forall (fun a => console_safe a = true) out.
Proof.
  induction fuel as [|fuel IH]; intros i out H.
  - simpl in H. destruct (i <? size); [discriminate|].
    injection H as <-. constructor.
  - rewrite print_lines_unfold in H. destruct (i <? size).
    + destruct (print_lines c buffer size fuel _) as [rest|] eqn:Hrest;
        [|discriminate].
      assert (out = print_line c buffer size i ++ rest) as ->
        by congruence.
      apply Forall_app. split.
      * apply print_line_safe.
      * eapply IH. exact Hrest.
    + injection H as <-. constructor.
Qed.

(** X18.  Whatever the bytes of the buffer, every character that
    [print_buffer] prints is a printable ASCII character (code 32 to 126),
    a carriage return or a line feed: bytes outside the printable range
    show as a dot in the text column. *)
Theorem print_buffer_output_is_console_safe c buffer size out :
  print_buffer c buffer size = Some out ->
  Forall (fun a => console_safe a = true) out.
Proof. apply print_lines_safe. Qed.

Lemma print_buffer_output_is_console_safe_witness :
  exists out,
    print_buffer ELF32 [x7f; x45; x00; xff] 4 = Some out
    /\ Forall (fun a => console_safe a = true) out.
Proof.
  eexists. split; [vm_compute; reflexivity|].
  apply (print_buffer_output_is_console_safe ELF32 [x7f; x45; x00; xff] 4).
  reflexivity.
Defined.

(** ** The end of the range of [size_t] *)





(** ** The bytes read *)

Lemma buffer_at_take c buffer size i j :
  cell_in_range c size i j = true ->
  buffer_at c (take (Z.to_nat size) buffer) i j = buffer_at c buffer i j.
Proof.
  unfold cell_in_range, buffer_at. intros H. apply Z.ltb_lt in H.
  pose proof (wrap_nonneg (bits c) (i + j)) as Hnn.
  pose proof (bits_pos c). rewrite lookup_take_lt by lia. reflexivity.
Qed.

Lemma print_line_take c buffer size i :
  print_line c (take (Z.to_nat size) buffer) size i
  = print_line c buffer size i.
Proof.
  unfold print_line. f_equal. f_equal. f_equal; [|f_equal; f_equal].
  - f_equal. apply map_ext. intros j. unfold hex_cell.
    destruct (cell_in_range c size i j) eqn:E; [|reflexivity].
    rewrite buffer_at_take by exact E. reflexivity.
  - f_equal. apply map_ext. intros j. unfold ascii_cell.
    destruct (cell_in_range c size i j) eqn:E; [|reflexivity].
    rewrite buffer_at_take by exact E. reflexivity.
Qed.

Lemma print_lines_take c buffer size fuel :
  forall i,
    print_lines c (take (Z.to_nat size) buffer) size fuel i
    = print_lines c buffer size fuel i.
Proof.
  induction fuel as [|fuel IH]; intros i; [reflexivity|].
  rewrite !print_lines_unfold, IH, print_line_take. reflexivity.
Qed.

(** X20.  [print_buffer] reads the first [size] bytes of the buffer and
    no other: two buffers with the same first [size] bytes give the same
    dump. *)
Theorem print_buffer_reads_size_bytes c buffer buffer' size :
  take (Z.to_nat size) buffer = take (Z.to_nat size) buffer' ->
  print_buffer c buffer size = print_buffer c buffer' size.
Proof.
  intros H. unfold print_buffer.
  rewrite <- (print_lines_take c buffer), <- (print_lines_take c buffer').
  rewrite H. reflexivity.
Qed.

Lemma print_buffer_reads_size_bytes_witness :
  print_buffer ELF32 [x41; x42; x43] 2 = print_buffer ELF32 [x41; x42] 2.
Proof.
  apply (print_buffer_reads_size_bytes ELF32 [x41; x42; x43] [x41; x42] 2).
  reflexivity.
Defined.

(** * The loader's own storage and the device registers *)

(** ** Writes that stay inside a validated destination *)

Lemma existsb_false_impl {A} (f g : A -> bool) (l : list A) :
  (forall x, f x = false -> g x = false) ->
  existsb f l = false -> existsb g l = false.
Proof.
  intros Himp. induction l as [|x l IH]; simpl; [reflexivity|].
  intros H. apply orb_false_iff in H as [Hx Hl].
  rewrite (Himp x Hx), (IH Hl). reflexivity.
Qed.

Lemma hits_within p v M dst n range :
  0 <= v -> v <= dst -> 0 <= n -> dst + n <= v + M -> v + M <= 2 ^ p ->
  hits p v M range = false -> hits p dst n range = false.
Proof.
  intros Hv Hd Hn Hin Hfit. unfold hits, overlaps.
  destruct range as [b m]. simpl. set (P := 2 ^ p) in *.
  rewrite (Z.min_l M) by lia. rewrite (Z.min_l n) by lia.
  intros H. apply orb_false_iff in H as [H _].
  apply orb_false_iff. split.
  - destruct (Z.ltb_spec 0 n), (Z.ltb_spec 0 m), (Z.ltb_spec dst (b + m)),
      (Z.ltb_spec b (dst + n)); simpl; try reflexivity.
    destruct (Z.ltb_spec 0 M), (Z.ltb_spec v (b + m)),
      (Z.ltb_spec b (v + M)); simpl in H; try discriminate; lia.
  - destruct (Z.ltb_spec 0 (dst + n - P)); [lia|reflexivity].
Qed.

Lemma copy_loop_clear c sm M fuel :
  forall loaded toread w r w',
    copy_loop c sm fuel loaded toread w = (r, w') ->
    0 <= sm -> 0 <= loaded -> 0 <= toread ->
    loaded + toread <= M -> sm + M <= 2 ^ bits c ->
    loaded + toread < 2 ^ bits c ->
    existsb (hits (bits c) sm M) (reserved w) = false ->
    clobbered w = false ->
    clobbered w' = false /\ occupied w' = occupied w
    /\ (forall bl, r = Ok bl -> bl = loaded + toread).
Proof.
  induction fuel as [|fuel IH];
    intros loaded toread w r w' H Hsm Hl Ht HM Hfit Hlt Hclear Hcl.
  - simpl in H. destruct (toread >? 0) eqn:Hgt; inversion H; subst; clear H.
    + do 2 (split; [assumption || reflexivity|]). intros bl Hbl. discriminate.
    + rewrite Z.gtb_ltb in Hgt. apply Z.ltb_ge in Hgt.
      do 2 (split; [assumption || reflexivity|]).
      intros bl Hbl. injection Hbl as <-. lia.
  - rewrite copy_loop_unfold in H.
    destruct (toread >? 0) eqn:Hgt.
    2: { rewrite Z.gtb_ltb in Hgt. apply Z.ltb_ge in Hgt.
         inversion H; subst; clear H.
         do 2 (split; [assumption || reflexivity|]).
         intros bl Hbl. injection Hbl as <-. lia. }
    apply Z.gtb_lt in Hgt.
    set (chunk := if toread >? CHUNK_SIZE then CHUNK_SIZE else toread) in H.
    assert (Hchunk : 0 < chunk <= toread).
    { unfold chunk, CHUNK_SIZE. destruct (toread >? 4096) eqn:E; lia. }
    cbv zeta in H.
    destruct (f_read BufChunk chunk w) as [[fr buffer] w1] eqn:Hrd.
    pose proof (f_read_clobbered _ _ _ _ _ _ Hrd) as [Hcl1 Hown1].
    assert (Hlen1 : len buffer <= chunk).
    { unfold f_read in Hrd.
      destruct (match rd_script w with [] => RdAll | r :: _ => r end);
        inversion Hrd; subst; clear Hrd; unfold len, sub; simpl;
        try rewrite length_take; lia. }
    destruct (negb (fr_ok fr) || (len buffer =? 0)) eqn:Hbad.
    { inversion H; subst; clear H. simpl.
      split; [congruence|]. split; [assumption|].
      intros bl Hbl. discriminate. }
    apply orb_false_iff in Hbad as [_ Hnz]. apply Z.eqb_neq in Hnz.
    pose proof (len_nonneg buffer) as Hnn.
    pose proof (bits_pos c) as Hb.
    rewrite (wrap_small _ (loaded + len buffer)) in H by lia.
    rewrite (wrap_small _ (toread - len buffer)) in H by lia.
    unfold ptr_add at 3 in H. rewrite (wrap_small _ (sm + loaded)) in H by lia.
    assert (Hres1 : reserved w1 = reserved w)
      by (unfold reserved; rewrite Hown1; reflexivity).
    apply IH in H as (Hcl' & Hown' & Hok'); simpl; try lia.
    + simpl in Hown'. split; [exact Hcl'|]. split; [congruence|].
      intros bl Hbl. rewrite (Hok' bl Hbl). lia.
    + change (reserved _) with (reserved w1). rewrite Hres1. exact Hclear.
    + change (reserved _) with (reserved w1). rewrite Hres1, Hcl1, Hcl.
      simpl. eapply existsb_false_impl; [|exact Hclear].
      intros range. apply hits_within; lia.
Qed.

Lemma load_segment_clear c ph w r w' :
  load_segment c ph w = (r, w') ->
  phdr_in_range c ph -> destination_fits c ph -> destination_clear c w ph ->
  clobbered w = false ->
  clobbered w' = false.
Proof.
  intros H (Hoff & Hva & Hfsz & Hmsz) Hdst Hclear Hcl.
  unfold destination_fits in Hdst. unfold destination_clear in Hclear.
  pose proof (bits_pos c) as Hb.
  unfold load_segment in H.
  destruct (wrap (bits c) (p_offset ph + p_filesz ph) >? f_size w).
  { inversion H; subst; clear H. exact Hcl. }
  destruct (copy_loop c (p_vaddr ph) _ 0 (p_filesz ph) _)
    as [[bl|e] w2] eqn:Hloop;
    apply (copy_loop_clear c (p_vaddr ph)
             (Z.max (p_filesz ph) (p_memsz ph))) in Hloop
      as (Hcl2 & Hown2 & Hok2); try assumption; try lia.
  - rewrite (Hok2 bl eq_refl) in H. rewrite Z.add_0_l in H.
    destruct (p_memsz ph >? p_filesz ph) eqn:Hfill;
      inversion H; subst; clear H; [|exact Hcl2].
    apply Z.gtb_lt in Hfill. simpl. rewrite Hcl2. simpl.
    unfold ptr_add. rewrite wrap_small by lia.
    unfold reserved. simpl. rewrite Hown2.
    eapply existsb_false_impl; [|exact Hclear].
    intros range. apply hits_within; lia.
  - inversion H; subst; clear H. exact Hcl2.
Qed.

Lemma load_segments_clear c phs :
  forall w r w',
    load_segments c phs w = (r, w') ->
    Forall (phdr_in_range c) phs -> Forall (destination_fits c) phs ->
    Forall (destination_clear c w) phs ->
    clobbered w = false ->
    clobbered w' = false.
Proof.
  induction phs as [|ph phs IH]; intros w r w' H Hrange Hdst Hclear Hcl.
  - inversion H; subst. exact Hcl.
  - apply Forall_cons in Hrange as [Hr Hrange].
    apply Forall_cons in Hdst as [Hd Hdst].
    apply Forall_cons in Hclear as [Hc Hclear].
    simpl in H.
    destruct (load_segment c ph w) as [[[]|e] w1] eqn:Hseg.
    + pose proof (load_segment_run _ _ _ _ _ Hseg) as (_ & _ & _ & Hboard).
      assert (Hown : occupied w1 = occupied w)
        by (unfold same_board in Hboard; tauto).
      eapply IH; try eassumption.
      * eapply Forall_impl; [exact Hclear|]. intros ph'.
        unfold destination_clear, reserved. rewrite Hown. tauto.
      * eapply load_segment_clear; eassumption.
    + inversion H; subst; clear H. eapply load_segment_clear; eassumption.
Qed.

Lemma load_image_early_clobbered c file_name w e :
  fst (load_image c file_name w) = Err e ->
  error_stage e <> SegmentMaterializer ->
  clobbered (snd (load_image c file_name w)) = clobbered w.
Proof.
  unfold load_image, f_mount, f_open. intros H Hstage.
  destruct (fr_ok (sd_mount w)); simpl in *; [|reflexivity].
  destruct (sd_files w !! file_name) as [content|]; simpl in *;
    [|reflexivity].
  match type of H with
  | context [f_read BufHeader ?n ?w0] =>
      destruct (f_read BufHeader n w0) as [[fr hbuf] w1] eqn:Hrd
  end.
  apply f_read_clobbered in Hrd as [Hcl1 _].
  simpl in Hcl1.
  destruct (negb (fr_ok fr) || negb (len hbuf =? sizeof_Ehdr c));
    [exact Hcl1|].
  destruct (negb (magic_ok _)); [exact Hcl1|].
  destruct (e_phoff _ >=? f_size w1); [exact Hcl1|].
  destruct (match heap_script w1 with [] => true | b :: _ => b end);
    simpl in *; [|exact Hcl1].
  match type of H with
  | context [f_read BufTable ?n ?w0] =>
      destruct (f_read BufTable n w0) as [[fr2 tbl] w3] eqn:Hrd
  end.
  apply f_read_clobbered in Hrd as [Hcl3 _].
  simpl in Hcl3.
  destruct (negb (fr_ok fr2) || _); [simpl; congruence|].
  destruct (load_segments c _ w3) as [[[]|e'] w4] eqn:Hsegs;
    simpl in H; [discriminate|].
  injection H as ->. apply load_segments_error_stage in Hsegs.
  contradiction.
Qed.

(** Whatever the storage does and however the load ends, no copy and no
    fill of a load reaches the loader or a register when the destinations
    of the image have been validated. *)
Lemma load_image_clear c name w content :
  sd_files w !! name = Some content ->
  len content < 2 ^ FSIZE_bits w ->
  Forall (destination_fits c) (image_segments c content) ->
  Forall (destination_clear c w) (image_segments c content) ->
  clobbered w = false ->
  clobbered (snd (load_image c name w)) = false.
Proof.
  intros Hf Hsize Hdst Hclear Hcl.
  destruct (load_image_cases c name w content Hf Hsize)
    as [(e & He & Hstage)|(w3 & rs & w4 & _ & _ & _ & Hsegs
                           & _ & _ & Hcl3 & Hown3 & Hcl4)].
  - rewrite (load_image_early_clobbered c name w e He Hstage). exact Hcl.
  - rewrite Hcl4.
    eapply load_segments_clear; [exact Hsegs| | | |congruence].
    + apply table_entries_in_range.
    + exact Hdst.
    + eapply Forall_impl; [exact Hclear|]. intros ph.
      unfold destination_clear, reserved. rewrite Hown3. tauto.
Qed.

(** ** Placing the segments *)

(** C1 (amended).  Take an image with a complete header and a valid magic,
    whose program-header table starts before the end of the file and lies
    inside it, and whose every entry, of whatever type, has its extent
    [p_offset + p_filesz] inside the file and a destination that the
    caller has validated: inside the address space, and clear of the
    loader's own code, data, stack and heap and of the device registers.
    On a card that mounts, with a storage and an allocator that do not
    fail, the load succeeds without a write into the loader or a register,
    and for every entry whose destination no later entry overlaps, the
    memory after the load holds the [p_filesz] bytes of the file from
    [p_offset] at [p_vaddr], followed by zeros up to [p_memsz]. *)
Theorem load_places_segments c file_name w content :
  sd_mount w = FR_OK ->
  sd_files w !! file_name = Some content ->
  faultless w ->
  clobbered w = false ->
  len content < 2 ^ FSIZE_bits w ->
  sizeof_Ehdr c <= len content ->
  magic_ok (image_header c content) = true ->
  e_phoff (image_header c content) < len content ->
  e_phoff (image_header c content)
  + e_phnum (image_header c content) * sizeof_Phdr c <= len content ->
  Forall (phdr_fits c (len content)) (image_segments c content) ->
  Forall (destination_clear c w) (image_segments c content) ->
  fst (load_image c file_name w) = Ok (image_header c content)
  /\ clobbered (snd (load_image c file_name w)) = false
  /\ forall (i : nat) ph,
       image_segments c content !! i = Some ph ->
       (forall (j : nat) ph',
           (i < j)%nat -> image_segments c content !! j = Some ph' ->
           disjoint_destinations ph ph') ->
       segment_loaded content (mem (snd (load_image c file_name w))) ph.
Proof.
  intros Hm Hf Hw Hcl Hsize Hhdr Hmagic Hphoff Htbl Hfits Hclear.
  split; [|split].
  - destruct (load_image_correct c file_name w content)
      as (w' & Hload & _); try assumption.
    rewrite Hload. reflexivity.
  - apply (load_image_clear c file_name w content); try assumption.
    eapply Forall_impl; [exact Hfits|]. intros ph [_ Hd]. exact Hd.
  - destruct (load_image_correct c file_name w content)
      as (w' & Hload & Hloaded); try assumption.
    rewrite Hload. exact Hloaded.
Qed.

Lemma load_places_segments_witness :
  fst (load_image ELF32 "vxWorks.elf" (card32 image32_small))
  = Ok (image_header ELF32 image32_small)
  /\ clobbered (snd (load_image ELF32 "vxWorks.elf" (card32 image32_small)))
     = false
  /\ forall (i : nat) ph,
       image_segments ELF32 image32_small !! i = Some ph ->
       (forall (j : nat) ph',
           (i < j)%nat ->
           image_segments ELF32 image32_small !! j = Some ph' ->
           disjoint_destinations ph ph') ->
       segment_loaded image32_small
         (mem (snd (load_image ELF32 "vxWorks.elf" (card32 image32_small))))
         ph.
Proof.
  apply (load_places_segments ELF32 "vxWorks.elf" (card32 image32_small)
           image32_small).
  - reflexivity.
  - vm_compute. reflexivity.
  - split; constructor.
  - reflexivity.
  - apply Z.ltb_lt. vm_compute. reflexivity.
  - apply Z.leb_le. vm_compute. reflexivity.
  - vm_compute. reflexivity.
  - apply Z.ltb_lt. vm_compute. reflexivity.
  - apply Z.leb_le. vm_compute. reflexivity.
  - rewrite image32_small_segments.
    repeat constructor; apply Z.leb_le; vm_compute; reflexivity.
  - rewrite image32_small_segments.
    repeat constructor; vm_compute; reflexivity.
Defined.

(** C1, as stated, fails, also for images whose destinations the caller
    has validated.  [image32_load_and_tls] has a valid magic, its table
    (two entries at offset 52) and the extents of both entries are inside
    its 124 bytes, and its only [PT_LOAD] segment goes to free memory; the
    load succeeds, and the second half of the destination of that segment
    holds zeros, not the bytes [05 06 07 08] of the file: the loader has
    treated the [PT_TLS] entry as a segment to place and zero-filled the
    4 bytes that follow its template.  [image32_note_beyond] has a valid
    magic, its table inside the file and no [PT_LOAD] segment at all, and
    its load fails, on the extent of its [PT_NOTE] entry. *)
Lemma load_segment_is_overwritten :
  (let image := image32_load_and_tls in
   let w := card32 image in
   magic_ok (image_header ELF32 image) = true
   /\ e_phoff (image_header ELF32 image)
      + e_phnum (image_header ELF32 image) * sizeof_Phdr ELF32
      <= len image
   /\ image_segments ELF32 image
      = [ {| p_type := PT_LOAD; p_offset := 116; p_vaddr := 0x1000;
             p_paddr := 0x1000; p_filesz := 8; p_memsz := 8;
             p_flags := 7; p_align := 4 |};
          {| p_type := PT_TLS; p_offset := 116; p_vaddr := 0x1000;
             p_paddr := 0x1000; p_filesz := 4; p_memsz := 8;
             p_flags := 7; p_align := 4 |} ]
   /\ len image = 124
   /\ fst (load_image ELF32 "vxWorks.elf" w) = Ok (image_header ELF32 image)
   /\ clobbered (snd (load_image ELF32 "vxWorks.elf" w)) = false
   /\ trace (snd (load_image ELF32 "vxWorks.elf" w))
      = [EvMount FR_OK; EvOpen "vxWorks.elf" FR_OK;
         EvRead BufHeader 52 FR_OK 52; EvMalloc 64 true; EvSeek 52;
         EvRead BufTable 64 FR_OK 64;
         EvSeek 116; EvRead BufChunk 8 FR_OK 8;
         EvMemcpy 0x1000 [x01; x02; x03; x04; x05; x06; x07; x08];
         EvFlush 0x1000 8;
         EvSeek 116; EvRead BufChunk 4 FR_OK 4;
         EvMemcpy 0x1000 [x01; x02; x03; x04]; EvFlush 0x1000 4;
         EvMemset 0x1004 4; EvFree; EvClose]
   /\ sub image 116 8 = [x01; x02; x03; x04; x05; x06; x07; x08]
   /\ map (mem (snd (load_image ELF32 "vxWorks.elf" w)))
          [0x1000; 0x1001; 0x1002; 0x1003; 0x1004; 0x1005; 0x1006; 0x1007]
      = [x01; x02; x03; x04; x00; x00; x00; x00])
  /\ (let image := image32_note_beyond in
      magic_ok (image_header ELF32 image) = true
      /\ e_phoff (image_header ELF32 image)
         + e_phnum (image_header ELF32 image) * sizeof_Phdr ELF32
         <= len image
      /\ map p_type (image_segments ELF32 image) = [PT_NOTE]
      /\ fst (load_image ELF32 "vxWorks.elf" (card32 image))
         = Err SegmentOutOfBounds).
Proof.
  cbv zeta.
  repeat split; try (apply Z.leb_le); vm_compute; reflexivity.
Qed.

(** * The chunk loop, turn by turn *)

Lemma sub_len_sub {A} (l : list A) pos n :
  sub l pos (len (sub l pos n)) = sub l pos n.
Proof.
  unfold sub, len. rewrite Nat2Z.id, length_take.
  destruct (Nat.le_gt_cases (Z.to_nat n) (length (drop (Z.to_nat pos) l)))
    as [Hle|Hgt].
  - rewrite Nat.min_l by exact Hle. reflexivity.
  - rewrite Nat.min_r by lia. rewrite !take_ge by lia. reflexivity.
Qed.

Lemma f_read_data dst btr w fr data w1 :
  f_read dst btr w = (fr, data, w1) ->
  data = sub (file w) (fptr w) (len data)
  /\ (0 <= btr -> len data <= btr)
  /\ file w1 = file w /\ fptr w1 = fptr w + len data
  /\ trace w1 = trace w ++ [EvRead dst btr fr (len data)].
Proof.
  unfold f_read. intros H.
  destruct (match rd_script w with [] => RdAll | r :: _ => r end)
    as [|n|fr'];
    inversion H; subst; clear H; simpl.
  - split; [symmetry; apply sub_len_sub|]. split; [|auto].
    intros Hb. unfold len, sub. rewrite length_take. lia.
  - split; [symmetry; apply sub_len_sub|]. split; [|auto].
    intros Hb. unfold len, sub. rewrite length_take. lia.
  - split; [reflexivity|]. split; [intros; unfold len; simpl; lia|].
    split; [reflexivity|]. split; [|reflexivity].
    unfold len. simpl. lia.
Qed.

Lemma chunk_size_min toread :
  (if toread >? CHUNK_SIZE then CHUNK_SIZE else toread)
  = Z.min toread CHUNK_SIZE.
Proof.
  destruct (toread >? CHUNK_SIZE) eqn:E.
  - apply Z.gtb_lt in E. lia.
  - rewrite Z.gtb_ltb in E. apply Z.ltb_ge in E. lia.
Qed.

Lemma copy_loop_chunk_run c sm fuel :
  forall loaded toread w r w',
    copy_loop c sm fuel loaded toread w = (r, w') ->
    r <> Err FuelExhausted ->
    0 <= loaded -> 0 <= toread -> loaded + toread < 2 ^ bits c ->
    exists evs,
      trace w' = trace w ++ evs
      /\ chunk_run c sm (file w) (fptr w) loaded toread evs
           (match r with Ok _ => None | Err e => Some e end)
      /\ (forall bl, r = Ok bl -> bl = loaded + toread).
Proof.
  induction fuel as [|fuel IH]; intros loaded toread w r w' H Hfuel Hl Ht Hlt.
  - simpl in H. destruct (toread >? 0) eqn:Hgt; inversion H; subst; clear H.
    + contradiction.
    + rewrite Z.gtb_ltb in Hgt. apply Z.ltb_ge in Hgt.
      exists []. rewrite app_nil_r. split; [reflexivity|].
      split; [constructor; exact Hgt|].
      intros bl Hbl. injection Hbl as <-. lia.
  - rewrite copy_loop_unfold in H.
    destruct (toread >? 0) eqn:Hgt.
    2: { rewrite Z.gtb_ltb in Hgt. apply Z.ltb_ge in Hgt.
         inversion H; subst; clear H.
         exists []. rewrite app_nil_r. split; [reflexivity|].
         split; [constructor; exact Hgt|].
         intros bl Hbl. injection Hbl as <-. lia. }
    apply Z.gtb_lt in Hgt. rewrite chunk_size_min in H. cbv zeta in H.
    assert (Hchunk : 0 < Z.min toread CHUNK_SIZE <= toread)
      by (unfold CHUNK_SIZE; lia).
    destruct (f_read BufChunk (Z.min toread CHUNK_SIZE) w)
      as [[fr buffer] w1] eqn:Hrd.
    apply f_read_data in Hrd as (Hdata & Hlen & Hfile1 & Hfptr1 & Ht1).
    specialize (Hlen ltac:(lia)).
    pose proof (len_nonneg buffer) as Hnn.
    destruct (negb (fr_ok fr) || (len buffer =? 0)) eqn:Hbad.
    { inversion H; subst; clear H. simpl.
      exists [EvRead BufChunk (Z.min toread CHUNK_SIZE) fr (len buffer);
              EvFree; EvClose].
      split; [rewrite Ht1, <- !app_assoc; reflexivity|].
      split; [|intros bl Hbl; discriminate].
      constructor; [exact Hgt|].
      apply orb_true_iff in Hbad as [Hb|Hb].
      - left. destruct (fr_ok fr); simpl in Hb; congruence.
      - right. apply Z.eqb_eq in Hb. exact Hb. }
    apply orb_false_iff in Hbad as [Hfr Hnz].
    apply negb_false_iff, fr_ok_true in Hfr. subst fr.
    apply Z.eqb_neq in Hnz.
    pose proof (bits_pos c) as Hb.
    rewrite flush_address in H.
    rewrite (wrap_small _ (loaded + len buffer)) in H by lia.
    rewrite (wrap_small _ (toread - len buffer)) in H by lia.
    apply IH in H as (evs & Ht' & Hrun & Hok); try lia; [|exact Hfuel].
    simpl in Ht', Hrun. rewrite Hfile1, Hfptr1 in Hrun.
    eexists (_ :: _ :: _ :: evs).
    split; [rewrite Ht', Ht1, <- !app_assoc; reflexivity|].
    split.
    + apply cr_copy; [exact Hgt|lia|exact Hdata|exact Hrun].
    + intros bl Hbl. rewrite (Hok bl Hbl). lia.
Qed.

Lemma load_segment_chunk_run c ph w :
  phdr_in_range c ph ->
  wrap (bits c) (p_offset ph + p_filesz ph) <= f_size w ->
  exists evs r,
    chunk_run c (p_vaddr ph) (file w) (segment_start ph w) 0 (p_filesz ph)
              evs r
    /\ trace (snd (load_segment c ph w))
       = trace w ++ EvSeek (p_offset ph) :: evs
         ++ match r with None => fill_events c ph | Some _ => [] end
    /\ fst (load_segment c ph w)
       = match r with None => Ok () | Some e => Err e end.
Proof.
  intros (Hoff & Hva & Hfsz & Hmsz) Hvalid.
  unfold load_segment.
  replace (wrap (bits c) (p_offset ph + p_filesz ph) >? f_size w) with false
    by (symmetry; rewrite Z.gtb_ltb; apply Z.ltb_ge; exact Hvalid).
  set (w1 := f_lseek (p_offset ph) w).
  assert (Hfile1 : file w1 = file w) by reflexivity.
  assert (Hfptr1 : fptr w1 = segment_start ph w) by reflexivity.
  assert (Ht1 : trace w1 = trace w ++ [EvSeek (p_offset ph)]) by reflexivity.
  assert (Hpos : 0 <= fptr w1 <= len (file w1)).
  { rewrite Hfptr1, Hfile1. unfold segment_start, f_size.
    pose proof (wrap_nonneg (FSIZE_bits w) (p_offset ph)).
    pose proof (FSIZE_bits_pos w). pose proof (len_nonneg (file w)). lia. }
  destruct (copy_loop c (p_vaddr ph) (S (length (file w1))) 0
                      (p_filesz ph) w1) as [r w2] eqn:Hloop.
  assert (Hfuel : r <> Err FuelExhausted).
  { eapply copy_loop_fuel; [exact Hloop|exact Hpos|]. unfold len in *. lia. }
  apply copy_loop_chunk_run in Hloop as (evs & Ht2 & Hrun & Hok);
    try lia; [|exact Hfuel].
  rewrite Hfile1, Hfptr1 in Hrun.
  destruct r as [bl|e].
  - exists evs, None. split; [exact Hrun|].
    rewrite (Hok bl eq_refl), Z.add_0_l. unfold fill_events.
    destruct (p_memsz ph >? p_filesz ph); simpl;
      (split; [|reflexivity]);
      rewrite Ht2, Ht1, <- !app_assoc; simpl;
      rewrite ?app_nil_r; reflexivity.
  - exists evs, (Some e). split; [exact Hrun|]. simpl.
    split; [|reflexivity].
    rewrite Ht2, Ht1, <- !app_assoc, app_nil_r. reflexivity.
Qed.

(** C4 (amended).  Every chunk read of a load either fails or returns
    zero bytes, and then the load fails with [ShortSegmentRead] and does
    nothing more than free the table and close the file; or it returns
    [FR_OK] and at least one byte, however few, and then it is followed by
    a copy of as many bytes and by their flush.  And for every entry that
    passes the validation of its extent, the operations of the chunk loop
    are those of [chunk_run] from the position of the seek, with nothing in
    place and [p_filesz] bytes to come: each turn asks for what remains,
    at most [CHUNK_SIZE]; what a read delivers is what is copied, to the
    destination plus the number of bytes in place; the loop goes on behind
    it with as many bytes less to come, and is followed by the zero-fill
    when it ends by itself. *)
Theorem chunk_read_gate c :
  (forall file_name w pre btr fr br post,
      trace (snd (load_image c file_name w))
      = trace w ++ pre ++ EvRead BufChunk btr fr br :: post ->
      ((fr_ok fr = false \/ br = 0)
       /\ fst (load_image c file_name w) = Err ShortSegmentRead
       /\ post = [EvFree; EvClose])
      \/ (fr = FR_OK /\ 0 < br
          /\ exists dst data post',
              len data = br
              /\ post = EvMemcpy dst data
                        :: EvFlush (wrap 32 dst) br :: post'))
  /\ (forall ph w,
         phdr_in_range c ph ->
         wrap (bits c) (p_offset ph + p_filesz ph) <= f_size w ->
         exists evs r,
           chunk_run c (p_vaddr ph) (file w) (segment_start ph w)
                     0 (p_filesz ph) evs r
           /\ trace (snd (load_segment c ph w))
              = trace w ++ EvSeek (p_offset ph) :: evs
                ++ match r with
                   | None => fill_events c ph
                   | Some _ => []
                   end
           /\ fst (load_segment c ph w)
              = match r with None => Ok () | Some e => Err e end).
Proof.
  split.
  - intros file_name w pre btr fr br post.
    destruct (load_image c file_name w) as [r w'] eqn:Hload. simpl.
    intros Ht.
    apply load_image_run in Hload as (new & Ht' & Hshape & _).
    rewrite Ht' in Ht. apply app_inv_head in Ht.
    eapply image_trace_chunk_read; eassumption.
  - intros ph w. apply load_segment_chunk_run.
Qed.

Lemma chunk_read_gate_witness :
  (((fr_ok FR_DISK_ERR = false \/ 0 = 0)
    /\ fst (load_image ELF32 "vxWorks.elf"
              (failing_first_chunk FR_DISK_ERR (card32 image32_small)))
       = Err ShortSegmentRead
    /\ [EvFree; EvClose] = [EvFree; EvClose])
   \/ (FR_DISK_ERR = FR_OK /\ 0 < 0
       /\ exists dst data post',
           len data = 0
           /\ [EvFree; EvClose]
              = EvMemcpy dst data :: EvFlush (wrap 32 dst) 0 :: post'))
  /\ (let ph := parse_Phdr ELF32 (sub image32_two_chunks 52 32) in
      let w := set_rd_script [RdAtMost 10]
                 (set_file image32_two_chunks 0
                           (card32 image32_two_chunks)) in
      exists evs r,
        chunk_run ELF32 (p_vaddr ph) (file w) (segment_start ph w)
                  0 (p_filesz ph) evs r
        /\ trace (snd (load_segment ELF32 ph w))
           = trace w ++ EvSeek (p_offset ph) :: evs
             ++ match r with
                | None => fill_events ELF32 ph
                | Some _ => []
                end
        /\ fst (load_segment ELF32 ph w)
           = match r with None => Ok () | Some e => Err e end).
Proof.
  destruct (chunk_read_gate ELF32) as [Hgate Hloop]. split.
  - apply (Hgate "vxWorks.elf"
             (failing_first_chunk FR_DISK_ERR (card32 image32_small))
             [EvMount FR_OK; EvOpen "vxWorks.elf" FR_OK;
              EvRead BufHeader 52 FR_OK 52; EvMalloc 32 true; EvSeek 52;
              EvRead BufTable 32 FR_OK 32; EvSeek 84]
             8 FR_DISK_ERR 0 [EvFree; EvClose]).
    vm_compute. reflexivity.
  - apply Hloop.
    + apply parse_Phdr_in_range.
    + apply Z.leb_le. vm_compute. reflexivity.
Defined.

(** C4, as stated, fails.  With a storage that delivers all it has: the
    only segment of [image32_wrapping] passes the validation of its extent
    and has 16 bytes in the file; the first chunk read asks for 4096 bytes,
    far from the last chunk, and gets these 16; the loop copies and flushes
    them and reads again, and it is that second read, of zero bytes, that
    ends the load.  With a storage that delivers less than is asked before
    the end of the file: the first chunk read of [image32_two_chunks] asks
    for 4096 of the 4100 bytes of the segment and gets 10; the loop copies
    them, asks for the 4090 that remain and the load succeeds. *)
Lemma short_chunk_read_is_not_fatal :
  (let w := card32 image32_wrapping in
   rd_script w = []
   /\ trace (snd (load_image ELF32 "vxWorks.elf" w))
      = [EvMount FR_OK; EvOpen "vxWorks.elf" FR_OK;
         EvRead BufHeader 52 FR_OK 52; EvMalloc 32 true; EvSeek 52;
         EvRead BufTable 32 FR_OK 32; EvSeek 84;
         EvRead BufChunk 4096 FR_OK 16;
         EvMemcpy 0x1000 (replicate 16 x2a); EvFlush 0x1000 16;
         EvRead BufChunk 4096 FR_OK 0; EvFree; EvClose])
  /\ (let w := short_first_chunk 10 (card32 image32_two_chunks) in
      fst (load_image ELF32 "vxWorks.elf" w)
      = Ok (parse_Ehdr ELF32 (sub image32_two_chunks 0 52))
      /\ trace (snd (load_image ELF32 "vxWorks.elf" w))
         = [EvMount FR_OK; EvOpen "vxWorks.elf" FR_OK;
            EvRead BufHeader 52 FR_OK 52; EvMalloc 32 true; EvSeek 52;
            EvRead BufTable 32 FR_OK 32; EvSeek 84;
            EvRead BufChunk 4096 FR_OK 10;
            EvMemcpy 0x1000 (replicate 10 x2a); EvFlush 0x1000 10;
            EvRead BufChunk 4090 FR_OK 4090;
            EvMemcpy 0x100a (replicate 4090 x2a); EvFlush 0x100a 4090;
            EvFree; EvClose]).
Proof. cbv zeta. repeat split; vm_compute; reflexivity. Qed.

(** * The handoff *)

Lemma first_descriptor_built PartitionHeader PartitionFlags w :
  fst (Apu.mock_fsbl_SetATFHandoffParams 0 PartitionHeader PartitionFlags w)
  = first_descriptor PartitionHeader PartitionFlags.
Proof. reflexivity. Qed.

Lemma load_elf64_published name w :
  published (snd (load_elf64 name w)) = published w.
Proof.
  destruct (load_elf64 name w) as [r w'] eqn:H.
  apply load_elf64_run in H as (_ & _ & _ & Hb). simpl.
  unfold same_board in Hb. tauto.
Qed.

Lemma main_published w :
  published (Apu.main w)
  = published w
    ++ [(wrap 32 (stack_addr w),
         Apu.layout
           (first_descriptor (wrap 32 (fst (load_elf64 "bl31.elf" w))) 0))].
Proof.
  unfold Apu.main.
  pose proof (load_elf64_regs "bl31.elf" w) as [_ Hs1].
  pose proof (load_elf64_published "bl31.elf" w) as Hp1.
  destruct (load_elf64 "bl31.elf" w) as [r w1]. simpl in Hs1, Hp1.
  pose proof (load_elf64_regs "u-boot.elf" w1) as [_ Hs2].
  pose proof (load_elf64_published "u-boot.elf" w1) as Hp2.
  destruct (load_elf64 "u-boot.elf" w1) as [r2 w2]. simpl in Hs2, Hp2.
  pose proof (first_descriptor_built (wrap 32 r) 0 w2) as Hd.
  destruct (Apu.mock_fsbl_SetATFHandoffParams 0 (wrap 32 r) 0 w2)
    as [d w3] eqn:Hmock.
  simpl in Hd. subst d.
  assert (Hp3 : published w3
                = published w2
                  ++ [(wrap 32 (stack_addr w2),
                       Apu.layout (first_descriptor (wrap 32 r) 0))]).
  { assert (Hw3 : w3 = snd (Apu.mock_fsbl_SetATFHandoffParams
                              0 (wrap 32 r) 0 w2))
      by (rewrite Hmock; reflexivity).
    rewrite Hw3. reflexivity. }
  cbn [published Apu.reset_apu_cores Apu.set_apu_rvba mmio_write mmio_read
       emit set_regs fst snd].
  rewrite Hp3, Hp2, Hp1, Hs2, Hs1. reflexivity.
Qed.

(** C8.  In the APU [main] every write to a reset-vector register happens
    while the value last written to the reset-control register is the
    reset-assert value.  The handoff descriptor is complete when its
    address is published: the object whose address is written to the
    scratch register is at that moment the descriptor of a first
    partition, with the magic tag, one entry, the entry point returned for
    [bl31.elf] and the flags 0; and that write precedes the reset-release
    write.  The eight reset-vector writes and the release do happen. *)
Theorem vectors_programmed_in_reset (w : World) :
  let entry := wrap 32 (fst (load_elf64 "bl31.elf" w)) in
  let descriptor := wrap 32 (stack_addr w) in
  exists new,
    trace (Apu.main w) = trace w ++ new
    /\ (forall pre a v post,
          new = pre ++ EvMmioWrite a v :: post ->
          In a rvbar_registers ->
          reset_level pre = Some Apu.RST_FPD_APU_VALU)
    /\ published (Apu.main w)
       = published w
         ++ [(descriptor, Apu.layout (first_descriptor entry 0))]
    /\ (forall pre post,
          new = pre ++ EvMmioWrite Apu.RST_FPD_APU Apu.RST_FPD_APU_CLER
                    :: post ->
          In (EvMmioWrite Apu.GLOBAL_GEN_STORAGE6 descriptor) pre)
    /\ (forall a, In a rvbar_registers -> exists v, In (EvMmioWrite a v) new)
    /\ In (EvMmioWrite Apu.RST_FPD_APU Apu.RST_FPD_APU_CLER) new.
Proof.
  cbv zeta.
  destruct (main_run w) as (loads & entry & Ht & Hloads & _).
  eexists. split; [exact Ht|].
  split; [|split; [apply main_published|split; [|split]]].
  - intros pre a v post H Hin.
    eapply app_split_at in H as (pre' & -> & H);
      [|exact Hloads|simpl; discriminate].
    rewrite reset_level_app by assumption.
    list_positions H pre';
      solve [ reflexivity
            | exfalso; simpl in Hin; intuition discriminate ].
  - intros pre post H.
    eapply app_split_at in H as (pre' & -> & H);
      [|exact Hloads|simpl; discriminate].
    apply in_or_app. right.
    list_positions H pre'; simpl; auto 25.
  - intros a Hin. simpl in Hin.
    repeat destruct Hin as [<-|Hin]; try contradiction;
      eexists; apply in_or_app; right; simpl; auto 25.
  - apply in_or_app. right. simpl. auto 25.
Qed.

(** X16.  For every [EntryCount] (a [uint32_t]) from [MAX_ENTRIES] on, the
    new entry is dropped: no slot of the descriptor is assigned.  It is
    counted all the same: [NumEntries] is [EntryCount + 1], above the
    capacity of the array, except for [EntryCount = 0xFFFFFFFF], where the
    sum of [uint32_t] is 0. *)
Theorem handoff_drops_entry_beyond_capacity
    (EntryCount PartitionHeader PartitionFlags : Z) (w : World) :
  Apu.MAX_ENTRIES <= EntryCount < 2 ^ 32 ->
  let d := fst (Apu.mock_fsbl_SetATFHandoffParams
                  EntryCount PartitionHeader PartitionFlags w) in
  Apu.Entry d = replicate 10 ATFHandoffEntry_fresh
  /\ Apu.NumEntries d
     = Some (if EntryCount =? 2 ^ 32 - 1 then 0 else EntryCount + 1)
  /\ (EntryCount <> 2 ^ 32 - 1 -> Apu.MAX_ENTRIES < EntryCount + 1).
Proof.
  intros Hrange. cbv zeta. unfold Apu.mock_fsbl_SetATFHandoffParams.
  replace (EntryCount <? Apu.MAX_ENTRIES) with false
    by (symmetry; apply Z.ltb_ge; lia).
  unfold Apu.MAX_ENTRIES in Hrange.
  replace (EntryCount =? 0) with false by (symmetry; apply Z.eqb_neq; lia).
  simpl. split; [reflexivity|]. split; [|unfold Apu.MAX_ENTRIES; lia].
  f_equal. destruct (Z.eqb_spec EntryCount (2 ^ 32 - 1)) as [->|Hne].
  - reflexivity.
  - apply wrap_small. lia.
Qed.

Lemma handoff_drops_entry_beyond_capacity_witness :
  let d := fst (Apu.mock_fsbl_SetATFHandoffParams
                  0xFFFFFFFF 0x8000 0 card_empty) in
  Apu.Entry d = replicate 10 ATFHandoffEntry_fresh
  /\ Apu.NumEntries d
     = Some (if 0xFFFFFFFF =? 2 ^ 32 - 1 then 0 else 0xFFFFFFFF + 1)
  /\ (0xFFFFFFFF <> 2 ^ 32 - 1 -> Apu.MAX_ENTRIES < 0xFFFFFFFF + 1).
Proof.
  apply (handoff_drops_entry_beyond_capacity 0xFFFFFFFF 0x8000 0 card_empty).
  unfold Apu.MAX_ENTRIES. lia.
Defined.

(** * Loads of validated images *)

(** X2.  Take an image whose destinations the caller has validated: the
    destination [p_vaddr, p_vaddr + max(p_filesz, p_memsz)) of every entry
    of its table lies inside the address space, clear of the loader's own
    storage and of the device registers.  Whatever the card and the
    storage do, and whether the load succeeds or fails half-way, no copy
    and no fill of the load reaches the loader or a register, and the load
    changes no byte of free memory outside these destinations. *)
Theorem load_writes_only_destinations c file_name w content :
  sd_files w !! file_name = Some content ->
  len content < 2 ^ FSIZE_bits w ->
  Forall (destination_fits c) (image_segments c content) ->
  Forall (destination_clear c w) (image_segments c content) ->
  clobbered w = false ->
  clobbered (snd (load_image c file_name w)) = false
  /\ forall a, 0 <= a < 2 ^ bits c -> free_memory w a ->
       Forall (fun ph => ~ written ph a) (image_segments c content) ->
       mem (snd (load_image c file_name w)) a = mem w a.
Proof.
  intros Hf Hsize Hdst Hclear Hcl. split.
  - eapply load_image_clear; eassumption.
  - intros a Ha _. eapply load_image_frame; eassumption.
Qed.

Lemma load_writes_only_destinations_witness :
  let w := failing_first_chunk FR_DISK_ERR (card32 image32_small) in
  clobbered (snd (load_image ELF32 "vxWorks.elf" w)) = false
  /\ forall a, 0 <= a < 2 ^ bits ELF32 -> free_memory w a ->
       Forall (fun ph => ~ written ph a)
              (image_segments ELF32 image32_small) ->
       mem (snd (load_image ELF32 "vxWorks.elf" w)) a = mem w a.
Proof.
  apply (load_writes_only_destinations ELF32 "vxWorks.elf"
           (failing_first_chunk FR_DISK_ERR (card32 image32_small))
           image32_small).
  - vm_compute. reflexivity.
  - apply Z.ltb_lt. vm_compute. reflexivity.
  - rewrite image32_small_segments. repeat constructor.
    unfold destination_fits. simpl. lia.
  - rewrite image32_small_segments.
    repeat constructor; vm_compute; reflexivity.
  - reflexivity.
Defined.

(** X3.  Take an image whose every entry has its extent
    [p_offset + p_filesz] inside the file and a destination that the
    caller has validated (inside the address space, clear of the loader's
    own storage and of the device registers).  Whatever the storage does
    (reads that return fewer bytes than asked included), a load of it that
    reports success has written nothing into the loader or a register and
    has put every segment in place: the header it returns is the one at
    the start of the file, and for every entry whose destination no later
    entry overlaps the memory holds the [p_filesz] bytes of the file from
    [p_offset] followed by zeros up to [p_memsz]. *)
Theorem successful_load_is_correct c file_name w content h :
  sd_files w !! file_name = Some content ->
  len content < 2 ^ FSIZE_bits w ->
  Forall (phdr_fits c (len content)) (image_segments c content) ->
  Forall (destination_clear c w) (image_segments c content) ->
  clobbered w = false ->
  fst (load_image c file_name w) = Ok h ->
  h = image_header c content
  /\ clobbered (snd (load_image c file_name w)) = false
  /\ forall (i : nat) ph,
       image_segments c content !! i = Some ph ->
       (forall (j : nat) ph',
           (i < j)%nat -> image_segments c content !! j = Some ph' ->
           disjoint_destinations ph ph') ->
       segment_loaded content (mem (snd (load_image c file_name w))) ph.
Proof.
  intros Hf Hsize Hfits Hclear Hcl Hok.
  destruct (load_image_partial c file_name w content h Hf Hsize Hfits Hok)
    as [Hh Hloaded].
  split; [exact Hh|]. split; [|exact Hloaded].
  apply (load_image_clear c file_name w content); try assumption.
  eapply Forall_impl; [exact Hfits|]. intros ph [_ Hd]. exact Hd.
Qed.

Lemma successful_load_is_correct_witness :
  let w := short_first_chunk 3 (card32 image32_small) in
  image_header ELF32 image32_small = image_header ELF32 image32_small
  /\ clobbered (snd (load_image ELF32 "vxWorks.elf" w)) = false
  /\ forall (i : nat) ph,
       image_segments ELF32 image32_small !! i = Some ph ->
       (forall (j : nat) ph',
           (i < j)%nat ->
           image_segments ELF32 image32_small !! j = Some ph' ->
           disjoint_destinations ph ph') ->
       segment_loaded image32_small
         (mem (snd (load_image ELF32 "vxWorks.elf" w))) ph.
Proof.
  apply (successful_load_is_correct ELF32 "vxWorks.elf"
           (short_first_chunk 3 (card32 image32_small)) image32_small).
  - vm_compute. reflexivity.
  - apply Z.ltb_lt. vm_compute. reflexivity.
  - rewrite image32_small_segments. repeat constructor;
      simpl; apply Z.leb_le; vm_compute; reflexivity.
  - rewrite image32_small_segments.
    repeat constructor; vm_compute; reflexivity.
  - reflexivity.
  - vm_compute. reflexivity.
Defined.

Lemma load_image_board c name w :
  same_board w (snd (load_image c name w)).
Proof.
  destruct (load_image c name w) as [r w'] eqn:Hload.
  apply load_image_run in Hload as (_ & _ & _ & Hb). exact Hb.
Qed.

(** X4.  Loading is idempotent.  Take an image whose every entry has its
    extent inside the file and a destination that the caller has validated
    (inside the address space, clear of the loader's own storage and of
    the device registers).  When it has been loaded, loading it again,
    successfully, writes nothing into the loader or a register and leaves
    every byte of free memory as the first load left it, even where
    segments overlap. *)
Theorem reload_is_idempotent c file_name w content h h' :
  sd_files w !! file_name = Some content ->
  len content < 2 ^ FSIZE_bits w ->
  Forall (phdr_fits c (len content)) (image_segments c content) ->
  Forall (destination_clear c w) (image_segments c content) ->
  clobbered w = false ->
  fst (load_image c file_name w) = Ok h ->
  fst (load_image c file_name (snd (load_image c file_name w))) = Ok h' ->
  clobbered (snd (load_image c file_name (snd (load_image c file_name w))))
  = false
  /\ forall a, 0 <= a < 2 ^ bits c -> free_memory w a ->
       mem (snd (load_image c file_name (snd (load_image c file_name w)))) a
       = mem (snd (load_image c file_name w)) a.
Proof.
  intros Hf Hsize Hfits Hclear Hcl Hok Hok'. split.
  - assert (Hdst : Forall (destination_fits c) (image_segments c content)).
    { eapply Forall_impl; [exact Hfits|]. intros ph [_ Hd]. exact Hd. }
    pose proof (load_image_board c file_name w)
      as (_ & Hfiles & Hex & _ & _ & Hown & _).
    apply (load_image_clear c file_name _ content).
    + rewrite Hfiles. exact Hf.
    + unfold FSIZE_bits in *. rewrite Hex. exact Hsize.
    + exact Hdst.
    + eapply Forall_impl; [exact Hclear|]. intros ph.
      unfold destination_clear, reserved. rewrite Hown. tauto.
    + eapply load_image_clear; eassumption.
  - intros a Ha _. eapply load_image_twice; eassumption.
Qed.

Lemma reload_is_idempotent_witness :
  let w := card32 image32_small in
  clobbered (snd (load_image ELF32 "vxWorks.elf"
                    (snd (load_image ELF32 "vxWorks.elf" w)))) = false
  /\ forall a, 0 <= a < 2 ^ bits ELF32 -> free_memory w a ->
       mem (snd (load_image ELF32 "vxWorks.elf"
                   (snd (load_image ELF32 "vxWorks.elf" w)))) a
       = mem (snd (load_image ELF32 "vxWorks.elf" w)) a.
Proof.
  apply (reload_is_idempotent ELF32 "vxWorks.elf" (card32 image32_small)
           image32_small (image_header ELF32 image32_small)
           (image_header ELF32 image32_small)).
  - vm_compute. reflexivity.
  - apply Z.ltb_lt. vm_compute. reflexivity.
  - rewrite image32_small_segments. repeat constructor;
      simpl; apply Z.leb_le; vm_compute; reflexivity.
  - rewrite image32_small_segments.
    repeat constructor; vm_compute; reflexivity.
  - reflexivity.
  - vm_compute. reflexivity.
  - vm_compute. reflexivity.
Defined.

(** * The registers after [main] *)

Lemma prevalidated_board c w w' name :
  same_board w w' -> prevalidated c w name -> prevalidated c w' name.
Proof.
  intros (_ & Hfiles & Hex & _ & _ & Hown & _) Hpre content Hf.
  rewrite Hfiles in Hf. destruct (Hpre content Hf) as (Hsize & Hdst & Hclear).
  split; [unfold FSIZE_bits in *; rewrite Hex; exact Hsize|].
  split; [exact Hdst|].
  eapply Forall_impl; [exact Hclear|]. intros ph.
  unfold destination_clear, reserved. rewrite Hown. tauto.
Qed.

Lemma load_elf64_clear name w :
  prevalidated ELF64 w name -> clobbered w = false ->
  clobbered (snd (load_elf64 name w)) = false.
Proof.
  intros Hpre Hcl.
  assert (Himage : clobbered (snd (load_image ELF64 name w)) = false).
  { destruct (sd_files w !! name) as [content|] eqn:Hf.
    - destruct (Hpre content Hf) as (Hsize & Hdst & Hclear).
      eapply load_image_clear; eassumption.
    - unfold load_image, f_mount, f_open.
      destruct (fr_ok (sd_mount w)); simpl; [|exact Hcl].
      rewrite Hf. simpl. exact Hcl. }
  unfold load_elf64.
  destruct (load_image ELF64 name w) as [[h|e] w1]; exact Himage.
Qed.

Lemma load_elf64_board name w : same_board w (snd (load_elf64 name w)).
Proof.
  destruct (load_elf64 name w) as [r w'] eqn:H.
  apply load_elf64_run in H as (_ & _ & _ & Hb). exact Hb.
Qed.

Lemma main_clear w :
  prevalidated ELF64 w "bl31.elf" -> prevalidated ELF64 w "u-boot.elf" ->
  clobbered w = false ->
  clobbered (Apu.main w) = false.
Proof.
  intros Hpre1 Hpre2 Hcl. unfold Apu.main.
  pose proof (load_elf64_clear "bl31.elf" w Hpre1 Hcl) as Hcl1.
  pose proof (load_elf64_board "bl31.elf" w) as Hb1.
  destruct (load_elf64 "bl31.elf" w) as [r w1]. simpl in Hcl1, Hb1.
  pose proof (load_elf64_clear "u-boot.elf" w1
                (prevalidated_board _ _ _ _ Hb1 Hpre2) Hcl1) as Hcl2.
  destruct (load_elf64 "u-boot.elf" w1) as [r2 w2]. simpl in Hcl2.
  exact Hcl2.
Qed.

(** X14.  Take a card whose two images, where present, have destinations
    that the caller has validated (inside the address space, clear of the
    loader's own storage and of the device registers).  When [main]
    reaches its final loop, however the two loads ended, no copy or fill
    has reached the loader or a register; the four [RVBARADDRnH] registers
    hold the value returned by the load of [bl31.elf] converted to
    [uint32_t], the four [RVBARADDRnL] registers hold 0, the reset-control
    register holds the release value, the scratch register holds the
    32-bit address of the descriptor, and no other register has
    changed. *)
Theorem registers_after_main (w : World) :
  prevalidated ELF64 w "bl31.elf" -> prevalidated ELF64 w "u-boot.elf" ->
  clobbered w = false ->
  let entry := wrap 32 (fst (load_elf64 "bl31.elf" w)) in
  let r := regs (Apu.main w) in
  clobbered (Apu.main w) = false
  /\ r !! Apu.RVBARADDR0H = Some entry /\ r !! Apu.RVBARADDR1H = Some entry
  /\ r !! Apu.RVBARADDR2H = Some entry /\ r !! Apu.RVBARADDR3H = Some entry
  /\ r !! Apu.RVBARADDR0L = Some 0 /\ r !! Apu.RVBARADDR1L = Some 0
  /\ r !! Apu.RVBARADDR2L = Some 0 /\ r !! Apu.RVBARADDR3L = Some 0
  /\ r !! Apu.RST_FPD_APU = Some Apu.RST_FPD_APU_CLER
  /\ r !! Apu.GLOBAL_GEN_STORAGE6 = Some (wrap 32 (stack_addr w))
  /\ forall a, a ∉ handoff_registers -> r !! a = regs w !! a.
Proof.
  intros Hpre1 Hpre2 Hcl. cbv zeta.
  split; [apply main_clear; assumption|].
  rewrite main_regs.
  repeat split;
    try (repeat first [ rewrite lookup_insert_eq; reflexivity
                      | rewrite lookup_insert_ne by discriminate ];
         fail).
  intros a Ha. unfold handoff_registers, rvbar_registers in Ha.
  repeat (rewrite lookup_insert_ne; [|intros <-; apply Ha; set_solver]).
  reflexivity.
Qed.

Lemma registers_after_main_witness :
  let w := card64 image64_high [] in
  let entry := wrap 32 (fst (load_elf64 "bl31.elf" w)) in
  let r := regs (Apu.main w) in
  clobbered (Apu.main w) = false
  /\ r !! Apu.RVBARADDR0H = Some entry /\ r !! Apu.RVBARADDR1H = Some entry
  /\ r !! Apu.RVBARADDR2H = Some entry /\ r !! Apu.RVBARADDR3H = Some entry
  /\ r !! Apu.RVBARADDR0L = Some 0 /\ r !! Apu.RVBARADDR1L = Some 0
  /\ r !! Apu.RVBARADDR2L = Some 0 /\ r !! Apu.RVBARADDR3L = Some 0
  /\ r !! Apu.RST_FPD_APU = Some Apu.RST_FPD_APU_CLER
  /\ r !! Apu.GLOBAL_GEN_STORAGE6 = Some (wrap 32 (stack_addr w))
  /\ forall a, a ∉ handoff_registers -> r !! a = regs w !! a.
Proof.
  apply (registers_after_main (card64 image64_high [])).
  - intros content Hf.
    assert (E : sd_files (card64 image64_high []) !! "bl31.elf"
                = Some image64_high) by (vm_compute; reflexivity).
    rewrite E in Hf. injection Hf as <-.
    let l := eval vm_compute in (image_segments ELF64 image64_high) in
    change (image_segments ELF64 image64_high) with l.
    split; [apply Z.ltb_lt; vm_compute; reflexivity|].
    split; repeat constructor.
    unfold destination_fits. simpl. lia.
  - intros content Hf.
    assert (E : sd_files (card64 image64_high []) !! "u-boot.elf"
                = Some []) by (vm_compute; reflexivity).
    rewrite E in Hf. injection Hf as <-.
    split; [apply Z.ltb_lt; vm_compute; reflexivity|].
    split; constructor.
  - reflexivity.
Defined.

(** ** What the record of a write means *)

(** A copy or a fill one byte of which lands in a reserved range is
    recorded. *)
Lemma hits_complete p dst n b m k :
  0 <= dst < 2 ^ p -> n <= 2 ^ p ->
  0 <= k < n -> b <= wrap p (dst + k) < b + m ->
  hits p dst n (b, m) = true.
Proof.
  intros Hdst Hn Hk Hin. unfold hits, overlaps, wrap in *. simpl.
  set (P := 2 ^ p) in *. apply orb_true_iff.
  destruct (Z.lt_ge_cases (dst + k) P) as [Hlow|Hhigh].
  - left. rewrite Z.mod_small in Hin by lia.
    repeat (apply andb_true_iff; split); apply Z.ltb_lt; lia.
  - right.
    replace (dst + k) with (dst + k - P + 1 * P) in Hin by lia.
    rewrite Z.mod_add in Hin by lia.
    rewrite Z.mod_small in Hin by lia.
    repeat (apply andb_true_iff; split); apply Z.ltb_lt; lia.
Qed.

Lemma write_into_reserved_is_recorded p dst data n w b m k :
  In (b, m) (reserved w) ->
  0 <= dst < 2 ^ p -> b <= wrap p (dst + k) < b + m ->
  (0 <= k < len data -> len data <= 2 ^ p ->
   clobbered (memcpy p dst data w) = true)
  /\ (0 <= k < n -> n <= 2 ^ p -> clobbered (memset p dst n w) = true).
Proof.
  intros Hin Hdst Hk.
  assert (Hex : forall n', 0 <= k < n' -> n' <= 2 ^ p ->
                  existsb (hits p dst n') (reserved w) = true).
  { intros n' Hk' Hn'. apply existsb_exists. exists (b, m).
    split; [exact Hin|]. eapply hits_complete; eassumption. }
  split; intros Hk' Hn'; unfold memcpy, memset, mark;
    cbn [clobbered emit set_clobbered];
    match goal with
    | |- context [reserved (set_mem ?m w)] =>
        change (reserved (set_mem m w)) with (reserved w)
    end;
    rewrite (Hex _ Hk' Hn'); apply orb_true_r.
Qed.

(** The registers recorded as reserved are those [main] writes. *)
Lemma device_registers_handoff : device_registers = handoff_registers.
Proof. reflexivity. Qed.

(** An image that places a segment on the first two reset-vector
    registers: the load goes through, and the write is recorded; the
    destination is not one a caller can have validated. *)
Lemma copy_onto_registers_is_recorded :
  let w := card64 image64_on_registers [] in
  map p_vaddr (image_segments ELF64 image64_on_registers) = [Apu.RVBARADDR0L]
  /\ ~ Forall (destination_clear ELF64 w)
              (image_segments ELF64 image64_on_registers)
  /\ fst (load_image ELF64 "bl31.elf" w)
     = Ok (image_header ELF64 image64_on_registers)
  /\ clobbered (snd (load_image ELF64 "bl31.elf" w)) = true.
Proof.
  cbv zeta. split; [vm_compute; reflexivity|].
  split; [|split; vm_compute; reflexivity].
  let l := eval vm_compute in (image_segments ELF64 image64_on_registers) in
  change (image_segments ELF64 image64_on_registers) with l.
  intros H. apply Forall_cons in H as [H _]. vm_compute in H. discriminate.
Qed.
